(** * LuminaLUT colour processor: histogram matching and LUT export

    A shallow embedding of [services/colorProcessor.ts]: the histogram
    builder [getHistogram], the distribution normalizer [getCDF], the channel
    mapper [createMapping], the per-pixel grading loop of [processImages] and
    the [.cube] exporter [generateLUTData], followed by the properties the
    specification states about them.

    Conventions.
    - A sample of a [Uint8ClampedArray] or [Uint8Array], and every array
      index, is a [nat]; the typed array keeps samples below 256.
    - A bucket of a [Uint32Array] is a [Z] reduced modulo [2^32] on every
      store.
    - A JavaScript number is an IEEE-754 binary64 value, a [spec_float] of the
      standard library with [prec = 53] and [emax = 1024]; an element of a
      [Float32Array] is the binary32 value ([prec = 24], [emax = 128]) that
      the store rounds to.  Reading it back widens it exactly, so two elements
      compare as their binary32 forms do.
    - Typed arrays are lists, read with [!!] and written with [<[_:=_]>]; a
      write outside the array is dropped and a read outside it gives
      [undefined], as in JavaScript.

    Structure.
    - The program: loops, typed arrays, the five components in the order
      [processImages] runs them.
    - The vocabulary of the properties: what a histogram, a CDF, a mapping
      and an image are, and the rounding of a quotient spelled out on
      integers.
    - The properties, component by component.  Those on [getCDF] and on the
      blend of the preview rest on a few facts about the standard library's
      [binary_round_aux]: it rounds a fraction to the nearest value of the
      format, exactly when the value is in the format, and monotonically.
    - Further properties of the same components and of the caller in
      [App.tsx]: what a bucket counts, what a mapping selects, how the blend
      lies between its two ends and follows the intensity, and what the
      grading does not depend on. *)

From Stdlib Require Import ZArith List Lia String Ascii DecimalString.
From Stdlib Require Import Floats.SpecFloat.
From Equations Require Import Equations.
From stdpp Require Import base list.

#[local] Open Scope Z_scope.

(** ** Loops *)

(** [for (let i = 0; i < n; i++) body], threading the loop state. *)
Definition for_range {S : Type} (n : nat) (body : nat -> S -> S) (s : S) : S :=
  fold_left (fun s i => body i s) (seq 0 n) s.

(** ** Typed arrays *)

(** The store conversion of a [Uint32Array]. *)
Definition to_uint32 (z : Z) : Z := z mod 2 ^ 32.

(** The store conversion of a [Uint8Array], on a non-negative integer. *)
Definition to_uint8 (n : nat) : nat := (n mod 256)%nat.

(** [hist[v]++] on a [Uint32Array]; [v] is [None] when the sample read for it
    was [undefined], and then, as for an index outside the array, no bucket
    changes. *)
Definition increment (hist : list Z) (v : option nat) : list Z :=
  match v with
  | Some v => alter (fun c => to_uint32 (c + 1)) v hist
  | None => hist
  end.

(** ** Histogram builder *)

Record Histograms := mkHistograms {
  rHist : list Z;
  gHist : list Z;
  bHist : list Z
}.

(** One iteration of the pixel loop of [getHistogram]. *)
Definition tally (r g b : option nat) (h : Histograms) : Histograms :=
  {| rHist := increment (rHist h) r;
     gHist := increment (gHist h) g;
     bHist := increment (bHist h) b |}.

(** [for (let i = 0; i < data.length; i += 4)]: the loop runs while sample
    [i] exists; samples [i + 1] and [i + 2] of a truncated last pixel read as
    [undefined]. *)
Fixpoint getHistogram_loop (data : list nat) (h : Histograms) : Histograms :=
  match data with
  | r :: g :: b :: _ :: rest => getHistogram_loop rest (tally (Some r) (Some g) (Some b) h)
  | [r; g; b] => tally (Some r) (Some g) (Some b) h
  | [r; g] => tally (Some r) (Some g) None h
  | [r] => tally (Some r) None None h
  | [] => h
  end.

Definition getHistogram (data : list nat) : Histograms :=
  getHistogram_loop data
    {| rHist := replicate 256 0; gHist := replicate 256 0; bHist := replicate 256 0 |}.

(** Sum of the buckets of one channel. *)
Definition bucket_sum (hist : list Z) : Z := foldr Z.add 0 hist.

(** A buffer with every alpha sample replaced by [a]. *)
Fixpoint set_alpha (a : nat) (data : list nat) : list nat :=
  match data with
  | r :: g :: b :: _ :: rest => r :: g :: b :: a :: set_alpha a rest
  | _ => data
  end.

(** ** JavaScript numbers *)

(** The number holding the integer [z]. *)
Definition num_of_Z (z : Z) : spec_float := binary_normalize 53 1024 z 0 false.

Definition num_of_nat (n : nat) : spec_float := num_of_Z (Z.of_nat n).

(** Reading an element of an integer typed array as a number; [undefined]
    converts to [NaN]. *)
Definition to_number (v : option Z) : spec_float :=
  match v with
  | Some z => num_of_Z z
  | None => S754_nan
  end.

(** The store conversion of a [Float32Array]: round to binary32. *)
Definition fround (x : spec_float) : spec_float :=
  match x with
  | S754_finite s m e => binary_round 24 128 s m e
  | _ => x
  end.

(** [a < b] on two array reads; a read outside the array is [undefined],
    which converts to [NaN] and compares false. *)
Definition js_lt (a b : option spec_float) : bool :=
  match a, b with
  | Some x, Some y => SFltb x y
  | _, _ => false
  end.

(** The store conversion of a [Uint8ClampedArray] (ToUint8Clamp): [NaN] and
    everything not above 0 give 0, everything from 255 up gives 255, and a
    value in between is rounded to the nearest integer, a tie to the even
    one. *)
Definition to_uint8_clamp (x : spec_float) : nat :=
  match x with
  | S754_nan => 0%nat
  | S754_zero _ => 0%nat
  | S754_infinity s => if s then 0%nat else 255%nat
  | S754_finite true _ _ => 0%nat
  | S754_finite false m e =>
      let n :=
        match e with
        | Zneg k =>
            let den := 2 ^ Zpos k in
            let q := Zpos m / den in
            match (2 * (Zpos m mod den)) ?= den with
            | Lt => q
            | Gt => q + 1
            | Eq => if Z.even q then q else q + 1
            end
        | _ => Zpos m * 2 ^ e
        end in
      Z.to_nat (Z.min n 255)
  end.

(** ** Distribution normalizer *)

(** The loop of [getCDF] after [n] iterations: the array under construction
    and the running sum [cumulative]. *)
Definition getCDF_loop (hist : list Z) (totalPixels : spec_float) (n : nat)
  : list spec_float * spec_float :=
  for_range n
    (fun i '(cdf, cumulative) =>
       let cumulative := SFadd 53 1024 cumulative (to_number (hist !! i)) in
       (<[i := fround (SFdiv 53 1024 cumulative totalPixels)]> cdf, cumulative))
    (replicate 256 (S754_zero false), S754_zero false).

Definition getCDF (hist : list Z) (totalPixels : spec_float) : list spec_float :=
  fst (getCDF_loop hist totalPixels 256).

(** ** Channel mapper *)

(** [while (refIdx < 255 && refCdf[refIdx] < x) refIdx++], where [x] is the
    read [sourceCdf[srcIdx]]; the distance of the cursor to 255 decreases. *)
Equations? advance (refCdf : list spec_float) (x : option spec_float) (refIdx : nat) : nat
  by wf (255 - refIdx)%nat lt :=
  advance refCdf x refIdx with decide (refIdx < 255)%nat => {
    | left _ with js_lt (refCdf !! refIdx) x => {
        | true := advance refCdf x (S refIdx);
        | false := refIdx };
    | right _ := refIdx }.
Proof. lia. Qed.

(** The loop of [createMapping]: the state is the mapping under construction
    and the cursor [refIdx]. *)
Definition createMapping_loop (sourceCdf refCdf : list spec_float) (n : nat)
  : list nat * nat :=
  for_range n
    (fun srcIdx '(mapping, refIdx) =>
       let refIdx := advance refCdf (sourceCdf !! srcIdx) refIdx in
       (<[srcIdx := to_uint8 refIdx]> mapping, refIdx))
    (replicate 256 0%nat, 0%nat).

Definition createMapping (sourceCdf refCdf : list spec_float) : list nat :=
  fst (createMapping_loop sourceCdf refCdf 256).

(** ** Grading applicator *)

Record ImageData := mkImageData {
  width : nat;
  height : nat;
  data : list nat
}.

Record Mappings := mkMappings {
  mappings_r : list nat;
  mappings_g : list nat;
  mappings_b : list nat
}.

(** [src + (matched - src) * intensity], stored in a [Uint8ClampedArray]. *)
Definition mix (matched : spec_float) (intensity : spec_float) (src : nat) : nat :=
  let s := num_of_nat src in
  to_uint8_clamp (SFadd 53 1024 s (SFmul 53 1024 (SFsub 53 1024 matched s) intensity)).

(** One colour sample of the preview loop: [matched] is [mapping[src]]. *)
Definition blend (mapping : list nat) (intensity : spec_float) (src : nat) : nat :=
  mix (to_number (Z.of_nat <$> mapping !! src)) intensity src.

(** The preview loop of [processImages].  [resultData] has the length of the
    source buffer, so the writes past a truncated last pixel are dropped. *)
Fixpoint applyMappings (mappings : Mappings) (intensity : spec_float) (data : list nat)
  : list nat :=
  match data with
  | r :: g :: b :: _ :: rest =>
      blend (mappings_r mappings) intensity r
      :: blend (mappings_g mappings) intensity g
      :: blend (mappings_b mappings) intensity b
      :: 255%nat :: applyMappings mappings intensity rest
  | [r; g; b] =>
      [blend (mappings_r mappings) intensity r;
       blend (mappings_g mappings) intensity g;
       blend (mappings_b mappings) intensity b]
  | [r; g] =>
      [blend (mappings_r mappings) intensity r;
       blend (mappings_g mappings) intensity g]
  | [r] => [blend (mappings_r mappings) intensity r]
  | [] => []
  end.

(** The statistics of one image: its three CDFs, normalized by
    [canvas.width * canvas.height]. *)
Record CDFs := mkCDFs {
  cdf_r : list spec_float;
  cdf_g : list spec_float;
  cdf_b : list spec_float
}.

Definition imageCDFs (pixels : ImageData) : CDFs :=
  let hists := getHistogram (data pixels) in
  let total := SFmul 53 1024 (num_of_nat (width pixels)) (num_of_nat (height pixels)) in
  {| cdf_r := getCDF (rHist hists) total;
     cdf_g := getCDF (gHist hists) total;
     cdf_b := getCDF (bHist hists) total |}.

Definition matchMappings (sourcePixels refPixels : ImageData) : Mappings :=
  let refCDFs := imageCDFs refPixels in
  let sourceCDFs := imageCDFs sourcePixels in
  {| mappings_r := createMapping (cdf_r sourceCDFs) (cdf_r refCDFs);
     mappings_g := createMapping (cdf_g sourceCDFs) (cdf_g refCDFs);
     mappings_b := createMapping (cdf_b sourceCDFs) (cdf_b refCDFs) |}.

(** [processImages] between the decoding of the two images and the encoding
    of the result: the graded pixel buffer. *)
Definition processImages (sourcePixels refPixels : ImageData) (intensity : spec_float)
  : list nat :=
  applyMappings (matchMappings sourcePixels refPixels) intensity (data sourcePixels).

(** ** LUT synthesizer *)

Definition LUT_SIZE : nat := 33.

#[local] Open Scope string_scope.

Definition newline : string := String (ascii_of_nat 10) EmptyString.
Definition dquote : string := String (ascii_of_nat 34) EmptyString.

(** The decimal digits of a non-negative integer, as template literals and
    [toFixed] print them. *)
Definition decimal (n : Z) : string := NilZero.string_of_uint (N.to_uint (Z.to_N n)).

Fixpoint zeros (k : nat) : string :=
  match k with
  | O => EmptyString
  | S k => String "0" (zeros k)
  end.

(** The integer [n] for which [n / 10^f - m * 2^e] is closest to zero, the
    larger one when there are two. *)
Definition scaled (f : nat) (m : positive) (e : Z) : Z :=
  match e with
  | Zneg k =>
      let den := 2 ^ Zpos k in
      let num := Zpos m * 10 ^ Z.of_nat f in
      if (den <=? 2 * (num mod den))%Z then num / den + 1 else num / den
  | _ => Zpos m * 2 ^ e * 10 ^ Z.of_nat f
  end.

(** The digits of [n] with a decimal point before the last [f] of them, padded
    with zeros on the left to [f + 1] digits. *)
Definition point (f : nat) (n : Z) : string :=
  let m := decimal n in
  let m := zeros (S f - String.length m) ++ m in
  let k := String.length m in
  match f with
  | O => m
  | _ => substring 0 (k - f) m ++ "." ++ substring (k - f) f m
  end.

(** [x.toFixed(f)] for a number below [10^21] in magnitude, the range in
    which JavaScript prints fixed-point digits. *)
Definition toFixed (f : nat) (x : spec_float) : string :=
  match x with
  | S754_nan => "NaN"
  | S754_infinity s => if s then "-Infinity" else "Infinity"
  | S754_zero _ => point f 0
  | S754_finite s m e => (if s then "-" else EmptyString) ++ point f (scaled f m e)
  end.

(** One axis value of the grid, [i / (LUT_SIZE - 1)]. *)
Definition axis (i : nat) : spec_float :=
  SFdiv 53 1024 (num_of_nat i) (SFsub 53 1024 (num_of_nat LUT_SIZE) (num_of_nat 1)).

(** The innermost statement of [generateLUTData]: the line appended for grid
    point [(r, g, b)]. *)
Definition cubeLine (r g b : nat) : string :=
  toFixed 6 (axis r) ++ " " ++ toFixed 6 (axis g) ++ " " ++ toFixed 6 (axis b) ++ newline.

Definition cubeHeader : string :=
  ("TITLE " ++ dquote ++ "LuminaLUT Grade" ++ dquote ++ newline)
  ++ ("LUT_3D_SIZE " ++ decimal (Z.of_nat LUT_SIZE) ++ newline ++ newline).

Definition generateLUTData (sourceUrl refUrl : string) (intensity : spec_float) : string :=
  for_range LUT_SIZE
    (fun b cube =>
       for_range LUT_SIZE
         (fun g cube =>
            for_range LUT_SIZE (fun r cube => cube ++ cubeLine r g b) cube)
         cube)
    cubeHeader.

(** The grid coordinate [i] of a 33-point axis, [i / 32], written with six
    decimals: [10^6 / 32] is an integer, so the expansion is exact. *)
Definition coordinate (i : nat) : string :=
  let millionths := Z.of_nat i * 10 ^ 6 / 32 in
  let frac := decimal (millionths mod 10 ^ 6) in
  decimal (millionths / 10 ^ 6) ++ "." ++ zeros (6 - String.length frac) ++ frac.

(** The concatenation of a list of pieces of text. *)
Definition glue (lines : list string) : string := foldr String.append EmptyString lines.

(** The data lines of the cube in the order the three loops append them:
    [b] outermost, [g] in the middle, [r] innermost. *)
Definition cubeLines : list string :=
  flat_map
    (fun b => flat_map (fun g => map (fun r => cubeLine r g b) (seq 0 LUT_SIZE)) (seq 0 LUT_SIZE))
    (seq 0 LUT_SIZE).

(** The data line that is the grid point [(r, g, b)] itself. *)
Definition coordinateLine (r g b : nat) : string :=
  coordinate r ++ " " ++ coordinate g ++ " " ++ coordinate b ++ newline.

#[local] Close Scope string_scope.

(** * Vocabulary of the properties *)

(** A channel histogram holding [k] counts in 256 non-negative buckets. *)
Definition holds (hist : list Z) (k : Z) : Prop :=
  length hist = 256%nat /\ Forall (fun c => 0 <= c) hist /\ bucket_sum hist = k.

(** The cursor [refIdx] after [n] iterations of the loop of
    [createMapping]. *)
Definition cursor (sourceCdf refCdf : list spec_float) (n : nat) : nat :=
  snd (createMapping_loop sourceCdf refCdf n).

(** A CDF array is non-decreasing: an entry is [<=] every later one (and
    itself, so no entry is [NaN]). *)
Definition nondecreasing (cdf : list spec_float) : Prop :=
  forall (i j : nat) (a b : spec_float),
    (i <= j)%nat -> cdf !! i = Some a -> cdf !! j = Some b -> SFleb a b = true.

(** The same, decided by comparing every pair. *)
Definition nondecreasingb (cdf : list spec_float) : bool :=
  forallb
    (fun j =>
       forallb
         (fun i =>
            match cdf !! i, cdf !! j with
            | Some a, Some b => SFleb a b
            | _, _ => true
            end)
         (seq 0 (S j)))
    (seq 0 (length cdf)).

(** A channel mapping as [createMapping] allocates it: a [Uint8Array] of 256
    entries. *)
Definition is_mapping (mapping : list nat) : Prop :=
  length mapping = 256%nat /\ Forall (fun v => (v < 256)%nat) mapping.

(** The fully matched buffer: every colour sample replaced by its mapped
    value, every alpha sample 255. *)
Definition mapped (mapping : list nat) (src : nat) : nat := default 0%nat (mapping !! src).

Fixpoint fullyMapped (mappings : Mappings) (data : list nat) : list nat :=
  match data with
  | r :: g :: b :: _ :: rest =>
      mapped (mappings_r mappings) r :: mapped (mappings_g mappings) g
      :: mapped (mappings_b mappings) b :: 255%nat :: fullyMapped mappings rest
  | [r; g; b] =>
      [mapped (mappings_r mappings) r; mapped (mappings_g mappings) g;
       mapped (mappings_b mappings) b]
  | [r; g] => [mapped (mappings_r mappings) r; mapped (mappings_g mappings) g]
  | [r] => [mapped (mappings_r mappings) r]
  | [] => []
  end.

(** The two boundary intensities, [0] and [1]. *)
Definition intensity_0 : spec_float := S754_zero false.
Definition intensity_1 : spec_float := num_of_Z 1.

(** A one-pixel black image and a one-pixel white image. *)
Definition blackPixel : ImageData :=
  {| width := 1; height := 1; data := [0; 0; 0; 255]%nat |}.
Definition whitePixel : ImageData :=
  {| width := 1; height := 1; data := [255; 255; 255; 255]%nat |}.

(** What the preview path makes of the sample [src], rescaled from 0..255 to
    0..1 and printed as the cube prints an axis value. *)
Definition gradedValue (mapping : list nat) (intensity : spec_float) (src : nat) : string :=
  toFixed 6 (SFdiv 53 1024 (num_of_nat (blend mapping intensity src)) (num_of_nat 255)).

(** The red samples of a buffer, in order. *)
Fixpoint reds (data : list nat) : list nat :=
  match data with
  | r :: _ :: _ :: _ :: rest => r :: reds rest
  | r :: _ => [r]
  | [] => []
  end.

(** An image of ten pixels, all of the colour [(r, g, b, a)]. *)
Definition tenPixels (r g b a : nat) : ImageData :=
  {| width := 5; height := 2; data := flat_map (fun _ => [r; g; b; a]) (seq 0 10) |}.

(** ** Rounding, spelled out *)

(** The location of the fraction [N / D] between [N / D] rounded down and
    the next integer. *)
Definition loc_of (N D : Z) : location :=
  if N mod D =? 0 then loc_Exact else loc_Inexact (2 * (N mod D) ?= D).

(** The shift record of the fraction [N / D]. *)
Definition rec_of (N D : Z) : shr_record := shr_record_of_loc (N / D) (loc_of N D).

(** After rounding to [prec] digits the mantissa may have reached
    [2 ^ prec]; it is then renormalised. *)
Definition carry (prec m e : Z) : Z * Z :=
  if m =? 2 ^ prec then (2 ^ (prec - 1), e + 1) else (m, e).

(** The integer nearest to [N / D], the even one on a tie. *)
Definition rnd (N D : Z) : Z := round_nearest_even (N / D) (loc_of N D).

(** The mantissa and exponent of the binary64 number holding the positive
    integer [c]. *)
Definition mant (c : Z) : Z := c * 2 ^ (53 - Zdigits2 c).
Definition expo (c : Z) : Z := Zdigits2 c - 53.

(** The quotient [c / t] of two positive integers, scaled to a mantissa of 53
    digits: numerator, denominator and exponent. *)
Definition quot_num (c : Z) : Z := mant c * 2 ^ 53.
Definition quot_den (c t : Z) : Z :=
  mant t * 2 ^ (Zdigits2 (quot_num c / mant t) - 53).
Definition quot_exp (c t : Z) : Z :=
  expo c - expo t - 53 + (Zdigits2 (quot_num c / mant t) - 53).

(** Mantissa and exponent of the binary64 quotient. *)
Definition div64 (c t : Z) : Z * Z :=
  carry 53 (rnd (quot_num c) (quot_den c t)) (quot_exp c t).

(** Mantissa and exponent of the binary32 value nearest to the binary64
    value [m * 2 ^ e]. *)
Definition round32 (m e : Z) : Z * Z := carry 24 (rnd m (2 ^ 29)) (e + 29).

(** Mantissa-exponent pairs of one precision, ordered by exponent and then
    by mantissa. *)
Definition lexle (x y : Z * Z) : Prop :=
  snd x < snd y \/ (snd x = snd y /\ fst x <= fst y).

(** [cdf[i] = cumulative / totalPixels] for the integers [c] and [t]. *)
Definition cdf_entry (c t : Z) : spec_float :=
  fround (SFdiv 53 1024 (num_of_Z c) (num_of_Z t)).

(** Mantissa and exponent of the entry for positive [c] and [t]. *)
Definition entry32 (c t : Z) : Z * Z :=
  round32 (fst (div64 c t)) (snd (div64 c t)).

(** The sum of the first [n] buckets. *)
Definition prefix (hist : list Z) (n : nat) : Z := bucket_sum (take n hist).

(** A channel histogram as [getHistogram] allocates it: a [Uint32Array] of
    256 buckets. *)
Definition is_histogram (hist : list Z) : Prop :=
  length hist = 256%nat /\ Forall (fun c => 0 <= c < 2 ^ 32) hist.

(** The value 1 in binary32. *)
Definition float32_one : spec_float := fround (num_of_Z 1).

(** Boolean forms of [is_histogram] and [is_mapping], to check a given
    array by evaluation. *)
Definition is_histogramb (hist : list Z) : bool :=
  Nat.eqb (length hist) 256 && forallb (fun c => (0 <=? c) && (c <? 2 ^ 32)) hist.

Definition is_mappingb (mapping : list nat) : bool :=
  Nat.eqb (length mapping) 256 && forallb (fun v => Nat.ltb v 256) mapping.

(** The red histogram and red CDF of an image, as [processImages] computes
    them. *)
Definition redHist (pixels : ImageData) : list Z := rHist (getHistogram (data pixels)).
Definition redCDF (pixels : ImageData) : list spec_float := cdf_r (imageCDFs pixels).

(** The mappings that invert every channel. *)
Definition invert : list nat := map (fun v => 255 - v)%nat (seq 0 256).
Definition inverted : Mappings :=
  {| mappings_r := invert; mappings_g := invert; mappings_b := invert |}.

(** An image as [getImageData] returns it: [4 * width * height] byte samples,
    at least one pixel and fewer than [2^32]. *)
Definition is_image (pixels : ImageData) : Prop :=
  length (data pixels) = (4 * (width pixels * height pixels))%nat
  /\ Forall (fun v => (v < 256)%nat) (data pixels)
  /\ (0 < width pixels * height pixels)%nat
  /\ Z.of_nat (width pixels * height pixels) < 2 ^ 32.

(** A valid CDF array: non-decreasing from a first entry that is at least 0
    to a last entry that is 1. *)
Definition is_cdf (cdf : list spec_float) : Prop :=
  nondecreasing cdf
  /\ (exists x : spec_float, cdf !! 0%nat = Some x /\ SFleb (S754_zero false) x = true)
  /\ cdf !! 255%nat = Some float32_one.

(** The number [a / b] for two integers. *)
Definition ratio (a b : Z) : spec_float := SFdiv 53 1024 (num_of_Z a) (num_of_Z b).

(** ** Vocabulary of the further properties *)

(** The green and the blue samples of a buffer, in order; a truncated last
    pixel contributes the samples it has. *)
Fixpoint greens (data : list nat) : list nat :=
  match data with
  | _ :: g :: _ :: _ :: rest => g :: greens rest
  | _ :: g :: _ => [g]
  | _ => []
  end.

Fixpoint blues (data : list nat) : list nat :=
  match data with
  | _ :: _ :: b :: _ :: rest => b :: blues rest
  | _ :: _ :: b :: _ => [b]
  | _ => []
  end.

(** How many of the samples [l] have the value [v]. *)
Definition occurrences (l : list nat) (v : nat) : Z := Z.of_nat (count_occ Nat.eq_dec l v).

(** How many of the samples [l] have a value of at most [i]. *)
Definition at_most (l : list nat) (i : nat) : Z :=
  Z.of_nat (length (List.filter (fun v => (v <=? i)%nat) l)).

(** Two histograms added bucket by bucket, as a [Uint32Array] would hold the
    sums. *)
Definition addBuckets (h1 h2 : list Z) : list Z := zip_with (fun a b => to_uint32 (a + b)) h1 h2.

Definition addHistograms (h1 h2 : Histograms) : Histograms :=
  {| rHist := addBuckets (rHist h1) (rHist h2);
     gHist := addBuckets (gHist h1) (gHist h2);
     bHist := addBuckets (bHist h1) (bHist h2) |}.

(** [mapping[s]] is the first reference value whose CDF reaches the CDF of
    the source at [s]: the reference CDF is at least [sourceCdf[s]] there
    and below it at every smaller value. *)
Definition first_reaching (sourceCdf refCdf : list spec_float) (mapping : list nat) (s : nat)
  : Prop :=
  exists (k : nat) (x y : spec_float),
    mapping !! s = Some k
    /\ sourceCdf !! s = Some x
    /\ refCdf !! k = Some y
    /\ SFleb x y = true
    /\ forall (j : nat) (y' : spec_float),
         (j < k)%nat -> refCdf !! j = Some y' -> SFltb y' x = true.

(** A number that is neither [NaN] nor an infinity. *)
Definition finite (x : spec_float) : bool :=
  match x with
  | S754_zero _ | S754_finite _ _ _ => true
  | _ => false
  end.

(** A number of sign [sx], or a zero, whose magnitude lies between the
    integers [lo] and [hi]. *)
Definition magnitude_within (sx : bool) (lo hi : Z) (x : spec_float) : Prop :=
  match x with
  | S754_zero _ => lo <= 0
  | S754_finite s m e => s = sx /\ e <= 0 /\ lo * 2 ^ (- e) <= Zpos m <= hi * 2 ^ (- e)
  | _ => False
  end.

(** An intensity between 0 and 1: a binary64 number [i] with [0 <= i] and
    [i <= 1]. *)
Definition unit_intensity (intensity : spec_float) : Prop :=
  valid_binary 53 1024 intensity = true
  /\ SFleb (S754_zero false) intensity = true
  /\ SFleb intensity (num_of_Z 1) = true.

(** [o] lies between [a] and [b], whichever is larger. *)
Definition between (a b o : nat) : Prop := (Nat.min a b <= o <= Nat.max a b)%nat.

(** The boolean forms of [unit_intensity] and [is_image], to check a given
    intensity or image by evaluation. *)
Definition unit_intensityb (intensity : spec_float) : bool :=
  valid_binary 53 1024 intensity
  && SFleb (S754_zero false) intensity
  && SFleb intensity (num_of_Z 1).

Definition is_imageb (pixels : ImageData) : bool :=
  Nat.eqb (length (data pixels)) (4 * (width pixels * height pixels))
  && forallb (fun v => Nat.ltb v 256) (data pixels)
  && Nat.ltb 0 (width pixels * height pixels)
  && (Z.of_nat (width pixels * height pixels) <? 2 ^ 32).

(** An image with every alpha sample replaced by [a]. *)
Definition withAlpha (a : nat) (pixels : ImageData) : ImageData :=
  {| width := width pixels; height := height pixels; data := set_alpha a (data pixels) |}.

(** An image of twenty pixels, all of the colour [(r, g, b, a)]. *)
Definition twentyPixels (r g b a : nat) : ImageData :=
  {| width := 5; height := 4; data := flat_map (fun _ => [r; g; b; a]) (seq 0 20) |}.

(** Mantissa and exponent of the binary64 number nearest to the positive
    value [N * 2 ^ ex], in the normal range: [N] is brought to 53 digits,
    by a shift to the left when it has fewer and by rounding when it has
    more. *)
Definition round53 (N ex : Z) : Z * Z :=
  carry 53 (rnd (N * 2 ^ Z.max (53 - Zdigits2 N) 0) (2 ^ Z.max (Zdigits2 N - 53) 0))
    (ex + Zdigits2 N - 53).

(** A number of sign [sx], or a zero, whose magnitude lies between
    [lo * 2 ^ g] and [hi * 2 ^ g]. *)
Definition scaled_within (sx : bool) (g lo hi : Z) (x : spec_float) : Prop :=
  match x with
  | S754_zero _ => lo <= 0
  | S754_finite s m e => s = sx /\ e <= g /\ lo * 2 ^ (g - e) <= Zpos m <= hi * 2 ^ (g - e)
  | _ => False
  end.

(** * The caller in [App.tsx] *)

(** [runGrading] of [App.tsx] calls
    [processImages(sourceImage, refImage, intensity / 100)], where
    [intensity] is the position of the slider: an integer from 0 to 100,
    100 at the start and after a reset. *)
Definition sliderIntensity (position : Z) : spec_float := ratio position 100.

(** The pixels that [runGrading] has [processImages] compute for the
    preview. *)
Definition runGrading (sourcePixels refPixels : ImageData) (position : Z) : list nat :=
  processImages sourcePixels refPixels (sliderIntensity position).

(** * Properties *)

(** ** The number model on sample values *)

(** [toFixed] rounds the exact binary value: [1.005] lies below its decimal
    reading, [0.125] is a tie and goes up. *)
Example toFixed_samples :
  toFixed 2 (ratio 1005 1000) = "1.00"%string
  /\ toFixed 2 (ratio 1 8) = "0.13"%string
  /\ toFixed 6 (ratio 1 3) = "0.333333"%string
  /\ toFixed 6 (ratio (-1) 3) = "-0.333333"%string.
Proof. vm_compute. repeat split. Qed.

(** [Math.fround(1 / 3)] and [Math.fround(0.1)]. *)
Example fround_samples :
  fround (ratio 1 3) = S754_finite false 11184811 (-25)
  /\ fround (ratio 1 10) = S754_finite false 13421773 (-27).
Proof. vm_compute. split; reflexivity. Qed.

(** A [Uint8ClampedArray] rounds ties to even and clamps. *)
Example to_uint8_clamp_samples :
  to_uint8_clamp (ratio 5 2) = 2%nat /\ to_uint8_clamp (ratio 7 2) = 4%nat
  /\ to_uint8_clamp (ratio 509 2) = 254%nat /\ to_uint8_clamp (num_of_Z 300) = 255%nat
  /\ to_uint8_clamp (num_of_Z (-3)) = 0%nat /\ to_uint8_clamp (ratio 0 0) = 0%nat.
Proof. vm_compute. repeat split. Qed.

(** Half-way between a sample of 50 and a matched value of 200. *)
Example mix_half : mix (num_of_Z 200) (ratio 1 2) 50 = 125%nat.
Proof. vm_compute. reflexivity. Qed.

(** ** Loops *)

Lemma for_range_S {S : Type} (n : nat) (body : nat -> S -> S) (s : S) :
  for_range (Datatypes.S n) body s = body n (for_range n body s).
Proof.
  unfold for_range. rewrite seq_S, fold_left_app. reflexivity.
Qed.

(** ** Histogram builder *)

Lemma bucket_sum_alter (f : Z -> Z) (hist : list Z) (v : nat) (c : Z) :
  hist !! v = Some c ->
  bucket_sum (alter f v hist) = bucket_sum hist - c + f c.
Proof.
  revert v. induction hist as [|x hist IH]; intros [|v] Hv; try discriminate.
  - injection Hv as ->. cbn. lia.
  - specialize (IH v Hv). change (alter f (S v) (x :: hist)) with (x :: alter f v hist).
    unfold bucket_sum in *. simpl foldr. lia.
Qed.

Lemma bucket_le_sum (hist : list Z) (v : nat) (c : Z) :
  Forall (fun c => 0 <= c) hist -> hist !! v = Some c -> 0 <= c <= bucket_sum hist.
Proof.
  intros Hpos. revert v. induction Hpos as [|x hist Hx Hpos IH]; intros [|v] Hv;
    simpl in *; try discriminate.
  - injection Hv as ->. assert (0 <= bucket_sum hist).
    { clear -Hpos. induction Hpos; simpl; lia. }
    lia.
  - specialize (IH v Hv). lia.
Qed.

Lemma holds_increment (hist : list Z) (k : Z) (v : nat) :
  holds hist k -> (v < 256)%nat -> k + 1 < 2 ^ 32 ->
  holds (increment hist (Some v)) (k + 1).
Proof.
  intros (Hlen & Hpos & Hsum) Hv Hk. unfold increment.
  destruct (lookup_lt_is_Some_2 hist v) as [c Hc]; [lia|].
  pose proof (bucket_le_sum hist v c Hpos Hc) as Hle.
  assert (Hwrap : to_uint32 (c + 1) = c + 1).
  { unfold to_uint32. apply Z.mod_small. lia. }
  repeat split.
  - rewrite length_alter. exact Hlen.
  - apply Forall_alter; [exact Hpos|]. intros y Hy.
    rewrite Hc in Hy. injection Hy as <-. rewrite Hwrap. lia.
  - rewrite (bucket_sum_alter _ hist v c Hc), Hwrap. lia.
Qed.

Lemma holds_replicate : holds (replicate 256 0) 0.
Proof.
  repeat split.
  - apply Forall_replicate. lia.
Qed.

(** Induction over a buffer pixel by pixel. *)
Lemma pixel_ind (P : list nat -> Prop) :
  P [] -> (forall r, P [r]) -> (forall r g, P [r; g]) -> (forall r g b, P [r; g; b]) ->
  (forall r g b a rest, P rest -> P (r :: g :: b :: a :: rest)) ->
  forall data, P data.
Proof.
  intros H0 H1 H2 H3 H4.
  fix IH 1. intros [|r [|g [|b [|a rest]]]];
    [exact H0 | exact (H1 r) | exact (H2 r g) | exact (H3 r g b) | exact (H4 r g b a rest (IH rest))].
Qed.

Lemma getHistogram_loop_holds (n : nat) :
  forall (data : list nat) (h : Histograms) (kr kg kb : Z),
    length data = (4 * n)%nat ->
    Forall (fun v => (v < 256)%nat) data ->
    holds (rHist h) kr -> holds (gHist h) kg -> holds (bHist h) kb ->
    kr + Z.of_nat n < 2 ^ 32 -> kg + Z.of_nat n < 2 ^ 32 -> kb + Z.of_nat n < 2 ^ 32 ->
    holds (rHist (getHistogram_loop data h)) (kr + Z.of_nat n)
    /\ holds (gHist (getHistogram_loop data h)) (kg + Z.of_nat n)
    /\ holds (bHist (getHistogram_loop data h)) (kb + Z.of_nat n).
Proof.
  induction n as [|n IH]; intros data h kr kg kb Hlen Hbytes Hr Hg Hb Br Bg Bb.
  - destruct data; [|discriminate]. simpl. rewrite !Z.add_0_r. auto.
  - destruct data as [|r [|g [|b [|a rest]]]]; simpl in Hlen; try lia.
    apply Forall_cons in Hbytes as [Vr Hbytes].
    apply Forall_cons in Hbytes as [Vg Hbytes].
    apply Forall_cons in Hbytes as [Vb Hbytes].
    apply Forall_cons in Hbytes as [_ Hbytes].
    change (getHistogram_loop (r :: g :: b :: a :: rest) h)
      with (getHistogram_loop rest (tally (Some r) (Some g) (Some b) h)).
    replace (kr + Z.of_nat (S n)) with (kr + 1 + Z.of_nat n) by lia.
    replace (kg + Z.of_nat (S n)) with (kg + 1 + Z.of_nat n) by lia.
    replace (kb + Z.of_nat (S n)) with (kb + 1 + Z.of_nat n) by lia.
    apply IH; try lia; try assumption; simpl; apply holds_increment; auto; lia.
Qed.

Lemma getHistogram_loop_set_alpha (a : nat) (data : list nat) :
  forall h, getHistogram_loop (set_alpha a data) h = getHistogram_loop data h.
Proof.
  induction data as [|r|r g|r g b|r g b a' rest IH] using pixel_ind; intros h;
    try reflexivity.
  simpl. apply IH.
Qed.

(** C7. For a buffer of [4 * pixels] byte samples (fewer than [2^32] pixels,
    the range of a [Uint32Array] bucket), each of the three histograms of
    [getHistogram] sums to [pixels], and the histograms do not depend on the
    alpha samples. *)
Theorem getHistogram_counts_pixels (data : list nat) (pixels a : nat) :
  length data = (4 * pixels)%nat ->
  Forall (fun v => (v < 256)%nat) data ->
  Z.of_nat pixels < 2 ^ 32 ->
  bucket_sum (rHist (getHistogram data)) = Z.of_nat pixels
  /\ bucket_sum (gHist (getHistogram data)) = Z.of_nat pixels
  /\ bucket_sum (bHist (getHistogram data)) = Z.of_nat pixels
  /\ getHistogram (set_alpha a data) = getHistogram data.
Proof.
  intros Hlen Hbytes Hbound.
  destruct (getHistogram_loop_holds pixels data
              {| rHist := replicate 256 0; gHist := replicate 256 0; bHist := replicate 256 0 |}
              0 0 0 Hlen Hbytes holds_replicate holds_replicate holds_replicate)
    as ((_ & _ & Hr) & (_ & _ & Hg) & (_ & _ & Hb)); try lia.
  repeat split; try assumption.
  apply getHistogram_loop_set_alpha.
Qed.

Lemma getHistogram_counts_pixels_witness :
  bucket_sum (rHist (getHistogram [10; 20; 30; 255; 10; 21; 31; 0]%nat)) = 2
  /\ bucket_sum (gHist (getHistogram [10; 20; 30; 255; 10; 21; 31; 0]%nat)) = 2
  /\ bucket_sum (bHist (getHistogram [10; 20; 30; 255; 10; 21; 31; 0]%nat)) = 2
  /\ getHistogram (set_alpha 7 [10; 20; 30; 255; 10; 21; 31; 0]%nat)
     = getHistogram [10; 20; 30; 255; 10; 21; 31; 0]%nat.
Proof.
  apply (getHistogram_counts_pixels [10; 20; 30; 255; 10; 21; 31; 0]%nat 2 7).
  - reflexivity.
  - repeat constructor.
  - reflexivity.
Defined.

(** ** Channel mapper *)

(** The cursor never moves backward. *)
Lemma advance_ge (refCdf : list spec_float) (x : option spec_float) (refIdx : nat) :
  (refIdx <= advance refCdf x refIdx)%nat.
Proof.
  funelim (advance refCdf x refIdx); lia.
Qed.

(** The cursor never moves past 255. *)
Lemma advance_le (refCdf : list spec_float) (x : option spec_float) (refIdx : nat) :
  (refIdx <= 255)%nat -> (advance refCdf x refIdx <= 255)%nat.
Proof.
  funelim (advance refCdf x refIdx); lia.
Qed.

(** The loop ends, and when it does its condition is false. *)
Lemma advance_stop (refCdf : list spec_float) (x : option spec_float) (refIdx : nat) :
  (advance refCdf x refIdx < 255)%nat ->
  js_lt (refCdf !! advance refCdf x refIdx) x = false.
Proof.
  funelim (advance refCdf x refIdx); auto. lia.
Qed.

(** Every position the cursor left behind held a value below [x]. *)
Lemma advance_passed (refCdf : list spec_float) (x : option spec_float) (refIdx j : nat) :
  (refIdx <= j < advance refCdf x refIdx)%nat -> js_lt (refCdf !! j) x = true.
Proof.
  funelim (advance refCdf x refIdx); try lia.
  intros Hj. destruct (decide (j = refIdx)) as [->|Hne]; [assumption|].
  apply H. lia.
Qed.

Section CreateMapping.
Variables sourceCdf refCdf : list spec_float.

Lemma createMapping_loop_S (n : nat) :
  createMapping_loop sourceCdf refCdf (S n) =
  (<[n := to_uint8 (cursor sourceCdf refCdf (S n))]> (fst (createMapping_loop sourceCdf refCdf n)),
   advance refCdf (sourceCdf !! n) (cursor sourceCdf refCdf n)).
Proof.
  unfold cursor, createMapping_loop. rewrite for_range_S.
  destruct (for_range n _ _) as [mapping refIdx]. reflexivity.
Qed.

Lemma cursor_S (n : nat) :
  cursor sourceCdf refCdf (S n) =
  advance refCdf (sourceCdf !! n) (cursor sourceCdf refCdf n).
Proof. unfold cursor at 1. rewrite createMapping_loop_S. reflexivity. Qed.

Lemma cursor_le_255 (n : nat) : (cursor sourceCdf refCdf n <= 255)%nat.
Proof.
  induction n as [|n IH].
  - unfold cursor. simpl. lia.
  - rewrite cursor_S. apply advance_le, IH.
Qed.

Lemma cursor_mono (n m : nat) :
  (n <= m)%nat -> (cursor sourceCdf refCdf n <= cursor sourceCdf refCdf m)%nat.
Proof.
  induction 1 as [|m Hle IH]; [lia|].
  rewrite (cursor_S m). etransitivity; [exact IH | apply advance_ge].
Qed.

Lemma createMapping_loop_length (n : nat) :
  length (fst (createMapping_loop sourceCdf refCdf n)) = 256%nat.
Proof.
  induction n as [|n IH].
  - reflexivity.
  - rewrite createMapping_loop_S. simpl. rewrite length_insert. exact IH.
Qed.

(** After [n] iterations, entry [i < n] holds the cursor as iteration [i]
    left it; the [Uint8Array] store does not wrap, the cursor being at most
    255. *)
Lemma createMapping_loop_lookup (n i : nat) :
  (i < n <= 256)%nat ->
  fst (createMapping_loop sourceCdf refCdf n) !! i = Some (cursor sourceCdf refCdf (S i)).
Proof.
  induction n as [|n IH]; intros Hi; [lia|].
  rewrite createMapping_loop_S. simpl.
  destruct (decide (i = n)) as [->|Hne].
  - rewrite list_lookup_insert_eq by (rewrite createMapping_loop_length; lia).
    unfold to_uint8. rewrite Nat.mod_small; [reflexivity|].
    pose proof (cursor_le_255 (S n)). lia.
  - rewrite list_lookup_insert_ne by lia. apply IH. lia.
Qed.

Lemma createMapping_lookup (i : nat) :
  (i < 256)%nat ->
  createMapping sourceCdf refCdf !! i = Some (cursor sourceCdf refCdf (S i)).
Proof. intros Hi. apply createMapping_loop_lookup. lia. Qed.
End CreateMapping.

(** C1. The mapping built by [createMapping] is non-decreasing: for source
    indices [i < j] in 0..255, [mapping[i] <= mapping[j]]. *)
Theorem createMapping_monotone (sourceCdf refCdf : list spec_float) (i j : nat) :
  (i < j)%nat -> (j < 256)%nat ->
  exists mi mj : nat,
    createMapping sourceCdf refCdf !! i = Some mi
    /\ createMapping sourceCdf refCdf !! j = Some mj
    /\ (mi <= mj)%nat.
Proof.
  intros Hij Hj.
  exists (cursor sourceCdf refCdf (S i)), (cursor sourceCdf refCdf (S j)).
  split; [apply createMapping_lookup; lia|].
  split; [apply createMapping_lookup; lia|].
  apply cursor_mono. lia.
Qed.

(** ** Order of floating-point values *)

(** [SFcompare] orders finite values by sign, exponent and mantissa, so
    [<] followed by [<=] is [<]; a [NaN] satisfies neither. *)
Lemma SFltb_SFleb_trans (x y z : spec_float) :
  SFltb x y = true -> SFleb y z = true -> SFltb x z = true.
Proof.
  unfold SFltb, SFleb, SFcompare.
  destruct x as [sx|sx| |sx mx ex], y as [sy|sy| |sy my ey], z as [sz|sz| |sz mz ez];
    try destruct sx; try destruct sy; try destruct sz; try discriminate; try reflexivity.
  all: change (Pos.compare_cont Eq) with Pos.compare.
  all: destruct (Z.compare_spec ex ey), (Z.compare_spec ey ez), (Z.compare_spec ex ez);
    try discriminate; try reflexivity; try lia; subst.
  all: destruct (Pos.compare_spec mx my), (Pos.compare_spec my mz), (Pos.compare_spec mx mz);
    simpl; try discriminate; try reflexivity; try lia.
Qed.

Lemma SFeqb_not_SFltb (x y : spec_float) : SFeqb x y = true -> SFltb x y = false.
Proof. unfold SFeqb, SFltb. destruct (SFcompare x y) as [[]|]; congruence. Qed.

Lemma nondecreasingb_sound (cdf : list spec_float) :
  nondecreasingb cdf = true -> nondecreasing cdf.
Proof.
  unfold nondecreasingb. intros Hall i j a b Hij Ha Hb.
  rewrite forallb_forall in Hall.
  assert (Hj : (j < length cdf)%nat) by (eapply lookup_lt_Some; exact Hb).
  specialize (Hall j). rewrite forallb_forall in Hall.
  specialize (Hall ltac:(apply in_seq; lia) i ltac:(apply in_seq; lia)).
  rewrite Ha, Hb in Hall. exact Hall.
Qed.

Section Plateau.
Variables sourceCdf refCdf : list spec_float.

(** Every position behind the cursor was passed because its value was
    below some earlier source value. *)
Lemma cursor_passed (n j : nat) :
  (j < cursor sourceCdf refCdf n)%nat ->
  exists s, (s < n)%nat /\ js_lt (refCdf !! j) (sourceCdf !! s) = true.
Proof.
  induction n as [|n IH]; intros Hj.
  - unfold cursor in Hj. simpl in Hj. lia.
  - destruct (decide (j < cursor sourceCdf refCdf n)%nat) as [Hlt|Hge].
    + destruct (IH Hlt) as (s & Hs & Hpass). exists s. split; [lia|exact Hpass].
    + exists n. split; [lia|].
      rewrite cursor_S in Hj.
      apply advance_passed with (refIdx := cursor sourceCdf refCdf n). lia.
Qed.

Hypothesis source_nondecreasing : nondecreasing sourceCdf.

Lemma below_cursor_below_source (srcIdx j : nat) (x y : spec_float) :
  sourceCdf !! srcIdx = Some x -> refCdf !! j = Some y ->
  (j < cursor sourceCdf refCdf (S srcIdx))%nat ->
  SFltb y x = true.
Proof.
  intros Hx Hy Hj.
  destruct (cursor_passed (S srcIdx) j Hj) as (s & Hs & Hpass).
  rewrite Hy in Hpass. unfold js_lt in Hpass.
  destruct (sourceCdf !! s) as [a|] eqn:Ha; [|discriminate].
  apply SFltb_SFleb_trans with (y := a); [exact Hpass|].
  apply (source_nondecreasing s srcIdx a x); [lia|exact Ha|exact Hx].
Qed.

Lemma cursor_first_not_below (srcIdx j : nat) (x y : spec_float) :
  sourceCdf !! srcIdx = Some x ->
  (j < 256)%nat -> refCdf !! j = Some y -> SFeqb y x = true ->
  exists y' : spec_float,
    refCdf !! cursor sourceCdf refCdf (S srcIdx) = Some y' /\ SFltb y' x = false.
Proof.
  intros Hx Hj Hy Heq.
  set (k := cursor sourceCdf refCdf (S srcIdx)).
  assert (Hkj : (k <= j)%nat).
  { destruct (decide (k <= j)%nat) as [|Hgt]; [assumption|].
    pose proof (below_cursor_below_source srcIdx j x y Hx Hy ltac:(fold k; lia)) as Hlt.
    rewrite (SFeqb_not_SFltb _ _ Heq) in Hlt. discriminate. }
  destruct (lookup_lt_is_Some_2 refCdf k) as [y' Hy'].
  { apply lookup_lt_Some in Hy. lia. }
  exists y'. split; [exact Hy'|].
  destruct (decide (k = j)) as [Hkeq|Hne].
  - rewrite Hkeq, Hy in Hy'. injection Hy' as <-. apply SFeqb_not_SFltb, Heq.
  - assert (Hstop : js_lt (refCdf !! k) (sourceCdf !! srcIdx) = false).
    { subst k. rewrite cursor_S. apply advance_stop. rewrite <- cursor_S. lia. }
    rewrite Hy', Hx in Hstop. exact Hstop.
Qed.
End Plateau.

(** C5. When the source CDF is non-decreasing and the value [x] at source
    index [srcIdx] is a level of the reference CDF (some reference value,
    several on a plateau, has exactly that CDF), [createMapping] sends
    [srcIdx] to the first reference value whose CDF is not less than [x]:
    the CDF at the mapped value is not below [x] and the CDF at every smaller
    reference value is. *)
Theorem createMapping_first_at_level
    (sourceCdf refCdf : list spec_float) (srcIdx : nat) (x : spec_float) :
  nondecreasing sourceCdf ->
  (srcIdx < 256)%nat ->
  sourceCdf !! srcIdx = Some x ->
  (exists (j : nat) (y : spec_float),
      (j < 256)%nat /\ refCdf !! j = Some y /\ SFeqb y x = true) ->
  exists (k : nat) (y : spec_float),
    createMapping sourceCdf refCdf !! srcIdx = Some k
    /\ refCdf !! k = Some y
    /\ SFltb y x = false
    /\ forall (j : nat) (y' : spec_float),
         (j < k)%nat -> refCdf !! j = Some y' -> SFltb y' x = true.
Proof.
  intros Hmono Hsrc Hx (j & y & Hj & Hy & Heq).
  destruct (cursor_first_not_below sourceCdf refCdf Hmono srcIdx j x y Hx Hj Hy Heq)
    as (y' & Hy' & Hnlt).
  exists (cursor sourceCdf refCdf (S srcIdx)), y'.
  split; [apply createMapping_lookup; exact Hsrc|].
  split; [exact Hy'|]. split; [exact Hnlt|].
  intros j' y'' Hj' Hy''.
  apply (below_cursor_below_source sourceCdf refCdf Hmono srcIdx j' x y'' Hx Hy'' Hj').
Qed.

(** ** LUT synthesizer *)

Lemma in_seq_0 (n i : nat) : (i < n)%nat -> In i (seq 0 n).
Proof. intros Hi. apply in_seq. lia. Qed.

Lemma append_assoc (a b c : string) : ((a ++ b) ++ c = a ++ (b ++ c))%string.
Proof. induction a as [|x a IH]; simpl; [reflexivity|]. rewrite IH. reflexivity. Qed.

Lemma append_empty_r (a : string) : (a ++ EmptyString)%string = a.
Proof. induction a as [|x a IH]; simpl; [reflexivity|]. rewrite IH. reflexivity. Qed.

Lemma glue_app (xs ys : list string) : glue (xs ++ ys) = (glue xs ++ glue ys)%string.
Proof.
  induction xs as [|x xs IH]; simpl; [reflexivity|].
  rewrite IH, append_assoc. reflexivity.
Qed.

(** A loop that appends one piece per iteration appends their concatenation. *)
Lemma for_range_append (n : nat) (piece : nat -> list string) (cube : string) :
  for_range n (fun i cube => (cube ++ glue (piece i))%string) cube
  = (cube ++ glue (flat_map piece (seq 0 n)))%string.
Proof.
  induction n as [|n IH].
  - simpl. rewrite append_empty_r. reflexivity.
  - rewrite for_range_S, IH, seq_S, flat_map_app, glue_app, append_assoc. simpl.
    rewrite app_nil_r. reflexivity.
Qed.

Lemma for_range_ext {S : Type} (n : nat) (f g : nat -> S -> S) (s : S) :
  (forall i s, f i s = g i s) -> for_range n f s = for_range n g s.
Proof.
  intros Hfg. induction n as [|n IH]; [reflexivity|].
  rewrite !for_range_S, IH. apply Hfg.
Qed.

Lemma generateLUTData_lines (sourceUrl refUrl : string) (intensity : spec_float) :
  generateLUTData sourceUrl refUrl intensity = (cubeHeader ++ glue cubeLines)%string.
Proof.
  unfold generateLUTData, cubeLines.
  rewrite <- for_range_append. apply for_range_ext. intros b cube.
  rewrite <- for_range_append. apply for_range_ext. intros g cube'.
  rewrite <- (for_range_append LUT_SIZE (fun r => [cubeLine r g b])).
  apply for_range_ext. intros r cube''. simpl. rewrite append_empty_r. reflexivity.
Qed.

(** Position [i * m + j] of a concatenation of blocks of length [m]. *)
Lemma flat_map_lookup {A B : Type} (f : A -> list B) (m : nat) (l : list A) :
  (forall x, length (f x) = m) ->
  forall (i j : nat) (x : A),
    l !! i = Some x -> (j < m)%nat -> flat_map f l !! (i * m + j)%nat = f x !! j.
Proof.
  intros Hlen. induction l as [|y l IH]; intros i j x Hi Hj; [discriminate|].
  simpl. destruct i as [|i].
  - injection Hi as ->. simpl. apply lookup_app_l. rewrite Hlen. exact Hj.
  - simpl in Hi. rewrite lookup_app_r by (rewrite Hlen; lia).
    rewrite Hlen. replace (S i * m + j - m)%nat with (i * m + j)%nat by lia.
    apply IH; assumption.
Qed.

Lemma flat_map_length_const {A B : Type} (f : A -> list B) (m : nat) (l : list A) :
  (forall x, length (f x) = m) -> length (flat_map f l) = (length l * m)%nat.
Proof.
  intros Hlen. induction l as [|y l IH]; simpl; [reflexivity|].
  rewrite length_app, Hlen, IH. reflexivity.
Qed.

Lemma seq_0_lookup (n i : nat) : (i < n)%nat -> seq 0 n !! i = Some i.
Proof. intros Hi. rewrite lookup_seq. split; [lia|exact Hi]. Qed.

Lemma cubeLines_length : Z.of_nat (length cubeLines) = 35937.
Proof.
  unfold cubeLines.
  rewrite (flat_map_length_const _ (33 * 33)).
  - rewrite length_seq, !Nat2Z.inj_mul. reflexivity.
  - intros b. rewrite (flat_map_length_const _ 33).
    + reflexivity.
    + intros g. rewrite length_map. reflexivity.
Qed.

Lemma cubeLines_lookup (r g b : nat) :
  (r < 33)%nat -> (g < 33)%nat -> (b < 33)%nat ->
  cubeLines !! (b * 33 * 33 + g * 33 + r)%nat = Some (cubeLine r g b).
Proof.
  intros Hr Hg Hb. unfold cubeLines.
  replace (b * 33 * 33 + g * 33 + r)%nat with (b * (33 * 33) + (g * 33 + r))%nat by lia.
  rewrite (flat_map_lookup _ (33 * 33) _) with (x := b).
  - rewrite (flat_map_lookup _ 33 _) with (x := g).
    + rewrite list_lookup_fmap_Some. exists r. split; [reflexivity|]. apply seq_0_lookup, Hr.
    + intros g'. rewrite length_map. reflexivity.
    + apply seq_0_lookup, Hg.
    + exact Hr.
  - intros b'. rewrite (flat_map_length_const _ 33); [reflexivity|].
    intros g'. rewrite length_map. reflexivity.
  - apply seq_0_lookup, Hb.
  - nia.
Qed.

(** The 33 axis values, printed by [toFixed(6)], are the coordinates
    [i / 32] to six decimals. *)
Lemma toFixed_axis_all :
  forallb (fun i => String.eqb (toFixed 6 (axis i)) (coordinate i)) (seq 0 33) = true.
Proof. vm_compute. reflexivity. Qed.

Lemma toFixed_axis (i : nat) : (i < 33)%nat -> toFixed 6 (axis i) = coordinate i.
Proof.
  intros Hi. pose proof toFixed_axis_all as Hall. rewrite forallb_forall in Hall.
  apply String.eqb_eq, Hall, in_seq_0, Hi.
Qed.

Lemma cubeLine_coordinates (r g b : nat) :
  (r < 33)%nat -> (g < 33)%nat -> (b < 33)%nat -> cubeLine r g b = coordinateLine r g b.
Proof.
  intros Hr Hg Hb. unfold cubeLine, coordinateLine.
  rewrite !toFixed_axis by assumption. reflexivity.
Qed.

Lemma cubeHeader_append (rest : string) :
  (cubeHeader ++ rest
   = "TITLE " ++ dquote ++ "LuminaLUT Grade" ++ dquote ++ newline
     ++ "LUT_3D_SIZE 33" ++ newline
     ++ newline
     ++ rest)%string.
Proof. reflexivity. Qed.

(** C8. The exported text is the [TITLE] line, the [LUT_3D_SIZE 33] line and
    a blank line, followed by exactly [33^3 = 35937] data lines; the line of
    grid point [(r, g, b)] stands at position [b * 33^2 + g * 33 + r] ([b]
    outermost, [r] innermost) and is the grid point itself, each coordinate
    [i / 32] with six decimals. *)
Theorem generateLUTData_identity_grid (sourceUrl refUrl : string) :
  exists lines : list string,
    generateLUTData sourceUrl refUrl intensity_1
    = ("TITLE " ++ dquote ++ "LuminaLUT Grade" ++ dquote ++ newline
       ++ "LUT_3D_SIZE 33" ++ newline
       ++ newline
       ++ glue lines)%string
    /\ Z.of_nat (length lines) = 35937
    /\ forall r g b : nat,
         (r < 33)%nat -> (g < 33)%nat -> (b < 33)%nat ->
         lines !! (b * 33 * 33 + g * 33 + r)%nat = Some (coordinateLine r g b).
Proof.
  exists cubeLines. split; [|split].
  - rewrite generateLUTData_lines. apply cubeHeader_append.
  - exact cubeLines_length.
  - intros r g b Hr Hg Hb. rewrite cubeLines_lookup by assumption.
    rewrite cubeLine_coordinates by assumption. reflexivity.
Qed.

(** C10. The exported text is the same for every two runs: it depends on
    neither image nor on the intensity. *)
Theorem generateLUTData_independent
    (sourceUrl1 refUrl1 sourceUrl2 refUrl2 : string) (intensity1 intensity2 : spec_float) :
  generateLUTData sourceUrl1 refUrl1 intensity1 = generateLUTData sourceUrl2 refUrl2 intensity2.
Proof. rewrite !generateLUTData_lines. reflexivity. Qed.

(** ** Rounding *)

Lemma digits2_pos_size (p : positive) : digits2_pos p = Pos.size p.
Proof. induction p as [p IH|p IH|]; simpl; congruence. Qed.

Lemma Zdigits2_log2 (m : Z) : 0 < m -> Zdigits2 m = Z.log2 m + 1.
Proof.
  destruct m as [|p|p]; try lia. intros _. simpl. rewrite digits2_pos_size.
  destruct p as [p|p|]; simpl; lia.
Qed.

Lemma Zdigits2_spec (m : Z) :
  0 < m -> 2 ^ (Zdigits2 m - 1) <= m < 2 ^ Zdigits2 m.
Proof.
  intros Hm. rewrite (Zdigits2_log2 m Hm).
  replace (Z.log2 m + 1 - 1) with (Z.log2 m) by lia.
  replace (Z.log2 m + 1) with (Z.succ (Z.log2 m)) by lia.
  apply Z.log2_spec, Hm.
Qed.

Lemma Zdigits2_unique (m d : Z) : 2 ^ (d - 1) <= m < 2 ^ d -> 0 < d -> Zdigits2 m = d.
Proof.
  intros Hm Hd.
  assert (0 < m) by (pose proof (Z.pow_pos_nonneg 2 (d - 1)); lia).
  rewrite Zdigits2_log2 by assumption.
  rewrite (Z.log2_unique m (d - 1)); try lia.
  replace (Z.succ (d - 1)) with d by lia. exact Hm.
Qed.

Lemma Zdigits2_pos (m : Z) : 0 < m -> 0 < Zdigits2 m.
Proof. intros Hm. rewrite Zdigits2_log2 by assumption. pose proof (Z.log2_nonneg m). lia. Qed.

Lemma new_location_loc_of (D r : Z) :
  0 < D -> 0 <= r < D ->
  new_location D r = if r =? 0 then loc_Exact else loc_Inexact (2 * r ?= D).
Proof.
  intros HD Hr. unfold new_location, new_location_even, new_location_odd.
  destruct (Z.even D) eqn:Heven; [reflexivity|].
  destruct (r =? 0); [reflexivity|]. f_equal.
  assert (Hodd : Z.odd D = true) by (rewrite <- Z.negb_even, Heven; reflexivity).
  apply Z.odd_spec in Hodd as [k Hk].
  destruct (Z.compare_spec (2 * r + 1) D), (Z.compare_spec (2 * r) D); try reflexivity; lia.
Qed.

Lemma shr_1_spec (mrs : shr_record) :
  0 <= shr_m mrs ->
  shr_1 mrs = {| shr_m := shr_m mrs / 2; shr_r := Z.odd (shr_m mrs);
                 shr_s := shr_r mrs || shr_s mrs |}.
Proof.
  destruct mrs as [m r s]. simpl. intros Hm.
  destruct m as [|[p|p|]|p]; try lia; rewrite <- Z.div2_div; reflexivity.
Qed.

Lemma loc_of_shr_record_of_loc (m : Z) (l : location) :
  loc_of_shr_record (shr_record_of_loc m l) = l.
Proof. destruct l as [|[]]; reflexivity. Qed.

Lemma shr_m_of_loc (m : Z) (l : location) : shr_m (shr_record_of_loc m l) = m.
Proof. destruct l as [|[]]; reflexivity. Qed.

Lemma loc_of_double (N D : Z) :
  0 <= N -> 0 < D ->
  loc_of N (2 * D) =
  match Z.odd (N / D), N mod D =? 0 with
  | false, true => loc_Exact
  | false, false => loc_Inexact Lt
  | true, true => loc_Inexact Eq
  | true, false => loc_Inexact Gt
  end.
Proof.
  intros HN HD. unfold loc_of.
  assert (Hr : N mod (2 * D) = N mod D + D * ((N / D) mod 2)).
  { rewrite (Z.mul_comm 2 D). apply Z.rem_mul_r; lia. }
  pose proof (Z.mod_pos_bound N D HD) as Hrho.
  rewrite Hr, Zmod_odd.
  destruct (Z.odd (N / D)), (Z.eqb_spec (N mod D) 0) as [H0|H0].
  - replace (N mod D + D * 1 =? 0) with false by (symmetry; apply Z.eqb_neq; lia).
    replace (2 * (N mod D + D * 1) ?= 2 * D) with Eq
      by (symmetry; apply Z.compare_eq_iff; lia).
    reflexivity.
  - replace (N mod D + D * 1 =? 0) with false by (symmetry; apply Z.eqb_neq; lia).
    replace (2 * (N mod D + D * 1) ?= 2 * D) with Gt
      by (symmetry; apply Z.compare_gt_iff; lia).
    reflexivity.
  - replace (N mod D + D * 0 =? 0) with true by (symmetry; apply Z.eqb_eq; lia).
    reflexivity.
  - replace (N mod D + D * 0 =? 0) with false by (symmetry; apply Z.eqb_neq; lia).
    replace (2 * (N mod D + D * 0) ?= 2 * D) with Lt
      by (symmetry; apply Z.compare_lt_iff; lia).
    reflexivity.
Qed.

(** Shifting the record of [N / D] by one bit gives the record of
    [N / (2 * D)]. *)
Lemma shr_1_rec_of (N D : Z) :
  0 <= N -> 0 < D -> shr_1 (rec_of N D) = rec_of N (2 * D).
Proof.
  intros HN HD. unfold rec_of.
  rewrite shr_1_spec by (rewrite shr_m_of_loc; apply Z.div_pos; lia).
  rewrite shr_m_of_loc, (loc_of_double N D HN HD).
  replace (N / (2 * D)) with (N / D / 2) by (rewrite (Z.mul_comm 2 D), Z.div_div; lia).
  unfold loc_of.
  destruct (Z.odd (N / D)), (N mod D =? 0); try reflexivity;
    destruct (2 * (N mod D) ?= D); reflexivity.
Qed.

Lemma pow2_xO (p : positive) : 2 ^ Zpos p~0 = 2 ^ Zpos p * 2 ^ Zpos p.
Proof. rewrite <- Z.pow_add_r by lia. f_equal. lia. Qed.

Lemma pow2_xI (p : positive) : 2 ^ Zpos p~1 = 2 * (2 ^ Zpos p * 2 ^ Zpos p).
Proof.
  rewrite <- Z.pow_add_r by lia.
  replace (Zpos p~1) with (Z.succ (Zpos p + Zpos p)) by lia.
  apply Z.pow_succ_r. lia.
Qed.

Lemma pow2_pos (n : Z) : 0 <= n -> 0 < 2 ^ n.
Proof. intros Hn. apply Z.pow_pos_nonneg; lia. Qed.

Lemma iter_pos_shr_1_rec_of (p : positive) :
  forall N D : Z, 0 <= N -> 0 < D ->
    SpecFloat.iter_pos shr_1 p (rec_of N D) = rec_of N (D * 2 ^ Zpos p).
Proof.
  induction p as [p IH|p IH|]; intros N D HN HD; simpl SpecFloat.iter_pos.
  - pose proof (pow2_pos (Zpos p) ltac:(lia)).
    rewrite shr_1_rec_of, IH, IH by (try apply Z.mul_pos_pos; lia).
    f_equal. rewrite pow2_xI. ring.
  - pose proof (pow2_pos (Zpos p) ltac:(lia)).
    rewrite IH, IH by (try apply Z.mul_pos_pos; lia).
    f_equal. rewrite pow2_xO. ring.
  - rewrite shr_1_rec_of by lia. f_equal. rewrite Z.pow_1_r. ring.
Qed.

Lemma shr_rec_of (N D e n : Z) :
  0 <= N -> 0 < D ->
  shr (rec_of N D) e n = (rec_of N (D * 2 ^ Z.max n 0), e + Z.max n 0).
Proof.
  intros HN HD. unfold shr. destruct n as [|p|p].
  - simpl. rewrite Z.mul_1_r, Z.add_0_r. reflexivity.
  - rewrite iter_pos_shr_1_rec_of by assumption. rewrite Z.max_l by lia. reflexivity.
  - rewrite Z.max_r by lia. simpl. rewrite Z.mul_1_r, Z.add_0_r. reflexivity.
Qed.

Lemma rec_of_exact (m : Z) : shr_record_of_loc m loc_Exact = rec_of m 1.
Proof. unfold rec_of, loc_of. rewrite Z.div_1_r, Z.mod_1_r. reflexivity. Qed.

Lemma rnd_bounds (N D : Z) : N / D <= rnd N D <= N / D + 1.
Proof.
  unfold rnd, round_nearest_even, loc_of.
  destruct (N mod D =? 0); [lia|].
  destruct (2 * (N mod D) ?= D); try lia. destruct (Z.even (N / D)); lia.
Qed.

Lemma rnd_exact (k D : Z) : 0 < D -> rnd (k * D) D = k.
Proof.
  intros HD. unfold rnd, loc_of. rewrite Z.mod_mul, Z.div_mul by lia. reflexivity.
Qed.

Section Rounding.
Variables prec emax : Z.

(** [binary_round_aux] on the fraction [N / D], scaled by [2 ^ ex]: shift to
    the precision, round to nearest even, shift once more if the rounding
    carried. *)
Lemma binary_round_aux_rec_of (sx : bool) (N D ex : Z) :
  0 <= N -> 0 < D ->
  binary_round_aux prec emax sx (N / D) ex (loc_of N D) =
  let n1 := Z.max (fexp prec emax (Zdigits2 (N / D) + ex) - ex) 0 in
  let m1 := rnd N (D * 2 ^ n1) in
  let e1 := ex + n1 in
  let n2 := Z.max (fexp prec emax (Zdigits2 m1 + e1) - e1) 0 in
  match m1 / 2 ^ n2 with
  | Z0 => S754_zero sx
  | Zpos m => if e1 + n2 <=? emax - prec then S754_finite sx m (e1 + n2) else S754_infinity sx
  | Zneg _ => S754_nan
  end.
Proof.
  intros HN HD. unfold binary_round_aux, shr_fexp.
  change (shr_record_of_loc (N / D) (loc_of N D)) with (rec_of N D).
  rewrite shr_rec_of by assumption.
  set (n1 := Z.max (fexp prec emax (Zdigits2 (N / D) + ex) - ex) 0).
  assert (HD1 : 0 < D * 2 ^ n1) by (apply Z.mul_pos_pos; [lia|apply pow2_pos; lia]).
  unfold rec_of. rewrite !shr_m_of_loc, !loc_of_shr_record_of_loc.
  change (round_nearest_even (N / (D * 2 ^ n1)) (loc_of N (D * 2 ^ n1)))
    with (rnd N (D * 2 ^ n1)).
  set (m1 := rnd N (D * 2 ^ n1)).
  assert (Hm1 : 0 <= m1).
  { pose proof (rnd_bounds N (D * 2 ^ n1)). pose proof (Z.div_pos N (D * 2 ^ n1)).
    fold m1 in H. lia. }
  rewrite rec_of_exact, shr_rec_of by lia.
  cbv zeta. unfold rec_of. rewrite shr_m_of_loc, Z.mul_1_l. reflexivity.
Qed.

Lemma match_pos {A : Type} (z : Z) (a c : A) (f : positive -> A) :
  0 < z ->
  match z with Z0 => a | Zpos m => f m | Zneg _ => c end = f (Z.to_pos z).
Proof. destruct z; try lia. reflexivity. Qed.

Hypothesis prec_pos : 0 < prec.

Lemma pow2_split (a b : Z) : 0 <= a -> 0 <= b -> 2 ^ (a + b) = 2 ^ a * 2 ^ b.
Proof. intros. apply Z.pow_add_r; assumption. Qed.

(** In the normal range a value with at least [prec] digits is rounded to
    [prec] digits and renormalised. *)
Lemma binary_round_aux_normal (sx : bool) (N D ex : Z) :
  0 <= N -> 0 < D -> 0 < N / D ->
  prec <= Zdigits2 (N / D) ->
  emin prec emax <= ex + Zdigits2 (N / D) - prec ->
  let e1 := ex + (Zdigits2 (N / D) - prec) in
  let m1 := rnd N (D * 2 ^ (Zdigits2 (N / D) - prec)) in
  snd (carry prec m1 e1) <= emax - prec ->
  binary_round_aux prec emax sx (N / D) ex (loc_of N D)
  = S754_finite sx (Z.to_pos (fst (carry prec m1 e1))) (snd (carry prec m1 e1))
  /\ 2 ^ (prec - 1) <= N / (D * 2 ^ (Zdigits2 (N / D) - prec)) < 2 ^ prec.
Proof.
  intros HN HD Hq Hdx Hemin e1 m1 Hemax.
  set (dx := Zdigits2 (N / D)) in *.
  assert (Hfloor : 2 ^ (prec - 1) <= N / (D * 2 ^ (dx - prec)) < 2 ^ prec).
  { pose proof (Zdigits2_spec (N / D) Hq) as Hspec. fold dx in Hspec.
    pose proof (pow2_pos (dx - prec) ltac:(lia)) as Hpow.
    rewrite <- Z.div_div by lia.
    assert (Hlo : 2 ^ (dx - 1) = 2 ^ (dx - prec) * 2 ^ (prec - 1)).
    { rewrite <- pow2_split by lia. f_equal. lia. }
    assert (Hhi : 2 ^ dx = 2 ^ (dx - prec) * 2 ^ prec).
    { rewrite <- pow2_split by lia. f_equal. lia. }
    rewrite Hlo, Hhi in Hspec.
    split.
    - apply Z.div_le_lower_bound; lia.
    - apply Z.div_lt_upper_bound; lia. }
  split; [|exact Hfloor].
  rewrite binary_round_aux_rec_of by assumption. cbv zeta. fold dx.
  assert (Hn1 : Z.max (fexp prec emax (dx + ex) - ex) 0 = dx - prec).
  { unfold fexp. lia. }
  rewrite Hn1. fold m1. replace (ex + (dx - prec)) with e1 by reflexivity.
  pose proof (rnd_bounds N (D * 2 ^ (dx - prec))) as Hrnd. fold m1 in Hrnd.
  pose proof (pow2_pos (prec - 1) ltac:(lia)) as Hpp.
  assert (Hpow : 2 ^ prec = 2 * 2 ^ (prec - 1)).
  { replace prec with (Z.succ (prec - 1)) at 1 by lia. apply Z.pow_succ_r. lia. }
  unfold carry in *. destruct (Z.eqb_spec m1 (2 ^ prec)) as [Hc|Hc]; simpl fst in *; simpl snd in *.
  - assert (Hd : Zdigits2 m1 = prec + 1).
    { apply Zdigits2_unique; [|lia]. rewrite Hc. replace (prec + 1 - 1) with prec by lia.
      split; [lia|]. apply Z.pow_lt_mono_r; lia. }
    rewrite Hd.
    assert (Hn2 : Z.max (fexp prec emax (prec + 1 + e1) - e1) 0 = 1).
    { unfold fexp. subst e1. lia. }
    rewrite Hn2, Hc, Hpow, Z.pow_1_r.
    replace (2 * 2 ^ (prec - 1) / 2) with (2 ^ (prec - 1))
      by (rewrite Z.mul_comm, Z.div_mul; lia).
    rewrite match_pos by lia.
    replace (e1 + 1 <=? emax - prec) with true by (symmetry; apply Z.leb_le; lia).
    reflexivity.
  - assert (Hd : Zdigits2 m1 = prec).
    { apply Zdigits2_unique; lia. }
    rewrite Hd.
    assert (Hn2 : Z.max (fexp prec emax (prec + e1) - e1) 0 = 0).
    { unfold fexp. subst e1. lia. }
    rewrite Hn2, Z.pow_0_r, Z.div_1_r, Z.add_0_r.
    rewrite match_pos by lia.
    replace (e1 <=? emax - prec) with true by (symmetry; apply Z.leb_le; lia).
    reflexivity.
Qed.

Lemma binary_round_aux_exact_form (sx : bool) (m e : Z) :
  binary_round_aux prec emax sx m e loc_Exact
  = binary_round_aux prec emax sx (m / 1) e (loc_of m 1).
Proof. unfold loc_of. rewrite Z.div_1_r, Z.mod_1_r. reflexivity. Qed.

Lemma Pos_iter_xO (m d : positive) : Zpos (Pos.iter xO m d) = Zpos m * 2 ^ Zpos d.
Proof.
  induction d as [|d IH] using Pos.peano_ind.
  - simpl. lia.
  - rewrite Pos.iter_succ, Pos2Z.inj_xO, IH, Pos2Z.inj_succ, Z.pow_succ_r by lia. ring.
Qed.

Lemma shl_align_fst (mx : positive) (ex ex' : Z) :
  ex' <= ex -> Zpos (fst (shl_align mx ex ex')) = Zpos mx * 2 ^ (ex - ex').
Proof.
  intros Hle. unfold shl_align. destruct (ex' - ex) as [|d|d] eqn:Hd; try lia.
  - replace (ex - ex') with 0 by lia. simpl. lia.
  - simpl. rewrite Pos_iter_xO. f_equal. f_equal. lia.
Qed.

(** A value that the format holds exactly, [m * 2 ^ e] with a mantissa of
    [prec] digits, is rounded to itself whatever mantissa and exponent it
    is given by. *)
Lemma binary_round_canonical (sx : bool) (mx : positive) (ex m e : Z) :
  2 ^ (prec - 1) <= m < 2 ^ prec ->
  emin prec emax <= e <= emax - prec ->
  (ex <= e /\ Zpos mx = m * 2 ^ (e - ex)) \/ (e <= ex /\ m = Zpos mx * 2 ^ (ex - e)) ->
  binary_round prec emax sx mx ex = S754_finite sx (Z.to_pos m) e.
Proof.
  intros Hm He Hval.
  pose proof (pow2_pos (prec - 1) ltac:(lia)) as Hpp.
  assert (Hdig : Zdigits2 (Zpos mx) + ex = prec + e).
  { destruct Hval as [[Hle Hmx]|[Hle Hmx]].
    - pose proof (pow2_pos (e - ex) ltac:(lia)) as Hp.
      rewrite (Zdigits2_unique (Zpos mx) (prec + (e - ex))); try lia.
      rewrite Hmx. replace (prec + (e - ex) - 1) with ((prec - 1) + (e - ex)) by lia.
      rewrite !pow2_split by lia. nia.
    - pose proof (pow2_pos (ex - e) ltac:(lia)) as Hp.
      assert (Hsmall : ex - e <= prec - 1).
      { destruct (Z.le_gt_cases (ex - e) (prec - 1)) as [Hsmall|Hbig]; [exact Hsmall|].
        exfalso.
        assert (H2 : 2 ^ (ex - e) = 2 ^ prec * 2 ^ (ex - e - prec)).
        { rewrite <- pow2_split by lia. f_equal. lia. }
        pose proof (pow2_pos (ex - e - prec) ltac:(lia)).
        rewrite H2 in Hmx. pose proof (pow2_pos prec ltac:(lia)). nia. }
      assert (H1 : 2 ^ (prec - 1) = 2 ^ (prec - (ex - e) - 1) * 2 ^ (ex - e)).
      { rewrite <- pow2_split by lia. f_equal. lia. }
      assert (H2 : 2 ^ prec = 2 ^ (prec - (ex - e)) * 2 ^ (ex - e)).
      { rewrite <- pow2_split by lia. f_equal. lia. }
      rewrite H1, H2, Hmx in Hm.
      rewrite (Zdigits2_unique (Zpos mx) (prec - (ex - e))); try lia.
      pose proof (pow2_pos (prec - (ex - e) - 1) ltac:(lia)).
      pose proof (pow2_pos (prec - (ex - e)) ltac:(lia)).
      nia. }
  unfold binary_round. change (Zpos (digits2_pos mx)) with (Zdigits2 (Zpos mx)). rewrite Hdig.
  assert (Hfexp : fexp prec emax (prec + e) = e) by (unfold fexp; lia).
  rewrite Hfexp.
  destruct (shl_align mx ex e) as [mz ez] eqn:Hshl.
  rewrite binary_round_aux_exact_form.
  assert (Hcases : (e < ex /\ Zpos mz = m /\ ez = e) \/ (ex <= e /\ mz = mx /\ ez = ex)).
  { destruct (Z.lt_ge_cases e ex) as [Hlt|Hge].
    - left. split; [exact Hlt|].
      pose proof (shl_align_fst mx ex e ltac:(lia)) as Hfst. rewrite Hshl in Hfst.
      simpl in Hfst. split.
      + destruct Hval as [[? ?]|[? ?]]; lia.
      + unfold shl_align in Hshl. destruct (e - ex) eqn:Hd; try lia.
        injection Hshl as _ <-. reflexivity.
    - right. split; [lia|]. unfold shl_align in Hshl.
      destruct (e - ex) eqn:Hd; try lia; injection Hshl as <- <-; auto. }
  assert (Hcarry : carry prec m e = (m, e)).
  { unfold carry. destruct (Z.eqb_spec m (2 ^ prec)); [lia|reflexivity]. }
  destruct Hcases as [(Hlt & Hmz & Hez)|(Hge & Hmz & Hez)]; subst ez.
  - rewrite Hmz.
    pose proof (binary_round_aux_normal sx m 1 e) as Hn.
    rewrite Z.div_1_r in Hn.
    rewrite (Zdigits2_unique m prec) in Hn by lia.
    replace (prec - prec) with 0 in Hn by lia.
    rewrite Z.pow_0_r, Z.mul_1_l, Z.add_0_r in Hn.
    replace (rnd m 1) with m in Hn
      by (rewrite <- (Z.mul_1_r m) at 2; rewrite rnd_exact; lia).
    cbv zeta in Hn. rewrite Hcarry in Hn. simpl fst in Hn. simpl snd in Hn.
    rewrite Z.div_1_r. apply Hn; lia.
  - subst mz.
    assert (Hmx : Zpos mx = m * 2 ^ (e - ex)).
    { destruct Hval as [[? ?]|[? Hmx]]; [assumption|].
      replace (e - ex) with 0 by lia. replace (ex - e) with 0 in Hmx by lia. lia. }
    pose proof (pow2_pos (e - ex) ltac:(lia)) as Hp.
    pose proof (binary_round_aux_normal sx (Zpos mx) 1 ex) as Hn.
    rewrite Z.div_1_r in Hn.
    replace (Zdigits2 (Zpos mx)) with (prec + (e - ex)) in Hn by lia.
    replace (prec + (e - ex) - prec) with (e - ex) in Hn by lia.
    replace (ex + (e - ex)) with e in Hn by lia.
    rewrite Z.mul_1_l, Hmx, rnd_exact in Hn by lia.
    cbv zeta in Hn. rewrite Hcarry in Hn. simpl fst in Hn. simpl snd in Hn.
    rewrite Z.div_1_r, Hmx. apply Hn; lia.
Qed.
End Rounding.

Lemma Zdigits2_le_53 (c : Z) : 0 < c < 2 ^ 53 -> 0 < Zdigits2 c <= 53.
Proof.
  intros Hc. split; [apply Zdigits2_pos; lia|].
  destruct (Z.le_gt_cases (Zdigits2 c) 53) as [|Hgt]; [assumption|exfalso].
  pose proof (Zdigits2_spec c ltac:(lia)) as [Hlo _].
  assert (2 ^ 53 <= 2 ^ (Zdigits2 c - 1)) by (apply Z.pow_le_mono_r; lia).
  lia.
Qed.

Lemma mant_bounds (c : Z) : 0 < c < 2 ^ 53 -> 2 ^ 52 <= mant c < 2 ^ 53.
Proof.
  intros Hc. pose proof (Zdigits2_le_53 c Hc) as Hd.
  pose proof (Zdigits2_spec c ltac:(lia)) as Hspec.
  unfold mant.
  assert (H1 : 2 ^ 52 = 2 ^ (Zdigits2 c - 1) * 2 ^ (53 - Zdigits2 c)).
  { rewrite <- Z.pow_add_r by lia. f_equal. lia. }
  assert (H2 : 2 ^ 53 = 2 ^ Zdigits2 c * 2 ^ (53 - Zdigits2 c)).
  { rewrite <- Z.pow_add_r by lia. f_equal. lia. }
  pose proof (pow2_pos (53 - Zdigits2 c) ltac:(lia)).
  rewrite H1, H2. nia.
Qed.

(** The number holding a positive integer below [2 ^ 53] holds it exactly,
    with a mantissa of 53 digits. *)
Lemma num_of_Z_pos (c : Z) :
  0 < c < 2 ^ 53 -> num_of_Z c = S754_finite false (Z.to_pos (mant c)) (expo c).
Proof.
  intros Hc. pose proof (Zdigits2_le_53 c Hc) as Hd.
  unfold num_of_Z, binary_normalize. destruct c as [|p|p]; try lia.
  apply binary_round_canonical; try lia.
  - apply (mant_bounds (Zpos p) Hc).
  - unfold emin, expo. lia.
  - right. unfold expo, mant. split; [lia|]. f_equal. f_equal. lia.
Qed.

Lemma num_of_Z_0 : num_of_Z 0 = S754_zero false.
Proof. reflexivity. Qed.

(** The number holding a non-zero integer of magnitude below [2 ^ 53]. *)
Lemma num_of_Z_nonzero (z : Z) :
  z <> 0 -> Z.abs z < 2 ^ 53 ->
  num_of_Z z = S754_finite (z <? 0) (Z.to_pos (mant (Z.abs z))) (expo (Z.abs z)).
Proof.
  intros Hz Hlt. destruct z as [|p|p]; try lia.
  - apply (num_of_Z_pos (Zpos p)). lia.
  - change (Z.abs (Zneg p)) with (Zpos p) in *.
    pose proof (Zdigits2_le_53 (Zpos p) ltac:(lia)) as Hd.
    unfold num_of_Z, binary_normalize.
    apply binary_round_canonical; try lia.
    + apply (mant_bounds (Zpos p)). lia.
    + unfold emin, expo. lia.
    + right. unfold expo, mant. split; [lia|]. f_equal. f_equal. lia.
Qed.

(** [binary_normalize] on an integer value [v], given as [v * 2 ^ (- e)]
    with exponent [e <= 0]. *)
Lemma binary_normalize_integer (v e : Z) :
  e <= 0 -> Z.abs v < 2 ^ 53 ->
  binary_normalize 53 1024 (v * 2 ^ (- e)) e false = num_of_Z v.
Proof.
  intros He Hv. pose proof (pow2_pos (- e) ltac:(lia)) as Hp.
  destruct (Z.eq_dec v 0) as [->|Hv0]; [reflexivity|].
  rewrite (num_of_Z_nonzero v Hv0 Hv).
  pose proof (mant_bounds (Z.abs v) ltac:(lia)) as Hm.
  pose proof (Zdigits2_le_53 (Z.abs v) ltac:(lia)) as Hd.
  assert (Hval : forall S : positive, Zpos S = Z.abs v * 2 ^ (- e) ->
            (e <= expo (Z.abs v)
             /\ Zpos S = mant (Z.abs v) * 2 ^ (expo (Z.abs v) - e))
            \/ (expo (Z.abs v) <= e
                /\ mant (Z.abs v) = Zpos S * 2 ^ (e - expo (Z.abs v)))).
  { intros S HS. rewrite HS. unfold mant, expo.
    destruct (Z.le_gt_cases e (Zdigits2 (Z.abs v) - 53)) as [Hle|Hgt].
    - left. split; [exact Hle|]. rewrite <- Z.mul_assoc, <- Z.pow_add_r by lia.
      f_equal. f_equal. lia.
    - right. split; [lia|]. rewrite <- Z.mul_assoc, <- Z.pow_add_r by lia.
      f_equal. f_equal. lia. }
  unfold binary_normalize.
  destruct (v * 2 ^ (- e)) as [|S|S] eqn:HS; try nia.
  - replace (v <? 0) with false by (symmetry; apply Z.ltb_ge; nia).
    apply binary_round_canonical; try lia.
    + unfold emin, expo. lia.
    + apply Hval. nia.
  - replace (v <? 0) with true by (symmetry; apply Z.ltb_lt; nia).
    apply binary_round_canonical; try lia.
    + unfold emin, expo. lia.
    + apply Hval. nia.
Qed.

(** The aligned, signed mantissa of a number holding an integer. *)
Lemma aligned_mantissa (z ez : Z) :
  z <> 0 -> Z.abs z < 2 ^ 53 -> ez <= expo (Z.abs z) ->
  cond_Zopp (z <? 0) (Zpos (fst (shl_align (Z.to_pos (mant (Z.abs z))) (expo (Z.abs z)) ez)))
  = z * 2 ^ (- ez).
Proof.
  intros Hz Hlt Hez.
  pose proof (mant_bounds (Z.abs z) ltac:(lia)) as Hm.
  pose proof (Zdigits2_le_53 (Z.abs z) ltac:(lia)) as Hd.
  rewrite shl_align_fst by lia. rewrite Z2Pos.id by lia.
  assert (E : mant (Z.abs z) * 2 ^ (expo (Z.abs z) - ez) = Z.abs z * 2 ^ (- ez)).
  { unfold mant. rewrite <- Z.mul_assoc, <- Z.pow_add_r by (unfold expo in *; lia).
    f_equal. f_equal. unfold expo. lia. }
  rewrite E. unfold cond_Zopp. destruct (Z.ltb_spec z 0); lia.
Qed.

Lemma expo_nonpos (z : Z) : z <> 0 -> Z.abs z < 2 ^ 53 -> expo (Z.abs z) <= 0.
Proof. intros Hz Hlt. pose proof (Zdigits2_le_53 (Z.abs z) ltac:(lia)). unfold expo. lia. Qed.

(** Addition and subtraction of integers are exact below [2 ^ 53]. *)
Lemma SFadd_integers (a b : Z) :
  Z.abs a < 2 ^ 53 -> Z.abs b < 2 ^ 53 -> Z.abs (a + b) < 2 ^ 53 ->
  SFadd 53 1024 (num_of_Z a) (num_of_Z b) = num_of_Z (a + b).
Proof.
  intros Ha Hb Hsum.
  destruct (Z.eq_dec a 0) as [->|Ha0]; [|destruct (Z.eq_dec b 0) as [->|Hb0]].
  - rewrite num_of_Z_0, Z.add_0_l.
    destruct (Z.eq_dec b 0) as [->|Hb0]; [reflexivity|].
    rewrite (num_of_Z_nonzero b) by lia. reflexivity.
  - rewrite num_of_Z_0, Z.add_0_r. rewrite (num_of_Z_nonzero a) by lia. reflexivity.
  - rewrite (num_of_Z_nonzero a), (num_of_Z_nonzero b) by lia.
    pose proof (expo_nonpos a Ha0 Ha). pose proof (expo_nonpos b Hb0 Hb).
    unfold SFadd. set (ez := Z.min (expo (Z.abs a)) (expo (Z.abs b))).
    rewrite !aligned_mantissa by lia.
    rewrite <- Z.mul_add_distr_r. apply binary_normalize_integer; lia.
Qed.

Lemma SFsub_integers (a b : Z) :
  Z.abs a < 2 ^ 53 -> Z.abs b < 2 ^ 53 -> Z.abs (a - b) < 2 ^ 53 ->
  SFsub 53 1024 (num_of_Z a) (num_of_Z b) = num_of_Z (a - b).
Proof.
  intros Ha Hb Hdiff.
  destruct (Z.eq_dec b 0) as [->|Hb0]; [|destruct (Z.eq_dec a 0) as [->|Ha0]].
  - rewrite num_of_Z_0, Z.sub_0_r.
    destruct (Z.eq_dec a 0) as [->|Ha0]; [reflexivity|].
    rewrite (num_of_Z_nonzero a) by lia. reflexivity.
  - rewrite num_of_Z_0, Z.sub_0_l.
    rewrite (num_of_Z_nonzero b), (num_of_Z_nonzero (- b)) by lia.
    rewrite Z.abs_opp. simpl SFsub. f_equal.
    destruct (Z.ltb_spec b 0), (Z.ltb_spec (- b) 0); try reflexivity; lia.
  - rewrite (num_of_Z_nonzero a), (num_of_Z_nonzero b) by lia.
    pose proof (expo_nonpos a Ha0 Ha). pose proof (expo_nonpos b Hb0 Hb).
    unfold SFsub. set (ez := Z.min (expo (Z.abs a)) (expo (Z.abs b))).
    rewrite !aligned_mantissa by lia.
    rewrite <- Z.mul_sub_distr_r. apply binary_normalize_integer; lia.
Qed.

(** Multiplying by 1 changes nothing; multiplying by 0 leaves a zero. *)
Lemma SFmul_one (z : Z) :
  Z.abs z < 2 ^ 53 -> SFmul 53 1024 (num_of_Z z) (num_of_Z 1) = num_of_Z z.
Proof.
  intros Hz. destruct (Z.eq_dec z 0) as [->|Hz0]; [reflexivity|].
  rewrite (num_of_Z_nonzero z Hz0 Hz).
  pose proof (mant_bounds (Z.abs z) ltac:(lia)) as Hm.
  pose proof (Zdigits2_le_53 (Z.abs z) ltac:(lia)) as Hd.
  change (num_of_Z 1) with (S754_finite false 4503599627370496 (-52)).
  unfold SFmul. rewrite xorb_false_r, binary_round_aux_exact_form.
  set (m := mant (Z.abs z)) in *. set (e := expo (Z.abs z)) in *.
  assert (HN : Zpos (Z.to_pos m * 4503599627370496) = m * 2 ^ 52).
  { rewrite Pos2Z.inj_mul, Z2Pos.id by lia. reflexivity. }
  rewrite HN.
  assert (Hdig : Zdigits2 (m * 2 ^ 52) = 105).
  { apply Zdigits2_unique; lia. }
  pose proof (binary_round_aux_normal 53 1024 ltac:(lia) (z <? 0) (m * 2 ^ 52) 1
                (e + -52)) as Hn.
  rewrite Z.div_1_r, Hdig in Hn. cbv zeta in Hn.
  replace (105 - 53) with 52 in Hn by lia.
  rewrite Z.mul_1_l, rnd_exact in Hn by lia.
  replace (e + -52 + 52) with e in Hn by lia.
  assert (Hcarry : carry 53 m e = (m, e)).
  { unfold carry. destruct (Z.eqb_spec m (2 ^ 53)); [lia|reflexivity]. }
  rewrite Hcarry in Hn. simpl fst in Hn. simpl snd in Hn.
  rewrite Z.div_1_r. apply Hn; try lia.
  - unfold emin. subst e. unfold expo. lia.
  - subst e. unfold expo. lia.
Qed.

Lemma SFmul_zero (z : Z) :
  Z.abs z < 2 ^ 53 -> SFmul 53 1024 (num_of_Z z) (S754_zero false) = S754_zero (z <? 0).
Proof.
  intros Hz. destruct (Z.eq_dec z 0) as [->|Hz0]; [reflexivity|].
  rewrite (num_of_Z_nonzero z Hz0 Hz). simpl. rewrite xorb_false_r. reflexivity.
Qed.

(** Multiplication of non-negative integers is exact below [2 ^ 53]. *)
Lemma SFmul_naturals (a b : Z) :
  0 <= a < 2 ^ 53 -> 0 <= b < 2 ^ 53 -> a * b < 2 ^ 53 ->
  SFmul 53 1024 (num_of_Z a) (num_of_Z b) = num_of_Z (a * b).
Proof.
  intros Ha Hb Hab.
  destruct (Z.eq_dec a 0) as [->|Ha0].
  { rewrite Z.mul_0_l, num_of_Z_0. destruct (Z.eq_dec b 0) as [->|Hb0]; [reflexivity|].
    rewrite (num_of_Z_pos b) by lia. reflexivity. }
  destruct (Z.eq_dec b 0) as [->|Hb0].
  { rewrite Z.mul_0_r, num_of_Z_0. rewrite (num_of_Z_pos a) by lia. reflexivity. }
  rewrite (num_of_Z_pos a), (num_of_Z_pos b), (num_of_Z_pos (a * b)) by nia.
  pose proof (mant_bounds a ltac:(lia)) as Hma.
  pose proof (mant_bounds b ltac:(lia)) as Hmb.
  pose proof (mant_bounds (a * b) ltac:(nia)) as Hmab.
  pose proof (Zdigits2_le_53 a ltac:(lia)) as Hda.
  pose proof (Zdigits2_le_53 b ltac:(lia)) as Hdb.
  pose proof (Zdigits2_le_53 (a * b) ltac:(nia)) as Hdab.
  unfold SFmul. simpl xorb. rewrite binary_round_aux_exact_form.
  rewrite Pos2Z.inj_mul, !Z2Pos.id by lia.
  set (d := Zdigits2 (a * b)) in *.
  set (k := 106 - Zdigits2 a - Zdigits2 b).
  assert (Hk : 53 - d <= k).
  { pose proof (Zdigits2_spec a ltac:(lia)) as Sa.
    pose proof (Zdigits2_spec b ltac:(lia)) as Sb.
    pose proof (Zdigits2_spec (a * b) ltac:(nia)) as Sab. fold d in Sab.
    unfold k.
    destruct (Z.le_gt_cases (53 - d) (106 - Zdigits2 a - Zdigits2 b)) as [|Hgt];
      [assumption|exfalso].
    pose proof (pow2_pos (Zdigits2 a - 1) ltac:(lia)).
    pose proof (pow2_pos (Zdigits2 b - 1) ltac:(lia)).
    assert (Hprod : 2 ^ (Zdigits2 a - 1) * 2 ^ (Zdigits2 b - 1) <= a * b) by nia.
    rewrite <- Z.pow_add_r in Hprod by lia.
    assert (2 ^ d <= 2 ^ (Zdigits2 a - 1 + (Zdigits2 b - 1)))
      by (apply Z.pow_le_mono_r; lia).
    lia. }
  assert (HN : mant a * mant b = mant (a * b) * 2 ^ (k - (53 - d))).
  { unfold mant. fold d.
    assert (E : 2 ^ (53 - d) * 2 ^ (k - (53 - d))
                = 2 ^ (53 - Zdigits2 a) * 2 ^ (53 - Zdigits2 b)).
    { rewrite <- !Z.pow_add_r by lia. f_equal. unfold k. lia. }
    transitivity (a * b * (2 ^ (53 - d) * 2 ^ (k - (53 - d)))); [rewrite E|]; ring. }
  pose proof (pow2_pos (k - (53 - d)) ltac:(lia)) as Hp.
  assert (Hdig : Zdigits2 (mant a * mant b) = 53 + (k - (53 - d))).
  { apply Zdigits2_unique; [|lia]. rewrite HN.
    replace (53 + (k - (53 - d)) - 1) with (52 + (k - (53 - d))) by lia.
    rewrite !Z.pow_add_r by lia. nia. }
  pose proof (binary_round_aux_normal 53 1024 ltac:(lia) false (mant a * mant b) 1
                (expo a + expo b)) as Hn.
  rewrite Z.div_1_r, Hdig in Hn. cbv zeta in Hn.
  replace (53 + (k - (53 - d)) - 53) with (k - (53 - d)) in Hn by lia.
  rewrite Z.mul_1_l, HN, rnd_exact in Hn by lia.
  replace (expo a + expo b + (k - (53 - d))) with (expo (a * b)) in Hn
    by (unfold expo, k; fold d; lia).
  assert (Hcarry : carry 53 (mant (a * b)) (expo (a * b)) = (mant (a * b), expo (a * b))).
  { unfold carry. destruct (Z.eqb_spec (mant (a * b)) (2 ^ 53)); [lia|reflexivity]. }
  rewrite Hcarry in Hn. simpl fst in Hn. simpl snd in Hn.
  rewrite Z.div_1_r, HN. apply Hn; try nia.
  - unfold emin, expo, k in *. fold d. lia.
  - unfold expo. fold d. lia.
Qed.

(** The total pixel count [canvas.width * canvas.height] is exact. *)
Lemma total_exact (w h : nat) :
  (0 < w * h)%nat -> Z.of_nat (w * h) < 2 ^ 53 ->
  SFmul 53 1024 (num_of_nat w) (num_of_nat h) = num_of_Z (Z.of_nat (w * h)).
Proof.
  intros Hpos Hwh. unfold num_of_nat. rewrite Nat2Z.inj_mul in *.
  assert (Hw : 1 <= Z.of_nat w) by (destruct w; simpl in Hpos; lia).
  assert (Hh : 1 <= Z.of_nat h) by (destruct h; [rewrite Nat.mul_0_r in Hpos|]; lia).
  apply SFmul_naturals; nia.
Qed.

Lemma SFadd_zero (z : Z) (s : bool) :
  0 <= z < 2 ^ 53 -> SFadd 53 1024 (num_of_Z z) (S754_zero s) = num_of_Z z.
Proof.
  intros Hz. destruct (Z.eq_dec z 0) as [->|Hz0].
  - destruct s; reflexivity.
  - rewrite (num_of_Z_pos z) by lia. reflexivity.
Qed.

(** Storing a byte value in a [Uint8ClampedArray] stores that value. *)
Lemma to_uint8_clamp_byte (n : nat) :
  (n < 256)%nat -> to_uint8_clamp (num_of_nat n) = n.
Proof.
  intros Hn. unfold num_of_nat. destruct (Nat.eq_dec n 0%nat) as [->|Hn0]; [reflexivity|].
  set (z := Z.of_nat n). assert (Hz : 0 < z < 256) by lia.
  rewrite (num_of_Z_pos z) by lia.
  pose proof (mant_bounds z ltac:(lia)) as Hm.
  pose proof (Zdigits2_le_53 z ltac:(lia)) as Hd.
  assert (Hd9 : Zdigits2 z <= 8).
  { destruct (Z.le_gt_cases (Zdigits2 z) 8) as [|Hgt]; [assumption|exfalso].
    pose proof (Zdigits2_spec z ltac:(lia)) as [Hlo _].
    assert (2 ^ 8 <= 2 ^ (Zdigits2 z - 1)) by (apply Z.pow_le_mono_r; lia). lia. }
  unfold to_uint8_clamp, expo.
  destruct (Zdigits2 z - 53) as [|k|k] eqn:Hk; try lia.
  rewrite Z2Pos.id by lia. unfold mant.
  replace (53 - Zdigits2 z) with (Zpos k) by lia.
  pose proof (pow2_pos (Zpos k) ltac:(lia)) as Hp.
  rewrite Z.div_mul, Z.mod_mul by lia.
  replace (2 * 0 ?= 2 ^ Zpos k) with Lt by (symmetry; apply Z.compare_lt_iff; lia).
  rewrite Z.min_l by lia. subst z. apply Nat2Z.id.
Qed.

Lemma Zdigits2_mant (c : Z) : 0 < c < 2 ^ 53 -> Zdigits2 (mant c) = 53.
Proof. intros Hc. apply Zdigits2_unique; [apply (mant_bounds c Hc)|lia]. Qed.

Lemma quot_digits (c t : Z) :
  0 < c < 2 ^ 53 -> 0 < t < 2 ^ 53 ->
  53 <= Zdigits2 (quot_num c / mant t) <= 54 /\ 0 < quot_num c / mant t.
Proof.
  intros Hc Ht. pose proof (mant_bounds c Hc) as Hmc. pose proof (mant_bounds t Ht) as Hmt.
  unfold quot_num.
  assert (Hlo : 2 ^ 52 <= mant c * 2 ^ 53 / mant t).
  { apply Z.div_le_lower_bound; [lia|]. nia. }
  assert (Hhi : mant c * 2 ^ 53 / mant t < 2 ^ 54).
  { apply Z.div_lt_upper_bound; [lia|]. nia. }
  split; [|lia].
  set (q := mant c * 2 ^ 53 / mant t) in *.
  pose proof (Zdigits2_spec q ltac:(lia)) as [Hs1 Hs2].
  split.
  - destruct (Z.le_gt_cases 53 (Zdigits2 q)) as [|Hlt]; [assumption|exfalso].
    assert (2 ^ Zdigits2 q <= 2 ^ 52) by (apply Z.pow_le_mono_r; lia). lia.
  - destruct (Z.le_gt_cases (Zdigits2 q) 54) as [|Hgt]; [assumption|exfalso].
    assert (2 ^ 54 <= 2 ^ (Zdigits2 q - 1)) by (apply Z.pow_le_mono_r; lia). lia.
Qed.

Lemma SFdiv_num_of_Z (c t : Z) :
  0 < c < 2 ^ 53 -> 0 < t < 2 ^ 53 ->
  SFdiv 53 1024 (num_of_Z c) (num_of_Z t)
  = S754_finite false (Z.to_pos (fst (div64 c t))) (snd (div64 c t))
  /\ 2 ^ 52 <= quot_num c / quot_den c t < 2 ^ 53.
Proof.
  intros Hc Ht. pose proof (mant_bounds c Hc) as Hmc. pose proof (mant_bounds t Ht) as Hmt.
  pose proof (Zdigits2_le_53 c Hc) as Hdc. pose proof (Zdigits2_le_53 t Ht) as Hdt.
  pose proof (quot_digits c t Hc Ht) as [Hdq Hq].
  rewrite (num_of_Z_pos c Hc), (num_of_Z_pos t Ht).
  unfold SFdiv, SFdiv_core_binary. rewrite !Z2Pos.id by lia.
  rewrite (Zdigits2_mant c Hc), (Zdigits2_mant t Ht).
  assert (He : Z.min (fexp 53 1024 (53 + expo c - (53 + expo t))) (expo c - expo t)
               = expo c - expo t - 53).
  { unfold fexp, emin, expo. lia. }
  rewrite He.
  replace (expo c - expo t - (expo c - expo t - 53)) with 53 by lia.
  rewrite Z.shiftl_mul_pow2 by lia. fold (quot_num c).
  assert (HN : 0 <= quot_num c) by (unfold quot_num; lia).
  destruct (Z.div_eucl (quot_num c) (mant t)) as [q r] eqn:Hqr.
  assert (Hqv : q = quot_num c / mant t) by (unfold Z.div; rewrite Hqr; reflexivity).
  assert (Hrv : r = quot_num c mod mant t) by (unfold Z.modulo; rewrite Hqr; reflexivity).
  rewrite new_location_loc_of
    by (try lia; rewrite Hrv; apply Z.mod_pos_bound; lia).
  replace (if r =? 0 then loc_Exact else loc_Inexact (2 * r ?= mant t))
    with (loc_of (quot_num c) (mant t)) by (unfold loc_of; rewrite <- Hrv; reflexivity).
  rewrite Hqv. simpl xorb.
  pose proof (binary_round_aux_normal 53 1024 ltac:(lia) false (quot_num c) (mant t)
                (expo c - expo t - 53) HN ltac:(lia) Hq ltac:(lia)) as Hn.
  cbv zeta in Hn. fold (quot_den c t) in Hn.
  replace (expo c - expo t - 53 + (Zdigits2 (quot_num c / mant t) - 53))
    with (quot_exp c t) in Hn by reflexivity.
  fold (div64 c t) in Hn. apply Hn.
  - unfold emin, expo. lia.
  - unfold div64, carry. destruct (_ =? _); simpl; unfold quot_exp, expo; lia.
Qed.

Example div64_1_3 : div64 1 3 = (6004799503160661, -54).
Proof. vm_compute. reflexivity. Qed.

Lemma fround_finite (m : positive) (e : Z) :
  2 ^ 52 <= Zpos m < 2 ^ 53 -> -178 <= e <= 74 ->
  fround (S754_finite false m e)
  = S754_finite false (Z.to_pos (fst (round32 (Zpos m) e))) (snd (round32 (Zpos m) e))
  /\ 2 ^ 23 <= Zpos m / 2 ^ 29 < 2 ^ 24.
Proof.
  intros Hm He. unfold fround, binary_round.
  change (Zpos (digits2_pos m)) with (Zdigits2 (Zpos m)).
  assert (Hd : Zdigits2 (Zpos m) = 53) by (apply Zdigits2_unique; lia).
  rewrite Hd.
  assert (Hf : fexp 24 128 (53 + e) = e + 29) by (unfold fexp, emin; lia).
  rewrite Hf. unfold shl_align. replace (e + 29 - e) with 29 by lia.
  rewrite binary_round_aux_exact_form.
  pose proof (binary_round_aux_normal 24 128 ltac:(lia) false (Zpos m) 1 e) as Hn.
  rewrite Z.div_1_r, Hd in Hn. cbv zeta in Hn.
  replace (53 - 24) with 29 in Hn by lia. rewrite Z.mul_1_l in Hn.
  fold (round32 (Zpos m) e) in Hn. rewrite Z.div_1_r. apply Hn; try lia.
  - unfold emin. lia.
  - unfold round32, carry. destruct (_ =? _); simpl; lia.
Qed.

(** ** Monotonicity of rounding *)

Lemma frac_compare (r D r' D' : Z) :
  0 < D -> 0 < D' -> r * D' <= r' * D ->
  (D < 2 * r -> D' < 2 * r') /\ (D <= 2 * r -> D' <= 2 * r').
Proof.
  intros HD HD' Hle. split; intros Hr.
  - apply (Z.mul_lt_mono_pos_l D); [exact HD|].
    apply Z.lt_le_trans with (2 * r * D'); [|lia].
    rewrite (Z.mul_comm D D'), (Z.mul_comm (2 * r) D').
    apply Z.mul_lt_mono_pos_l; assumption.
  - apply (Z.mul_le_mono_pos_l _ _ D); [exact HD|].
    apply Z.le_trans with (2 * r * D'); [|lia].
    rewrite (Z.mul_comm D D'), (Z.mul_comm (2 * r) D').
    apply Z.mul_le_mono_nonneg_l; lia.
Qed.

Lemma rnd_mono (N D N' D' : Z) :
  0 <= N -> 0 < D -> 0 <= N' -> 0 < D' ->
  N * D' <= N' * D -> rnd N D <= rnd N' D'.
Proof.
  intros HN HD HN' HD' Hle.
  pose proof (Z.div_mod N D ltac:(lia)) as E. pose proof (Z.mod_pos_bound N D HD) as B.
  pose proof (Z.div_mod N' D' ltac:(lia)) as E'. pose proof (Z.mod_pos_bound N' D' HD') as B'.
  pose proof (rnd_bounds N D) as R. pose proof (rnd_bounds N' D') as R'.
  pose proof (Z.div_pos N D HN HD) as Q. pose proof (Z.div_pos N' D' HN' HD') as Q'.
  unfold rnd, round_nearest_even, loc_of in *.
  set (q := N / D) in *. set (r := N mod D) in *.
  set (q' := N' / D') in *. set (r' := N' mod D') in *.
  clearbody q r q' r'. subst N N'.
  destruct (Z.lt_trichotomy q q') as [Hlt|[Heq|Hgt]].
  - lia.
  - subst q'. assert (Hfrac : r * D' <= r' * D) by lia.
    destruct (frac_compare _ _ _ _ HD HD' Hfrac) as [F1 F2].
    destruct (Z.eqb_spec r 0) as [H0|H0], (Z.eqb_spec r' 0) as [H0'|H0'];
      destruct (Z.compare_spec (2 * r) D) as [Hc|Hc|Hc],
               (Z.compare_spec (2 * r') D') as [Hc'|Hc'|Hc'];
      destruct (Z.even q); lia.
  - exfalso. assert (Hq : q' + 1 <= q) by lia.
    assert (H1 : (q' + 1) * (D * D') <= q * (D * D')) by (apply Z.mul_le_mono_nonneg_r; nia).
    assert (H2 : r' * D < D' * D) by (apply Z.mul_lt_mono_pos_r; lia).
    assert (H3 : 0 <= r * D') by nia.
    lia.
Qed.

(** Rounding to [p] digits and renormalising is monotone.  The two values
    are [N / D * 2 ^ e] and [N' / D' * 2 ^ e'], both scaled to [p] digits
    before the point; they need comparing only when [e' <= e]. *)
Lemma carry_rnd_mono (p N D e N' D' e' : Z) :
  0 < p -> 0 <= N -> 0 < D -> 0 <= N' -> 0 < D' ->
  2 ^ (p - 1) <= N / D < 2 ^ p ->
  2 ^ (p - 1) <= N' / D' < 2 ^ p ->
  (e' <= e -> N * D' * 2 ^ (e - e') <= N' * D) ->
  lexle (carry p (rnd N D) e) (carry p (rnd N' D') e').
Proof.
  intros Hp HN HD HN' HD' Hq Hq' Hval.
  pose proof (rnd_bounds N D) as R. pose proof (rnd_bounds N' D') as R'.
  pose proof (pow2_pos (p - 1) ltac:(lia)) as Hpp.
  assert (Hpow : 2 ^ p = 2 * 2 ^ (p - 1)).
  { replace p with (Z.succ (p - 1)) at 1 by lia. apply Z.pow_succ_r. lia. }
  destruct (Z.lt_trichotomy e e') as [Hlt|[Heq|Hgt]].
  - unfold lexle, carry.
    destruct (Z.eqb_spec (rnd N D) (2 ^ p)), (Z.eqb_spec (rnd N' D') (2 ^ p)); simpl; lia.
  - subst e'. specialize (Hval ltac:(lia)).
    rewrite Z.sub_diag, Z.pow_0_r, Z.mul_1_r in Hval.
    pose proof (rnd_mono N D N' D' HN HD HN' HD' Hval) as Hmono.
    unfold lexle, carry.
    destruct (Z.eqb_spec (rnd N D) (2 ^ p)), (Z.eqb_spec (rnd N' D') (2 ^ p)); simpl; lia.
  - exfalso. specialize (Hval ltac:(lia)).
    assert (H2 : 2 <= 2 ^ (e - e')).
    { replace (e - e') with (Z.succ (e - e' - 1)) by lia.
      rewrite Z.pow_succ_r by lia. pose proof (pow2_pos (e - e' - 1) ltac:(lia)). lia. }
    assert (HNlo : D * 2 ^ (p - 1) <= N).
    { apply Z.le_trans with (D * (N / D)); [|apply Z.mul_div_le; lia].
      apply Z.mul_le_mono_nonneg_l; lia. }
    assert (HNhi : N' < D' * 2 ^ p).
    { apply Z.lt_le_trans with (D' * Z.succ (N' / D')); [apply Z.mul_succ_div_gt; lia|].
      apply Z.mul_le_mono_nonneg_l; lia. }
    assert (H3 : D * 2 ^ (p - 1) * D' * 2 <= N * D' * 2 ^ (e - e')).
    { apply Z.mul_le_mono_nonneg; [|apply Z.mul_le_mono_nonneg_r| |]; try lia.
      all: try (apply Z.mul_nonneg_nonneg; [apply Z.mul_nonneg_nonneg|]; lia). }
    assert (H4 : N' * D < D' * 2 ^ p * D) by (apply Z.mul_lt_mono_pos_r; lia).
    rewrite Hpow in H4. lia.
Qed.

Lemma carry_bounds (p m e : Z) :
  0 < p -> 2 ^ (p - 1) <= m <= 2 ^ p ->
  2 ^ (p - 1) <= fst (carry p m e) < 2 ^ p /\ e <= snd (carry p m e) <= e + 1.
Proof.
  intros Hp Hm. pose proof (pow2_pos (p - 1) ltac:(lia)) as Hpp.
  assert (Hpow : 2 ^ p = 2 * 2 ^ (p - 1)).
  { replace p with (Z.succ (p - 1)) at 1 by lia. apply Z.pow_succ_r. lia. }
  unfold carry. destruct (Z.eqb_spec m (2 ^ p)); simpl; lia.
Qed.

Lemma lexle_SFleb (m e m' e' : Z) :
  0 < m -> 0 < m' -> lexle (m, e) (m', e') ->
  SFleb (S754_finite false (Z.to_pos m) e) (S754_finite false (Z.to_pos m') e') = true.
Proof.
  intros Hm Hm' Hle. unfold SFleb, SFcompare, lexle in *. simpl in Hle.
  change (Pos.compare_cont Eq) with Pos.compare.
  destruct (Z.compare_spec e e') as [He|He|He]; try lia; try reflexivity.
  destruct (Pos.compare_spec (Z.to_pos m) (Z.to_pos m')) as [Hc|Hc|Hc]; try reflexivity.
  lia.
Qed.

(** ** One CDF entry *)

Lemma quot_exp_bounds (c t : Z) :
  0 < c < 2 ^ 53 -> 0 < t < 2 ^ 53 -> -105 <= quot_exp c t <= 53.
Proof.
  intros Hc Ht. pose proof (Zdigits2_le_53 c Hc). pose proof (Zdigits2_le_53 t Ht).
  pose proof (quot_digits c t Hc Ht) as [Hdq _]. unfold quot_exp, expo. lia.
Qed.

Lemma quot_den_pos (c t : Z) : 0 < c < 2 ^ 53 -> 0 < t < 2 ^ 53 -> 0 < quot_den c t.
Proof.
  intros Hc Ht. pose proof (mant_bounds t Ht). pose proof (quot_digits c t Hc Ht) as [Hdq _].
  unfold quot_den. apply Z.mul_pos_pos; [lia|apply pow2_pos; lia].
Qed.

Lemma div64_bounds (c t : Z) :
  0 < c < 2 ^ 53 -> 0 < t < 2 ^ 53 ->
  2 ^ 52 <= fst (div64 c t) < 2 ^ 53 /\ -105 <= snd (div64 c t) <= 54.
Proof.
  intros Hc Ht. destruct (SFdiv_num_of_Z c t Hc Ht) as [_ Hfloor].
  pose proof (rnd_bounds (quot_num c) (quot_den c t)) as R.
  pose proof (quot_exp_bounds c t Hc Ht) as He.
  destruct (carry_bounds 53 (rnd (quot_num c) (quot_den c t)) (quot_exp c t)) as [Hm Hs];
    try lia.
  unfold div64. split; [exact Hm|lia].
Qed.

Lemma cdf_entry_pos (c t : Z) :
  0 < c < 2 ^ 53 -> 0 < t < 2 ^ 53 ->
  cdf_entry c t
  = S754_finite false (Z.to_pos (fst (entry32 c t))) (snd (entry32 c t))
  /\ 0 < fst (entry32 c t).
Proof.
  intros Hc Ht. destruct (SFdiv_num_of_Z c t Hc Ht) as [Hdiv _].
  destruct (div64_bounds c t Hc Ht) as [Hm He].
  unfold cdf_entry. rewrite Hdiv.
  destruct (fround_finite (Z.to_pos (fst (div64 c t))) (snd (div64 c t))) as [Hfr Hfl];
    rewrite ?Z2Pos.id by lia; try lia.
  rewrite Z2Pos.id in Hfr, Hfl by lia.
  split; [exact Hfr|].
  pose proof (rnd_bounds (fst (div64 c t)) (2 ^ 29)) as R.
  destruct (carry_bounds 24 (rnd (fst (div64 c t)) (2 ^ 29)) (snd (div64 c t) + 29)) as [Hb _];
    try lia.
  unfold entry32, round32. lia.
Qed.

Lemma div64_mono (c c' t : Z) :
  0 < c -> c <= c' -> c' < 2 ^ 53 -> 0 < t < 2 ^ 53 ->
  lexle (div64 c t) (div64 c' t).
Proof.
  intros Hc Hle Hc' Ht.
  destruct (SFdiv_num_of_Z c t ltac:(lia) Ht) as [_ Hfl].
  destruct (SFdiv_num_of_Z c' t ltac:(lia) Ht) as [_ Hfl'].
  pose proof (quot_den_pos c t ltac:(lia) Ht) as HD.
  pose proof (quot_den_pos c' t ltac:(lia) Ht) as HD'.
  pose proof (mant_bounds c ltac:(lia)) as Hmc.
  pose proof (mant_bounds c' ltac:(lia)) as Hmc'.
  pose proof (Zdigits2_le_53 c ltac:(lia)) as Hdc.
  pose proof (Zdigits2_le_53 c' ltac:(lia)) as Hdc'.
  pose proof (Zdigits2_le_53 t Ht) as Hdt.
  pose proof (quot_digits c t ltac:(lia) Ht) as [Hdq _].
  pose proof (quot_digits c' t ltac:(lia) Ht) as [Hdq' _].
  unfold div64. apply carry_rnd_mono; try assumption; try lia.
  - unfold quot_num. lia.
  - unfold quot_num. lia.
  - intros Hexp.
    set (dq := Zdigits2 (quot_num c / mant t)) in *.
    set (dq' := Zdigits2 (quot_num c' / mant t)) in *.
    assert (HX : quot_exp c t - quot_exp c' t
                 = Zdigits2 c + dq - Zdigits2 c' - dq').
    { unfold quot_exp, expo. fold dq dq'. lia. }
    rewrite HX in *. unfold quot_den. fold dq dq'. clearbody dq dq'.
    unfold quot_num, mant.
    set (k := 106 - Zdigits2 t + dq - Zdigits2 c').
    assert (EL : c * 2 ^ (53 - Zdigits2 c) * 2 ^ 53
                 * (t * 2 ^ (53 - Zdigits2 t) * 2 ^ (dq' - 53))
                 * 2 ^ (Zdigits2 c + dq - Zdigits2 c' - dq')
                 = c * t * 2 ^ k).
    { replace k with ((53 - Zdigits2 c) + 53 + (53 - Zdigits2 t) + (dq' - 53)
                      + (Zdigits2 c + dq - Zdigits2 c' - dq')) by (unfold k; lia).
      rewrite !Z.pow_add_r by lia. ring. }
    assert (ER : c' * 2 ^ (53 - Zdigits2 c') * 2 ^ 53
                 * (t * 2 ^ (53 - Zdigits2 t) * 2 ^ (dq - 53))
                 = c' * t * 2 ^ k).
    { replace k with ((53 - Zdigits2 c') + 53 + (53 - Zdigits2 t) + (dq - 53))
        by (unfold k; lia).
      rewrite !Z.pow_add_r by lia. ring. }
    rewrite EL, ER.
    apply Z.mul_le_mono_nonneg_r; [apply Z.lt_le_incl, pow2_pos; unfold k; lia|].
    apply Z.mul_le_mono_nonneg_r; lia.
Qed.

Lemma round32_mono (m e m' e' : Z) :
  2 ^ 52 <= m < 2 ^ 53 -> 2 ^ 52 <= m' < 2 ^ 53 ->
  lexle (m, e) (m', e') -> lexle (round32 m e) (round32 m' e').
Proof.
  intros Hm Hm' Hle. unfold round32.
  assert (Hfl : forall x, 2 ^ 52 <= x < 2 ^ 53 -> 2 ^ 23 <= x / 2 ^ 29 < 2 ^ 24).
  { intros x Hx. split.
    - apply Z.div_le_lower_bound; lia.
    - apply Z.div_lt_upper_bound; lia. }
  apply carry_rnd_mono; try lia; auto.
  intros Hexp. unfold lexle in Hle. simpl in Hle.
  destruct Hle as [Hlt|[Heq Hmm]]; [lia|].
  subst e'. replace (e + 29 - (e + 29)) with 0 by lia. rewrite Z.pow_0_r. lia.
Qed.

(** The entries for [c <= c'] are in order. *)
Lemma cdf_entry_mono (c c' t : Z) :
  0 <= c -> c <= c' -> c' < 2 ^ 53 -> 0 < t < 2 ^ 53 ->
  SFleb (cdf_entry c t) (cdf_entry c' t) = true.
Proof.
  intros Hc Hle Hc' Ht.
  destruct (Z.eq_dec c' 0) as [->|Hc'0].
  - replace c with 0 by lia. unfold cdf_entry. rewrite num_of_Z_0, (num_of_Z_pos t Ht).
    reflexivity.
  - destruct (cdf_entry_pos c' t ltac:(lia) Ht) as [E' P'].
    destruct (Z.eq_dec c 0) as [->|Hc0].
    + rewrite E'. unfold cdf_entry at 1. rewrite num_of_Z_0, (num_of_Z_pos t Ht).
      reflexivity.
    + destruct (cdf_entry_pos c t ltac:(lia) Ht) as [E P].
      rewrite E, E'.
      apply lexle_SFleb; try assumption.
      rewrite <- !surjective_pairing. unfold entry32.
      destruct (div64_bounds c t ltac:(lia) Ht) as [B _].
      destruct (div64_bounds c' t ltac:(lia) Ht) as [B' _].
      apply round32_mono; try assumption.
      rewrite <- !surjective_pairing. apply div64_mono; lia.
Qed.

(** When the running sum has reached the total the entry is exactly 1. *)
Lemma cdf_entry_one (t : Z) :
  0 < t < 2 ^ 53 -> cdf_entry t t = S754_finite false 8388608 (-23).
Proof.
  intros Ht. destruct (cdf_entry_pos t t Ht Ht) as [E _]. rewrite E.
  pose proof (mant_bounds t Ht) as Hmt.
  assert (Hq : quot_num t / mant t = 2 ^ 53).
  { unfold quot_num. rewrite Z.mul_comm, Z.div_mul; lia. }
  assert (Hden : quot_den t t = mant t * 2).
  { unfold quot_den. rewrite Hq. reflexivity. }
  assert (Hexp : quot_exp t t = -52).
  { unfold quot_exp. rewrite Hq. change (Zdigits2 (2 ^ 53)) with 54. lia. }
  assert (Hdiv : div64 t t = (2 ^ 52, -52)).
  { unfold div64. rewrite Hden, Hexp. unfold quot_num.
    replace (mant t * 2 ^ 53) with (2 ^ 52 * (mant t * 2)) by lia.
    rewrite rnd_exact by lia. reflexivity. }
  unfold entry32. rewrite Hdiv. reflexivity.
Qed.

(** ** Distribution normalizer *)

Lemma bucket_sum_app (xs ys : list Z) : bucket_sum (xs ++ ys) = bucket_sum xs + bucket_sum ys.
Proof. unfold bucket_sum. induction xs as [|x xs IH]; simpl; lia. Qed.

Lemma prefix_S (hist : list Z) (n : nat) (c : Z) :
  hist !! n = Some c -> prefix hist (S n) = prefix hist n + c.
Proof.
  intros Hc. unfold prefix. rewrite (take_S_r hist n c Hc), bucket_sum_app.
  unfold bucket_sum at 2. simpl. lia.
Qed.

Lemma prefix_bounds (hist : list Z) (n : nat) :
  Forall (fun c => 0 <= c < 2 ^ 32) hist ->
  0 <= prefix hist n <= Z.of_nat n * (2 ^ 32 - 1).
Proof.
  intros Hall. unfold prefix. revert n.
  induction Hall as [|x hist Hx Hall IH]; intros [|n]; unfold bucket_sum in *; simpl foldr;
    simpl take; simpl foldr; try lia.
  specialize (IH n). lia.
Qed.

Lemma prefix_mono (hist : list Z) (n m : nat) :
  Forall (fun c => 0 <= c < 2 ^ 32) hist -> (n <= m)%nat -> prefix hist n <= prefix hist m.
Proof.
  intros Hall Hnm. induction Hnm as [|m Hnm IH]; [lia|].
  destruct (hist !! m) as [c|] eqn:Hc.
  - rewrite (prefix_S hist m c Hc). rewrite Forall_lookup in Hall.
    specialize (Hall m c Hc). lia.
  - unfold prefix in *. apply lookup_ge_None in Hc.
    rewrite (take_ge hist (S m)) by lia. rewrite (take_ge hist m) in IH by lia. exact IH.
Qed.

Lemma prefix_all (hist : list Z) (n : nat) :
  (length hist <= n)%nat -> prefix hist n = bucket_sum hist.
Proof. intros Hn. unfold prefix. rewrite take_ge by exact Hn. reflexivity. Qed.

Section GetCDF.
Variable hist : list Z.
Variable totalPixels : spec_float.
Hypothesis hist_ok : is_histogram hist.

Lemma getCDF_loop_S (n : nat) :
  getCDF_loop hist totalPixels (S n) =
  (<[n := fround (SFdiv 53 1024 (snd (getCDF_loop hist totalPixels (S n))) totalPixels)]>
     (fst (getCDF_loop hist totalPixels n)),
   SFadd 53 1024 (snd (getCDF_loop hist totalPixels n)) (to_number (hist !! n))).
Proof.
  unfold getCDF_loop. rewrite for_range_S.
  destruct (for_range n _ _) as [cdf cumulative]. reflexivity.
Qed.

(** The running sum is exact: no bucket exceeds [2^32 - 1] and there are
    at most 256 of them. *)
Lemma getCDF_cumulative (n : nat) :
  (n <= 256)%nat -> snd (getCDF_loop hist totalPixels n) = num_of_Z (prefix hist n).
Proof.
  destruct hist_ok as [Hlen Hall].
  induction n as [|n IH]; intros Hn; [reflexivity|].
  rewrite getCDF_loop_S. cbn [snd]. rewrite IH by lia.
  destruct (lookup_lt_is_Some_2 hist n) as [c Hc]; [lia|].
  rewrite Hc. cbn [to_number]. rewrite (prefix_S hist n c Hc).
  pose proof (prefix_bounds hist n Hall). rewrite Forall_lookup in Hall.
  specialize (Hall n c Hc). apply SFadd_integers; lia.
Qed.

Lemma getCDF_loop_length (n : nat) :
  length (fst (getCDF_loop hist totalPixels n)) = 256%nat.
Proof.
  induction n as [|n IH]; [reflexivity|].
  rewrite getCDF_loop_S. cbn [fst]. rewrite length_insert. exact IH.
Qed.

Lemma getCDF_loop_lookup (n i : nat) :
  (i < n <= 256)%nat ->
  fst (getCDF_loop hist totalPixels n) !! i
  = Some (fround (SFdiv 53 1024 (num_of_Z (prefix hist (S i))) totalPixels)).
Proof.
  induction n as [|n IH]; intros Hi; [lia|].
  rewrite getCDF_loop_S. cbn [fst].
  destruct (decide (i = n)) as [->|Hne].
  - rewrite list_lookup_insert_eq by (rewrite getCDF_loop_length; lia).
    rewrite getCDF_cumulative by lia. reflexivity.
  - rewrite list_lookup_insert_ne by lia. apply IH. lia.
Qed.

Lemma getCDF_lookup (i : nat) :
  (i < 256)%nat ->
  getCDF hist totalPixels !! i
  = Some (fround (SFdiv 53 1024 (num_of_Z (prefix hist (S i))) totalPixels)).
Proof. intros Hi. apply getCDF_loop_lookup. lia. Qed.

Lemma getCDF_length : length (getCDF hist totalPixels) = 256%nat.
Proof. apply getCDF_loop_length. Qed.

Lemma prefix_small (n : nat) : (n <= 256)%nat -> 0 <= prefix hist n < 2 ^ 53.
Proof.
  intros Hn. destruct hist_ok as [_ Hall]. pose proof (prefix_bounds hist n Hall). nia.
Qed.
End GetCDF.

Lemma getCDF_nondecreasing (hist : list Z) (t : Z) :
  is_histogram hist -> 0 < t < 2 ^ 53 -> nondecreasing (getCDF hist (num_of_Z t)).
Proof.
  intros Hh Ht i j a b Hij Ha Hb.
  assert (Hj : (j < 256)%nat).
  { apply lookup_lt_Some in Hb. rewrite (getCDF_length hist _) in Hb. exact Hb. }
  rewrite (getCDF_lookup hist _ Hh) in Ha, Hb by lia.
  injection Ha as <-. injection Hb as <-.
  pose proof (prefix_small hist Hh (S i) ltac:(lia)).
  pose proof (prefix_small hist Hh (S j) ltac:(lia)).
  apply (cdf_entry_mono (prefix hist (S i)) (prefix hist (S j)) t); try lia.
  apply prefix_mono; [apply Hh|lia].
Qed.

Lemma getCDF_first_nonneg (hist : list Z) (t : Z) :
  is_histogram hist -> 0 < t < 2 ^ 53 ->
  exists x : spec_float,
    getCDF hist (num_of_Z t) !! 0%nat = Some x /\ SFleb (S754_zero false) x = true.
Proof.
  intros Hh Ht. eexists. split; [apply (getCDF_lookup hist _ Hh); lia|].
  pose proof (prefix_small hist Hh 1 ltac:(lia)) as Hp.
  replace (S754_zero false) with (cdf_entry 0 t)
    by (unfold cdf_entry; rewrite num_of_Z_0, (num_of_Z_pos t Ht); reflexivity).
  apply (cdf_entry_mono 0 (prefix hist 1) t); lia.
Qed.

Lemma float32_one_eq : float32_one = S754_finite false 8388608 (-23).
Proof. reflexivity. Qed.

Lemma getCDF_last_one (hist : list Z) (t : Z) :
  is_histogram hist -> 0 < t < 2 ^ 53 -> bucket_sum hist = t ->
  getCDF hist (num_of_Z t) !! 255%nat = Some float32_one.
Proof.
  intros Hh Ht Hsum. rewrite (getCDF_lookup hist _ Hh) by lia.
  rewrite prefix_all by (destruct Hh as [-> _]; lia).
  rewrite Hsum, float32_one_eq. f_equal. apply (cdf_entry_one t Ht).
Qed.

(** C6. For a histogram of 256 [Uint32Array] buckets and a total pixel
    count [t > 0] (an integer a number holds exactly), the array of [getCDF]
    is non-decreasing over the indices 0..255, its first entry is at least 0,
    and, the buckets summing to [t], its last entry is exactly 1. *)
Theorem getCDF_is_cdf (hist : list Z) (t : Z) :
  is_histogram hist -> 0 < t < 2 ^ 53 ->
  nondecreasing (getCDF hist (num_of_Z t))
  /\ (exists x : spec_float,
         getCDF hist (num_of_Z t) !! 0%nat = Some x /\ SFleb (S754_zero false) x = true)
  /\ (bucket_sum hist = t -> getCDF hist (num_of_Z t) !! 255%nat = Some float32_one).
Proof.
  intros Hh Ht. split; [|split].
  - apply getCDF_nondecreasing; assumption.
  - apply getCDF_first_nonneg; assumption.
  - apply getCDF_last_one; assumption.
Qed.

(** C3 (as the code behaves). With a total pixel count of 0 [getCDF] does
    not fail: it returns the array whose entry [i] is [NaN] while the running
    sum through bucket [i] is 0 and [+Infinity] once it is positive. *)
Theorem getCDF_zero_total (hist : list Z) (i : nat) :
  is_histogram hist -> (i < 256)%nat ->
  getCDF hist (num_of_Z 0) !! i
  = Some (if prefix hist (S i) =? 0 then S754_nan else S754_infinity false).
Proof.
  intros Hh Hi. rewrite (getCDF_lookup hist _ Hh) by lia. f_equal.
  pose proof (prefix_small hist Hh (S i) ltac:(lia)) as Hp.
  destruct (Z.eqb_spec (prefix hist (S i)) 0) as [H0|H0].
  - rewrite H0. reflexivity.
  - rewrite (num_of_Z_pos (prefix hist (S i))) by lia. reflexivity.
Qed.

Lemma holds_is_histogram (hist : list Z) (k : Z) :
  holds hist k -> k < 2 ^ 32 -> is_histogram hist.
Proof.
  intros (Hlen & Hpos & Hsum) Hk. split; [exact Hlen|].
  rewrite Forall_lookup. intros i c Hc.
  pose proof (bucket_le_sum hist i c Hpos Hc). lia.
Qed.

(** The three CDFs that [processImages] computes for an image are valid. *)
Lemma imageCDFs_are_cdfs (pixels : ImageData) :
  is_image pixels ->
  is_cdf (cdf_r (imageCDFs pixels))
  /\ is_cdf (cdf_g (imageCDFs pixels))
  /\ is_cdf (cdf_b (imageCDFs pixels)).
Proof.
  intros (Hlen & Hbytes & Hpos & Hsmall).
  set (n := (width pixels * height pixels)%nat) in *.
  destruct (getHistogram_loop_holds n (data pixels)
              {| rHist := replicate 256 0; gHist := replicate 256 0; bHist := replicate 256 0 |}
              0 0 0 Hlen Hbytes holds_replicate holds_replicate holds_replicate)
    as (Hr & Hg & Hb); try lia.
  rewrite Z.add_0_l in Hr, Hg, Hb.
  unfold imageCDFs. cbn [cdf_r cdf_g cdf_b]. fold n.
  rewrite (total_exact _ _ Hpos) by (fold n; lia). fold n.
  assert (Hcdf : forall hist, holds hist (Z.of_nat n) ->
            is_cdf (getCDF hist (num_of_Z (Z.of_nat n)))).
  { intros hist Hh. pose proof (holds_is_histogram hist _ Hh Hsmall) as Hhist.
    repeat split.
    - apply getCDF_nondecreasing; [exact Hhist|lia].
    - apply getCDF_first_nonneg; [exact Hhist|lia].
    - apply getCDF_last_one; [exact Hhist|lia|apply Hh]. }
  repeat split; apply Hcdf; assumption.
Qed.

(** ** Grading applicator *)

(** Intensity 0 gives back the sample, intensity 1 the matched value. *)
Lemma mix_boundary (m src : nat) :
  (m < 256)%nat -> (src < 256)%nat ->
  mix (num_of_nat m) intensity_0 src = src /\ mix (num_of_nat m) intensity_1 src = m.
Proof.
  intros Hm Hsrc. unfold mix, intensity_0, intensity_1, num_of_nat.
  rewrite SFsub_integers by lia.
  rewrite SFmul_zero, SFmul_one by lia.
  rewrite SFadd_zero, SFadd_integers by lia.
  replace (Z.of_nat src + (Z.of_nat m - Z.of_nat src)) with (Z.of_nat m) by lia.
  split; apply to_uint8_clamp_byte; assumption.
Qed.

Lemma blend_boundary (mapping : list nat) (src : nat) :
  is_mapping mapping -> (src < 256)%nat ->
  blend mapping intensity_0 src = src
  /\ blend mapping intensity_1 src = mapped mapping src.
Proof.
  intros [Hlen Hbytes] Hsrc. unfold blend, mapped.
  destruct (lookup_lt_is_Some_2 mapping src) as [m Hm]; [lia|].
  rewrite Hm. change (to_number (Z.of_nat <$> Some m)) with (num_of_nat m).
  change (default 0%nat (Some m)) with m.
  apply mix_boundary; [|exact Hsrc].
  rewrite Forall_forall in Hbytes. apply Hbytes.
  eapply list_elem_of_lookup_2. exact Hm.
Qed.

Lemma blend_intensity_0 (mapping : list nat) (src : nat) :
  is_mapping mapping -> (src < 256)%nat -> blend mapping intensity_0 src = src.
Proof. intros Hm Hsrc. apply (blend_boundary mapping src Hm Hsrc). Qed.

Lemma blend_intensity_1 (mapping : list nat) (src : nat) :
  is_mapping mapping -> (src < 256)%nat ->
  blend mapping intensity_1 src = mapped mapping src.
Proof. intros Hm Hsrc. apply (blend_boundary mapping src Hm Hsrc). Qed.

(** Split the bound on the samples of a buffer into one bound per sample. *)
Ltac bytes H := repeat (apply Forall_cons in H as [? H]).

(** C4. For every buffer of byte samples and every triple of 256-entry
    channel mappings, grading with intensity 0 returns the input buffer with
    every alpha sample set to 255, and grading with intensity 1 returns the
    fully matched buffer: every colour sample replaced by its mapped value,
    every alpha sample 255. *)
Theorem applyMappings_intensity_boundaries (mappings : Mappings) (data : list nat) :
  is_mapping (mappings_r mappings) -> is_mapping (mappings_g mappings) ->
  is_mapping (mappings_b mappings) ->
  Forall (fun v => (v < 256)%nat) data ->
  applyMappings mappings intensity_0 data = set_alpha 255 data
  /\ applyMappings mappings intensity_1 data = fullyMapped mappings data.
Proof.
  intros Hr Hg Hb Hbytes. split; revert Hbytes.
  - induction data as [|r|r g|r g b|r g b a rest IH] using pixel_ind; intros Hbytes;
      bytes Hbytes; cbn [applyMappings set_alpha];
      rewrite ?blend_intensity_0 by assumption; rewrite ?IH by assumption; reflexivity.
  - induction data as [|r|r g|r g b|r g b a rest IH] using pixel_ind; intros Hbytes;
      bytes Hbytes; cbn [applyMappings fullyMapped];
      rewrite ?blend_intensity_1 by assumption; rewrite ?IH by assumption; reflexivity.
Qed.

(** ** The exported cube against the preview *)

Lemma cubeLine_origin :
  cubeLine 0 0 0 = ("0.000000 0.000000 0.000000" ++ newline)%string.
Proof. vm_compute. reflexivity. Qed.

(** C2 (what the code does instead). For a black source and a white
    reference the three mappings send every value to 255, so the preview path
    at intensity 1 grades black to white and the red axis value at grid
    coordinate 0 would be [1.000000]; the exported cube still starts with the
    data line of the untransformed grid point [(0, 0, 0)]. *)
Theorem generateLUTData_ignores_mappings (sourceUrl refUrl : string) :
  matchMappings blackPixel whitePixel
  = {| mappings_r := replicate 256 255%nat;
       mappings_g := replicate 256 255%nat;
       mappings_b := replicate 256 255%nat |}
  /\ processImages blackPixel whitePixel intensity_1 = [255; 255; 255; 255]%nat
  /\ gradedValue (mappings_r (matchMappings blackPixel whitePixel)) intensity_1 0
     = "1.000000"%string
  /\ exists lines : list string,
       generateLUTData sourceUrl refUrl intensity_1 = (cubeHeader ++ glue lines)%string
       /\ lines !! 0%nat = Some ("0.000000 0.000000 0.000000" ++ newline)%string.
Proof.
  split; [vm_compute; reflexivity|].
  split; [vm_compute; reflexivity|].
  split; [vm_compute; reflexivity|].
  exists cubeLines. split; [apply generateLUTData_lines|].
  rewrite <- cubeLine_origin. apply (cubeLines_lookup 0 0 0); lia.
Qed.

(** ** The whole matching pipeline *)

Lemma rHist_reds (data : list nat) :
  forall h : Histograms,
    rHist (getHistogram_loop data h)
    = fold_left (fun hist r => increment hist (Some r)) (reds data) (rHist h).
Proof.
  induction data as [|r|r g|r g b|r g b a rest IH] using pixel_ind; intros h;
    try reflexivity.
  cbn [getHistogram_loop reds fold_left]. rewrite IH. reflexivity.
Qed.

(** C9. When the reference image has ten pixels, all of red value 200, and
    the source image has ten pixels, all of red value 50, the red mapping
    computed by the histogram builder, the normalizer and the channel mapper
    sends 50 to 200. *)
Theorem matchMappings_50_to_200 (sourcePixels refPixels : ImageData) :
  (width refPixels * height refPixels = 10)%nat ->
  reds (data refPixels) = replicate 10 200%nat ->
  (width sourcePixels * height sourcePixels = 10)%nat ->
  reds (data sourcePixels) = replicate 10 50%nat ->
  mappings_r (matchMappings sourcePixels refPixels) !! 50%nat = Some 200%nat.
Proof.
  intros Hrt Hrr Hst Hsr.
  unfold matchMappings, imageCDFs. cbn [mappings_r cdf_r].
  rewrite !total_exact by (rewrite ?Hrt, ?Hst; lia). rewrite Hrt, Hst.
  unfold getHistogram. rewrite !rHist_reds, Hrr, Hsr.
  vm_compute. reflexivity.
Qed.

Lemma matchMappings_50_to_200_witness :
  mappings_r (matchMappings (tenPixels 50 3 4 255) (tenPixels 200 7 9 128)) !! 50%nat
  = Some 200%nat.
Proof.
  apply (matchMappings_50_to_200 (tenPixels 50 3 4 255) (tenPixels 200 7 9 128));
    reflexivity.
Defined.

(** ** The properties on given images *)

Lemma is_histogramb_sound (hist : list Z) : is_histogramb hist = true -> is_histogram hist.
Proof.
  unfold is_histogramb, is_histogram. intros H.
  apply andb_prop in H as [Hlen Hall]. apply Nat.eqb_eq in Hlen.
  split; [exact Hlen|]. rewrite Forall_forall. intros c Hc.
  rewrite forallb_forall in Hall. specialize (Hall c ltac:(apply list_elem_of_In; exact Hc)).
  apply andb_prop in Hall as [H0 H1]. apply Z.leb_le in H0. apply Z.ltb_lt in H1. lia.
Qed.

Lemma is_mappingb_sound (mapping : list nat) : is_mappingb mapping = true -> is_mapping mapping.
Proof.
  unfold is_mappingb, is_mapping. intros H.
  apply andb_prop in H as [Hlen Hall]. apply Nat.eqb_eq in Hlen.
  split; [exact Hlen|]. rewrite Forall_forall. intros v Hv.
  rewrite forallb_forall in Hall. specialize (Hall v ltac:(apply list_elem_of_In; exact Hv)).
  apply Nat.ltb_lt in Hall. exact Hall.
Qed.

Lemma createMapping_monotone_witness :
  exists mi mj : nat,
    createMapping (redCDF (tenPixels 50 3 4 255)) (redCDF (tenPixels 200 7 9 128)) !! 10%nat
    = Some mi
    /\ createMapping (redCDF (tenPixels 50 3 4 255)) (redCDF (tenPixels 200 7 9 128)) !! 50%nat
       = Some mj
    /\ (mi <= mj)%nat.
Proof.
  apply (createMapping_monotone
           (redCDF (tenPixels 50 3 4 255)) (redCDF (tenPixels 200 7 9 128)) 10 50); lia.
Defined.

Lemma createMapping_first_at_level_witness :
  exists (k : nat) (y : spec_float),
    createMapping (redCDF (tenPixels 50 3 4 255)) (redCDF (tenPixels 200 7 9 128)) !! 50%nat
    = Some k
    /\ redCDF (tenPixels 200 7 9 128) !! k = Some y
    /\ SFltb y float32_one = false
    /\ forall (j : nat) (y' : spec_float),
         (j < k)%nat -> redCDF (tenPixels 200 7 9 128) !! j = Some y' ->
         SFltb y' float32_one = true.
Proof.
  apply (createMapping_first_at_level
           (redCDF (tenPixels 50 3 4 255)) (redCDF (tenPixels 200 7 9 128)) 50 float32_one).
  - apply nondecreasingb_sound. vm_compute. reflexivity.
  - lia.
  - vm_compute. reflexivity.
  - exists 230%nat, float32_one. split; [lia|]. split; vm_compute; reflexivity.
Defined.

Lemma applyMappings_intensity_boundaries_witness :
  applyMappings inverted intensity_0 [10; 20; 30; 40; 250; 0; 128; 7]%nat
  = set_alpha 255 [10; 20; 30; 40; 250; 0; 128; 7]%nat
  /\ applyMappings inverted intensity_1 [10; 20; 30; 40; 250; 0; 128; 7]%nat
     = fullyMapped inverted [10; 20; 30; 40; 250; 0; 128; 7]%nat.
Proof.
  apply (applyMappings_intensity_boundaries inverted [10; 20; 30; 40; 250; 0; 128; 7]%nat).
  - apply is_mappingb_sound. vm_compute. reflexivity.
  - apply is_mappingb_sound. vm_compute. reflexivity.
  - apply is_mappingb_sound. vm_compute. reflexivity.
  - repeat constructor.
Defined.

Lemma getCDF_is_cdf_witness :
  nondecreasing (getCDF (redHist (tenPixels 50 3 4 255)) (num_of_Z 10))
  /\ (exists x : spec_float,
         getCDF (redHist (tenPixels 50 3 4 255)) (num_of_Z 10) !! 0%nat = Some x
         /\ SFleb (S754_zero false) x = true)
  /\ (bucket_sum (redHist (tenPixels 50 3 4 255)) = 10 ->
      getCDF (redHist (tenPixels 50 3 4 255)) (num_of_Z 10) !! 255%nat = Some float32_one).
Proof.
  apply (getCDF_is_cdf (redHist (tenPixels 50 3 4 255)) 10).
  - apply is_histogramb_sound. vm_compute. reflexivity.
  - lia.
Defined.

Lemma getCDF_zero_total_witness :
  getCDF (redHist (tenPixels 50 3 4 255)) (num_of_Z 0) !! 100%nat
  = Some (if prefix (redHist (tenPixels 50 3 4 255)) 101 =? 0
          then S754_nan else S754_infinity false).
Proof.
  apply (getCDF_zero_total (redHist (tenPixels 50 3 4 255)) 100).
  - apply is_histogramb_sound. vm_compute. reflexivity.
  - lia.
Defined.

(** C3 (counterexample). With a total pixel count of 0 [getCDF] returns an
    array: every entry [NaN] for an empty histogram, and [+Infinity] from the
    first non-empty bucket on otherwise. *)
Lemma getCDF_zero_total_returns_NaN :
  getCDF (replicate 256 0) (num_of_Z 0) = replicate 256 S754_nan
  /\ getCDF (redHist (tenPixels 50 3 4 255)) (num_of_Z 0) !! 49%nat = Some S754_nan
  /\ getCDF (redHist (tenPixels 50 3 4 255)) (num_of_Z 0) !! 50%nat
     = Some (S754_infinity false).
Proof. vm_compute. repeat split. Qed.
(** * Further properties *)

(** ** Histogram builder: what a bucket holds *)

Lemma gHist_greens (data : list nat) :
  forall h : Histograms,
    gHist (getHistogram_loop data h)
    = fold_left (fun hist g => increment hist (Some g)) (greens data) (gHist h).
Proof.
  induction data as [|r|r g|r g b|r g b a rest IH] using pixel_ind; intros h;
    try reflexivity.
  cbn [getHistogram_loop greens fold_left]. rewrite IH. reflexivity.
Qed.

Lemma bHist_blues (data : list nat) :
  forall h : Histograms,
    bHist (getHistogram_loop data h)
    = fold_left (fun hist b => increment hist (Some b)) (blues data) (bHist h).
Proof.
  induction data as [|r|r g|r g b|r g b a rest IH] using pixel_ind; intros h;
    try reflexivity.
  cbn [getHistogram_loop blues fold_left]. rewrite IH. reflexivity.
Qed.

Lemma to_uint32_succ (c : Z) : to_uint32 (to_uint32 c + 1) = to_uint32 (c + 1).
Proof. unfold to_uint32. apply Zplus_mod_idemp_l. Qed.

(** Counting the samples [l] into a channel adds, modulo [2^32], the
    occurrences of [v] to bucket [v]. *)
Lemma increments_lookup (l : list nat) (v : nat) :
  forall (hist : list Z) (c : Z),
    hist !! v = Some (to_uint32 c) ->
    fold_left (fun hist s => increment hist (Some s)) l hist !! v
    = Some (to_uint32 (c + occurrences l v)).
Proof.
  unfold occurrences.
  induction l as [|s l IH]; intros hist c Hc.
  - cbn [fold_left count_occ]. rewrite Z.add_0_r. exact Hc.
  - cbn [fold_left count_occ increment].
    destruct (Nat.eq_dec s v) as [->|Hne].
    + rewrite (IH _ (c + 1)).
      * f_equal. f_equal. lia.
      * rewrite list_lookup_alter_eq, Hc. cbn. f_equal. apply to_uint32_succ.
    + apply IH. rewrite list_lookup_alter_ne by exact Hne. exact Hc.
Qed.

Lemma increments_length (l : list nat) :
  forall hist : list Z,
    length (fold_left (fun hist s => increment hist (Some s)) l hist) = length hist.
Proof.
  induction l as [|s l IH]; intros hist; [reflexivity|].
  cbn [fold_left increment]. rewrite IH. apply length_alter.
Qed.

Lemma increments_range (l : list nat) :
  forall hist : list Z,
    Forall (fun c => 0 <= c < 2 ^ 32) hist ->
    Forall (fun c => 0 <= c < 2 ^ 32)
      (fold_left (fun hist s => increment hist (Some s)) l hist).
Proof.
  induction l as [|s l IH]; intros hist Hall; [exact Hall|].
  cbn [fold_left increment]. apply IH.
  rewrite Forall_lookup in *. intros i c Hc.
  destruct (decide (i = s)) as [->|Hne].
  - rewrite list_lookup_alter_eq in Hc.
    destruct (hist !! s) as [c0|]; [|discriminate]. cbn in Hc. injection Hc as <-.
    unfold to_uint32. apply Z.mod_pos_bound. lia.
  - rewrite list_lookup_alter_ne in Hc by auto. eapply Hall. exact Hc.
Qed.

Lemma bucket_occurrences (l : list nat) (v : nat) :
  (v < 256)%nat ->
  fold_left (fun hist s => increment hist (Some s)) l (replicate 256 0) !! v
  = Some (to_uint32 (occurrences l v)).
Proof.
  intros Hv. apply (increments_lookup l v (replicate 256 0) 0).
  rewrite lookup_replicate_2 by exact Hv. reflexivity.
Qed.

Lemma increments_is_histogram (l : list nat) :
  is_histogram (fold_left (fun hist s => increment hist (Some s)) l (replicate 256 0)).
Proof.
  split.
  - rewrite increments_length. apply length_replicate.
  - apply increments_range. apply Forall_replicate. lia.
Qed.

(** X1. Bucket [v] of each channel histogram is the number of pixels whose
    sample of that channel is [v], reduced modulo [2^32] as the
    [Uint32Array] stores it.  This holds for every buffer, truncated or
    not. *)
Theorem getHistogram_counts_values (data : list nat) (v : nat) :
  (v < 256)%nat ->
  rHist (getHistogram data) !! v = Some (to_uint32 (occurrences (reds data) v))
  /\ gHist (getHistogram data) !! v = Some (to_uint32 (occurrences (greens data) v))
  /\ bHist (getHistogram data) !! v = Some (to_uint32 (occurrences (blues data) v)).
Proof.
  intros Hv. unfold getHistogram.
  rewrite rHist_reds, gHist_greens, bHist_blues. cbn [rHist gHist bHist].
  repeat split; apply bucket_occurrences; exact Hv.
Qed.

Lemma getHistogram_counts_values_witness :
  rHist (getHistogram [10; 20; 30; 255; 10; 21; 31; 0; 7; 20]%nat) !! 10%nat
  = Some (to_uint32 (occurrences (reds [10; 20; 30; 255; 10; 21; 31; 0; 7; 20]%nat) 10))
  /\ gHist (getHistogram [10; 20; 30; 255; 10; 21; 31; 0; 7; 20]%nat) !! 10%nat
     = Some (to_uint32 (occurrences (greens [10; 20; 30; 255; 10; 21; 31; 0; 7; 20]%nat) 10))
  /\ bHist (getHistogram [10; 20; 30; 255; 10; 21; 31; 0; 7; 20]%nat) !! 10%nat
     = Some (to_uint32 (occurrences (blues [10; 20; 30; 255; 10; 21; 31; 0; 7; 20]%nat) 10)).
Proof.
  apply (getHistogram_counts_values [10; 20; 30; 255; 10; 21; 31; 0; 7; 20]%nat 10). lia.
Defined.

(** X2. Whatever the buffer, the three arrays [getHistogram] returns are
    histograms: 256 buckets each, every bucket in the range of a
    [Uint32Array]. *)
Theorem getHistogram_is_histogram (data : list nat) :
  is_histogram (rHist (getHistogram data))
  /\ is_histogram (gHist (getHistogram data))
  /\ is_histogram (bHist (getHistogram data)).
Proof.
  unfold getHistogram. rewrite rHist_reds, gHist_greens, bHist_blues.
  cbn [rHist gHist bHist]. repeat split; apply increments_is_histogram.
Qed.

Lemma channels_app (n : nat) :
  forall d1 d2 : list nat,
    length d1 = (4 * n)%nat ->
    reds (d1 ++ d2) = reds d1 ++ reds d2
    /\ greens (d1 ++ d2) = greens d1 ++ greens d2
    /\ blues (d1 ++ d2) = blues d1 ++ blues d2.
Proof.
  induction n as [|n IH]; intros d1 d2 Hlen.
  - destruct d1; [|discriminate]. repeat split.
  - destruct d1 as [|r [|g [|b [|a rest]]]]; simpl in Hlen; try lia.
    destruct (IH rest d2 ltac:(lia)) as (Hr & Hg & Hb).
    change ((r :: g :: b :: a :: rest) ++ d2) with (r :: g :: b :: a :: (rest ++ d2)).
    cbn [reds greens blues]. rewrite Hr, Hg, Hb. repeat split.
Qed.

Lemma occurrences_app (l1 l2 : list nat) (v : nat) :
  occurrences (l1 ++ l2) v = occurrences l1 v + occurrences l2 v.
Proof. unfold occurrences. rewrite count_occ_app. lia. Qed.

Lemma increments_app (l1 l2 : list nat) :
  fold_left (fun hist s => increment hist (Some s)) (l1 ++ l2) (replicate 256 0)
  = addBuckets (fold_left (fun hist s => increment hist (Some s)) l1 (replicate 256 0))
      (fold_left (fun hist s => increment hist (Some s)) l2 (replicate 256 0)).
Proof.
  apply list_eq. intros v. unfold addBuckets. rewrite lookup_zip_with.
  destruct (decide (v < 256)%nat) as [Hv|Hv].
  - rewrite !bucket_occurrences by exact Hv. cbn. f_equal.
    rewrite occurrences_app. unfold to_uint32. apply Zplus_mod.
  - assert (Hnone : forall l,
              fold_left (fun hist s => increment hist (Some s)) l (replicate 256 0) !! v = None).
    { intros l. apply lookup_ge_None_2. rewrite increments_length, length_replicate. lia. }
    rewrite !Hnone. reflexivity.
Qed.

(** X3. The histograms of two buffers laid end to end, the first made of
    whole pixels, are the bucket-wise sums of their histograms. *)
Theorem getHistogram_app (d1 d2 : list nat) (n : nat) :
  length d1 = (4 * n)%nat ->
  getHistogram (d1 ++ d2) = addHistograms (getHistogram d1) (getHistogram d2).
Proof.
  intros Hlen. destruct (channels_app n d1 d2 Hlen) as (Hr & Hg & Hb).
  unfold addHistograms.
  set (h := getHistogram (d1 ++ d2)).
  replace h with {| rHist := rHist h; gHist := gHist h; bHist := bHist h |}
    by (destruct h; reflexivity).
  subst h. unfold getHistogram.
  rewrite !rHist_reds, !gHist_greens, !bHist_blues. cbn [rHist gHist bHist].
  rewrite Hr, Hg, Hb, !increments_app. reflexivity.
Qed.

Lemma getHistogram_app_witness :
  getHistogram ([10; 20; 30; 255; 10; 21; 31; 0] ++ [10; 20; 31; 9; 5])%nat
  = addHistograms (getHistogram [10; 20; 30; 255; 10; 21; 31; 0]%nat)
      (getHistogram [10; 20; 31; 9; 5]%nat).
Proof.
  apply (getHistogram_app [10; 20; 30; 255; 10; 21; 31; 0]%nat [10; 20; 31; 9; 5]%nat 2).
  reflexivity.
Defined.

(** ** Order of floating-point values, continued *)

Lemma SFcompare_swap (x y : spec_float) :
  SFcompare y x = option_map CompOpp (SFcompare x y).
Proof.
  unfold SFcompare.
  destruct x as [sx|sx| |sx mx ex], y as [sy|sy| |sy my ey];
    try destruct sx; try destruct sy; try reflexivity.
  all: change (Pos.compare_cont Eq) with Pos.compare.
  all: rewrite (Z.compare_antisym ex ey), (Pos.compare_antisym mx my).
  all: destruct (ex ?= ey); cbn; try reflexivity.
  all: destruct (mx ?= my)%positive; reflexivity.
Qed.

(** Two values that are not [NaN] are comparable. *)
Lemma SFcompare_defined (x y : spec_float) :
  SFleb x x = true -> SFleb y y = true -> exists c, SFcompare x y = Some c.
Proof.
  destruct x as [sx|sx| |sx mx ex], y as [sy|sy| |sy my ey];
    try discriminate; intros _ _; eexists; reflexivity.
Qed.

Lemma SFleb_total (x y : spec_float) :
  SFleb x x = true -> SFleb y y = true -> SFltb y x = false -> SFleb x y = true.
Proof.
  intros Hx Hy. destruct (SFcompare_defined x y Hx Hy) as [c Hc].
  unfold SFleb, SFltb. rewrite (SFcompare_swap x y), Hc.
  destruct c; cbn; congruence.
Qed.

Lemma SFleb_not_SFltb_SFeqb (x y : spec_float) :
  SFleb x y = true -> SFltb x y = false -> SFeqb x y = true.
Proof. unfold SFleb, SFltb, SFeqb. destruct (SFcompare x y) as [[]|]; congruence. Qed.

Lemma SFltb_irrefl (x : spec_float) : SFltb x x = false.
Proof.
  unfold SFltb, SFcompare. destruct x as [s|s| |s m e]; try destruct s; try reflexivity.
  all: change (Pos.compare_cont Eq) with Pos.compare.
  all: rewrite Z.compare_refl, Pos.compare_refl; reflexivity.
Qed.

Lemma SFltb_SFleb (x y : spec_float) : SFltb x y = true -> SFleb x y = true.
Proof. unfold SFleb, SFltb. destruct (SFcompare x y) as [[]|]; congruence. Qed.

Lemma SFleb_SFltb_trans (x y z : spec_float) :
  SFleb x y = true -> SFltb y z = true -> SFltb x z = true.
Proof.
  unfold SFltb, SFleb, SFcompare.
  destruct x as [sx|sx| |sx mx ex], y as [sy|sy| |sy my ey], z as [sz|sz| |sz mz ez];
    try destruct sx; try destruct sy; try destruct sz; try discriminate; try reflexivity.
  all: change (Pos.compare_cont Eq) with Pos.compare.
  all: destruct (Z.compare_spec ex ey), (Z.compare_spec ey ez), (Z.compare_spec ex ez);
    try discriminate; try reflexivity; try lia; subst.
  all: destruct (Pos.compare_spec mx my), (Pos.compare_spec my mz), (Pos.compare_spec mx mz);
    simpl; try discriminate; try reflexivity; try lia.
Qed.

Lemma SFleb_trans (x y z : spec_float) :
  SFleb x y = true -> SFleb y z = true -> SFleb x z = true.
Proof.
  intros Hxy Hyz. destruct (SFltb x y) eqn:Hlt.
  - apply SFltb_SFleb. apply SFltb_SFleb_trans with (y := y); assumption.
  - destruct (SFltb y z) eqn:Hlt'.
    + apply SFltb_SFleb. apply SFleb_SFltb_trans with (y := y); assumption.
    + revert Hxy Hyz Hlt Hlt'. unfold SFltb, SFleb, SFcompare.
      destruct x as [sx|sx| |sx mx ex], y as [sy|sy| |sy my ey], z as [sz|sz| |sz mz ez];
        try destruct sx; try destruct sy; try destruct sz; try discriminate; try reflexivity.
      all: change (Pos.compare_cont Eq) with Pos.compare.
      all: destruct (Z.compare_spec ex ey), (Z.compare_spec ey ez), (Z.compare_spec ex ez);
        try discriminate; try reflexivity; try lia; subst.
      all: destruct (Pos.compare_spec mx my), (Pos.compare_spec my mz), (Pos.compare_spec mx mz);
        simpl; try discriminate; try reflexivity; try lia.
Qed.

(** ** Channel mapper: shape of the result and what it selects *)

Lemma createMapping_is_mapping (sourceCdf refCdf : list spec_float) :
  is_mapping (createMapping sourceCdf refCdf).
Proof.
  split; [apply createMapping_loop_length|].
  rewrite Forall_lookup. intros i v Hv.
  assert (Hi : (i < 256)%nat).
  { apply lookup_lt_Some in Hv.
    unfold createMapping in Hv. rewrite createMapping_loop_length in Hv. exact Hv. }
  rewrite createMapping_lookup in Hv by exact Hi. injection Hv as <-.
  pose proof (cursor_le_255 sourceCdf refCdf (S i)). lia.
Qed.

Lemma nondecreasing_not_nan (cdf : list spec_float) (i : nat) (x : spec_float) :
  nondecreasing cdf -> cdf !! i = Some x -> SFleb x x = true.
Proof. intros Hmono Hx. apply (Hmono i i x x); [lia|exact Hx|exact Hx]. Qed.

Lemma is_cdf_lookup (cdf : list spec_float) (i : nat) :
  is_cdf cdf -> (i < 256)%nat ->
  exists x : spec_float, cdf !! i = Some x /\ SFleb x float32_one = true.
Proof.
  intros (Hmono & _ & Hlast) Hi.
  destruct (lookup_lt_is_Some_2 cdf i) as [x Hx].
  { apply lookup_lt_Some in Hlast. lia. }
  exists x. split; [exact Hx|].
  apply (Hmono i 255%nat x float32_one); [lia|exact Hx|exact Hlast].
Qed.

(** Between two valid CDFs the cursor stops at the first reference value
    whose CDF reaches the source's: the last reference entry is 1 and no
    source entry exceeds 1, so the bound 255 of the cursor is never what
    stops it short. *)
Lemma createMapping_first_reaching (sourceCdf refCdf : list spec_float) (s : nat) :
  is_cdf sourceCdf -> is_cdf refCdf -> (s < 256)%nat ->
  first_reaching sourceCdf refCdf (createMapping sourceCdf refCdf) s.
Proof.
  intros Hsrc Href Hs.
  destruct (is_cdf_lookup sourceCdf s Hsrc Hs) as (x & Hx & Hx1).
  set (k := cursor sourceCdf refCdf (S s)).
  assert (Hk : (k <= 255)%nat) by apply cursor_le_255.
  destruct (is_cdf_lookup refCdf k Href ltac:(lia)) as (y & Hy & _).
  exists k, x, y.
  split; [apply createMapping_lookup; exact Hs|].
  split; [exact Hx|]. split; [exact Hy|]. split.
  - destruct (decide (k = 255%nat)) as [Hlast|Hne].
    + destruct Href as (_ & _ & Hone). rewrite Hlast, Hone in Hy. injection Hy as <-.
      exact Hx1.
    + assert (Hstop : js_lt (refCdf !! k) (sourceCdf !! s) = false).
      { subst k. rewrite cursor_S. apply advance_stop. rewrite <- cursor_S. lia. }
      rewrite Hy, Hx in Hstop. cbn [js_lt] in Hstop.
      apply SFleb_total; [|  |exact Hstop].
      * apply (nondecreasing_not_nan sourceCdf s x); [apply Hsrc|exact Hx].
      * apply (nondecreasing_not_nan refCdf k y); [apply Href|exact Hy].
  - intros j y' Hj Hy'.
    apply (below_cursor_below_source sourceCdf refCdf ltac:(apply Hsrc) s j x y' Hx Hy' Hj).
Qed.

(** X4. For two images as [getImageData] returns them, every channel
    mapping that [processImages] builds sends each value [s] to the first
    reference value whose CDF reaches the source CDF at [s]. *)
Theorem matchMappings_first_reaching (sourcePixels refPixels : ImageData) (s : nat) :
  is_image sourcePixels -> is_image refPixels -> (s < 256)%nat ->
  first_reaching (cdf_r (imageCDFs sourcePixels)) (cdf_r (imageCDFs refPixels))
    (mappings_r (matchMappings sourcePixels refPixels)) s
  /\ first_reaching (cdf_g (imageCDFs sourcePixels)) (cdf_g (imageCDFs refPixels))
       (mappings_g (matchMappings sourcePixels refPixels)) s
  /\ first_reaching (cdf_b (imageCDFs sourcePixels)) (cdf_b (imageCDFs refPixels))
       (mappings_b (matchMappings sourcePixels refPixels)) s.
Proof.
  intros Hsrc Href Hs.
  destruct (imageCDFs_are_cdfs sourcePixels Hsrc) as (Sr & Sg & Sb).
  destruct (imageCDFs_are_cdfs refPixels Href) as (Rr & Rg & Rb).
  unfold matchMappings. cbn [mappings_r mappings_g mappings_b].
  repeat split; apply createMapping_first_reaching; assumption.
Qed.

(** X5. The array [createMapping] returns is a mapping whatever the two
    arrays it is given hold: 256 entries, each at most 255. *)
Theorem createMapping_total (sourceCdf refCdf : list spec_float) :
  length (createMapping sourceCdf refCdf) = 256%nat
  /\ forall (i v : nat), createMapping sourceCdf refCdf !! i = Some v -> (v <= 255)%nat.
Proof.
  destruct (createMapping_is_mapping sourceCdf refCdf) as [Hlen Hall].
  split; [exact Hlen|]. intros i v Hv.
  rewrite Forall_lookup in Hall. specialize (Hall i v Hv). lia.
Qed.

(** ** Grading applicator: shape of the result *)

Lemma to_uint8_clamp_lt (x : spec_float) : (to_uint8_clamp x < 256)%nat.
Proof.
  unfold to_uint8_clamp.
  destruct x as [s|s| |s m e]; try destruct s; lia.
Qed.

Lemma blend_lt (mapping : list nat) (intensity : spec_float) (src : nat) :
  (blend mapping intensity src < 256)%nat.
Proof. apply to_uint8_clamp_lt. Qed.

Lemma applyMappings_length (mappings : Mappings) (intensity : spec_float) (data : list nat) :
  length (applyMappings mappings intensity data) = length data.
Proof.
  induction data as [|r|r g|r g b|r g b a rest IH] using pixel_ind; try reflexivity.
  cbn [applyMappings length]. rewrite IH. reflexivity.
Qed.

Lemma applyMappings_bytes (mappings : Mappings) (intensity : spec_float) (data : list nat) :
  Forall (fun v => (v < 256)%nat) (applyMappings mappings intensity data).
Proof.
  induction data as [|r|r g|r g b|r g b a rest IH] using pixel_ind;
    cbn [applyMappings]; repeat (apply Forall_cons; split);
    try apply blend_lt; try apply Forall_nil; try lia; exact IH.
Qed.

Lemma applyMappings_alpha (mappings : Mappings) (intensity : spec_float) (p : nat) :
  forall data : list nat,
    (4 * p + 3 < length data)%nat ->
    applyMappings mappings intensity data !! (4 * p + 3)%nat = Some 255%nat.
Proof.
  induction p as [|p IH]; intros data Hlen.
  - destruct data as [|r [|g [|b [|a rest]]]]; simpl in Hlen; try lia. reflexivity.
  - destruct data as [|r [|g [|b [|a rest]]]]; simpl in Hlen; try lia.
    replace (4 * S p + 3)%nat with (S (S (S (S (4 * p + 3))))) by lia.
    cbn [applyMappings]. apply (IH rest). lia.
Qed.

(** X6. At every intensity, [NaN] and the infinities included, and for every
    triple of mappings, the graded buffer has the length of the source
    buffer, holds byte samples only, and is opaque: the alpha sample of every
    whole pixel is 255. *)
Theorem applyMappings_shape (mappings : Mappings) (intensity : spec_float) (data : list nat) :
  length (applyMappings mappings intensity data) = length data
  /\ Forall (fun v => (v < 256)%nat) (applyMappings mappings intensity data)
  /\ forall p : nat,
       (4 * p + 3 < length data)%nat ->
       applyMappings mappings intensity data !! (4 * p + 3)%nat = Some 255%nat.
Proof.
  split; [apply applyMappings_length|].
  split; [apply applyMappings_bytes|].
  intros p. apply applyMappings_alpha.
Qed.

(** ** Grading applicator: values a mapping leaves in place *)

Lemma SFmul_zero_finite (s : bool) (intensity : spec_float) :
  finite intensity = true ->
  exists s' : bool, SFmul 53 1024 (S754_zero s) intensity = S754_zero s'.
Proof.
  destruct intensity as [si|si| |si mi ei]; try discriminate; intros _; eexists; reflexivity.
Qed.

(** Where the mapping sends a value to itself, the blend returns the
    sample at every finite intensity: [(s - s) * intensity] is a zero. *)
Lemma blend_fixed (mapping : list nat) (intensity : spec_float) (src : nat) :
  mapping !! src = Some src -> (src < 256)%nat -> finite intensity = true ->
  blend mapping intensity src = src.
Proof.
  intros Hfix Hsrc Hfin. unfold blend. rewrite Hfix.
  change (to_number (Z.of_nat <$> Some src)) with (num_of_nat src).
  unfold mix, num_of_nat. rewrite SFsub_integers by lia.
  rewrite Z.sub_diag, num_of_Z_0.
  destruct (SFmul_zero_finite false intensity Hfin) as [s' ->].
  rewrite SFadd_zero by lia. apply to_uint8_clamp_byte. exact Hsrc.
Qed.

Lemma applyMappings_fixed (mappings : Mappings) (intensity : spec_float) (data : list nat) :
  finite intensity = true ->
  Forall (fun v => (v < 256)%nat) data ->
  (forall r, In r (reds data) -> mappings_r mappings !! r = Some r) ->
  (forall g, In g (greens data) -> mappings_g mappings !! g = Some g) ->
  (forall b, In b (blues data) -> mappings_b mappings !! b = Some b) ->
  applyMappings mappings intensity data = set_alpha 255 data.
Proof.
  intros Hfin.
  induction data as [|r|r g|r g b|r g b a rest IH] using pixel_ind;
    intros Hbytes Hr Hg Hb; bytes Hbytes; cbn [applyMappings set_alpha];
    cbn [reds greens blues] in Hr, Hg, Hb;
    rewrite ?blend_fixed by (try assumption; auto using in_eq);
    try reflexivity.
  rewrite IH; [reflexivity|assumption| | |]; auto using in_cons.
Qed.

Lemma byte_in (l : list nat) (v : nat) :
  Forall (fun v => (v < 256)%nat) l -> In v l -> (v < 256)%nat.
Proof. rewrite Forall_forall. intros Hall Hin. apply Hall, list_elem_of_In, Hin. Qed.

(** ** Channel mapper: an array matched against itself *)

Section SelfMatch.
Variable cdf : list spec_float.
Hypothesis cdf_nondecreasing : nondecreasing cdf.
Hypothesis cdf_length : length cdf = 256%nat.

(** Matched against itself, a CDF sends [v] to the first value of the
    plateau [v] lies on. *)
Lemma cursor_self (v : nat) (x : spec_float) :
  (v < 256)%nat -> cdf !! v = Some x ->
  (cursor cdf cdf (S v) <= v)%nat
  /\ exists y : spec_float, cdf !! cursor cdf cdf (S v) = Some y /\ SFeqb y x = true.
Proof.
  intros Hv Hx. set (k := cursor cdf cdf (S v)).
  assert (Hkv : (k <= v)%nat).
  { destruct (decide (k <= v)%nat) as [|Hgt]; [assumption|exfalso].
    pose proof (below_cursor_below_source cdf cdf cdf_nondecreasing v v x x Hx Hx
                  ltac:(fold k; lia)) as Hlt.
    rewrite SFltb_irrefl in Hlt. discriminate Hlt. }
  split; [exact Hkv|].
  destruct (lookup_lt_is_Some_2 cdf k) as [y Hy]; [lia|].
  exists y. split; [exact Hy|].
  apply SFleb_not_SFltb_SFeqb.
  - apply (cdf_nondecreasing k v y x Hkv Hy Hx).
  - destruct (decide (k = v)) as [Heq|Hne].
    + rewrite Heq, Hx in Hy. injection Hy as <-. apply SFltb_irrefl.
    + assert (Hstop : js_lt (cdf !! k) (cdf !! v) = false).
      { subst k. rewrite cursor_S. apply advance_stop. rewrite <- cursor_S. lia. }
      rewrite Hy, Hx in Hstop. exact Hstop.
Qed.

(** A value at which the CDF rises above every earlier entry is sent to
    itself. *)
Lemma cursor_self_fixed (v : nat) (x : spec_float) :
  (v < 256)%nat -> cdf !! v = Some x ->
  (forall (j : nat) (y : spec_float), (j < v)%nat -> cdf !! j = Some y -> SFltb y x = true) ->
  cursor cdf cdf (S v) = v.
Proof.
  intros Hv Hx Hrise.
  destruct (cursor_self v x Hv Hx) as (Hkv & y & Hy & Heq).
  destruct (decide (cursor cdf cdf (S v) = v)) as [|Hne]; [assumption|exfalso].
  pose proof (Hrise (cursor cdf cdf (S v)) y ltac:(lia) Hy) as Hlt.
  rewrite (SFeqb_not_SFltb _ _ Heq) in Hlt. discriminate Hlt.
Qed.
End SelfMatch.


(** ** Rounding between two integers *)

Lemma Zdigits2_le (N k : Z) : 0 < N -> 0 <= k -> N < 2 ^ k -> Zdigits2 N <= k.
Proof.
  intros HN Hk Hlt. destruct (Z.le_gt_cases (Zdigits2 N) k) as [|Hgt]; [assumption|exfalso].
  pose proof (Zdigits2_spec N HN) as [Hlo _].
  assert (2 ^ k <= 2 ^ (Zdigits2 N - 1)) by (apply Z.pow_le_mono_r; lia). lia.
Qed.

(** Rounding a value that lies between two integers below [2^53] gives a
    value between them: every integer of that size is a binary64 number and
    rounding is monotone. *)
Lemma binary_round_aux_within (sx : bool) (N ex lo hi : Z) :
  0 < N -> ex <= 0 -> 0 <= lo -> lo <= hi -> hi < 2 ^ 53 ->
  lo * 2 ^ (- ex) <= N <= hi * 2 ^ (- ex) ->
  magnitude_within sx lo hi (binary_round_aux 53 1024 sx N ex loc_Exact).
Proof.
  intros HN Hex Hlo Hhi H53 [HloN HhiN].
  rewrite binary_round_aux_exact_form, binary_round_aux_rec_of by lia. cbv zeta.
  rewrite Z.div_1_r, Z.mul_1_l.
  pose proof (pow2_pos (- ex) ltac:(lia)) as Pex.
  assert (Hdig : Zdigits2 N + ex <= 53).
  { assert (N < 2 ^ (53 - ex)).
    { replace (53 - ex) with (53 + - ex) by lia. rewrite Z.pow_add_r by lia. nia. }
    pose proof (Zdigits2_le N (53 - ex) HN ltac:(lia) H). lia. }
  set (n1 := Z.max (fexp 53 1024 (Zdigits2 N + ex) - ex) 0).
  assert (Hn1 : 0 <= n1 /\ ex + n1 <= 0) by (unfold n1, fexp, emin; lia).
  set (e1 := ex + n1) in *.
  pose proof (pow2_pos n1 ltac:(lia)) as Pn1.
  pose proof (pow2_pos (- e1) ltac:(lia)) as Pe1.
  assert (Hsplit : 2 ^ (- ex) = 2 ^ (- e1) * 2 ^ n1).
  { rewrite <- Z.pow_add_r by lia. f_equal. lia. }
  set (m1 := rnd N (2 ^ n1)).
  assert (Hm1 : lo * 2 ^ (- e1) <= m1 <= hi * 2 ^ (- e1)).
  { split.
    - rewrite <- (rnd_exact (lo * 2 ^ (- e1)) (2 ^ n1) Pn1).
      apply rnd_mono; try lia; nia.
    - rewrite <- (rnd_exact (hi * 2 ^ (- e1)) (2 ^ n1) Pn1).
      apply rnd_mono; try lia; nia. }
  assert (Hm1pos : 0 <= m1) by nia.
  assert (Hdig1 : Zdigits2 m1 + e1 <= 53).
  { destruct (Z.eq_dec m1 0) as [->|Hnz]; [simpl; lia|].
    assert (m1 < 2 ^ (53 - e1)).
    { replace (53 - e1) with (53 + - e1) by lia. rewrite Z.pow_add_r by lia. nia. }
    pose proof (Zdigits2_le m1 (53 - e1) ltac:(lia) ltac:(lia) H). lia. }
  set (n2 := Z.max (fexp 53 1024 (Zdigits2 m1 + e1) - e1) 0).
  assert (Hn2 : 0 <= n2 /\ e1 + n2 <= 0) by (unfold n2, fexp, emin; lia).
  set (e2 := e1 + n2) in *.
  pose proof (pow2_pos n2 ltac:(lia)) as Pn2.
  pose proof (pow2_pos (- e2) ltac:(lia)) as Pe2.
  assert (Hsplit2 : 2 ^ (- e1) = 2 ^ (- e2) * 2 ^ n2).
  { rewrite <- Z.pow_add_r by lia. f_equal. lia. }
  assert (Hm2 : lo * 2 ^ (- e2) <= m1 / 2 ^ n2 <= hi * 2 ^ (- e2)).
  { split.
    - apply Z.div_le_lower_bound; [lia|]. nia.
    - apply Z.div_le_upper_bound; [lia|]. nia. }
  destruct (m1 / 2 ^ n2) as [|m|m] eqn:Hm.
  - cbn. nia.
  - replace (e2 <=? 1024 - 53) with true by (symmetry; apply Z.leb_le; lia).
    cbn. repeat split; lia.
  - lia.
Qed.

Lemma magnitude_within_weaken (sx : bool) (lo hi lo' hi' : Z) (x : spec_float) :
  lo' <= lo -> hi <= hi' -> magnitude_within sx lo hi x -> magnitude_within sx lo' hi' x.
Proof.
  intros Hlo Hhi. destruct x as [s|s| |s m e]; cbn; try tauto; [lia|].
  intros (Hs & He & Hm). pose proof (pow2_pos (- e) ltac:(lia)). repeat split; try assumption; nia.
Qed.

Lemma shl_align_spec (mx : positive) (ex ex' : Z) :
  snd (shl_align mx ex ex') = Z.min ex ex'
  /\ Zpos (fst (shl_align mx ex ex')) = Zpos mx * 2 ^ (ex - Z.min ex ex').
Proof.
  unfold shl_align. destruct (ex' - ex) as [|d|d] eqn:Hd; cbn [fst snd].
  - split; [lia|]. replace (ex - Z.min ex ex') with 0 by lia. lia.
  - split; [lia|]. replace (ex - Z.min ex ex') with 0 by lia. lia.
  - split; [lia|]. rewrite Pos_iter_xO. f_equal. f_equal. lia.
Qed.

(** [binary_normalize] on a value between two integers. *)
Lemma binary_normalize_within (S ez lo hi : Z) :
  ez <= 0 -> 0 <= lo -> lo <= hi -> hi < 2 ^ 53 ->
  lo * 2 ^ (- ez) <= S <= hi * 2 ^ (- ez) ->
  magnitude_within false lo hi (binary_normalize 53 1024 S ez false).
Proof.
  intros Hez Hlo Hhi H53 [HloS HhiS].
  pose proof (pow2_pos (- ez) ltac:(lia)) as Pez.
  destruct S as [|p|p]; [cbn; nia| |nia].
  unfold binary_normalize, binary_round.
  destruct (shl_align_spec p ez (fexp 53 1024 (Zpos (digits2_pos p) + ez))) as [He Hm].
  destruct (shl_align p ez _) as [mz ez']. cbn [fst snd] in He, Hm.
  assert (Hle : ez' <= ez) by lia.
  pose proof (pow2_pos (ez - ez') ltac:(lia)) as Pd.
  assert (Hsplit : 2 ^ (- ez') = 2 ^ (- ez) * 2 ^ (ez - ez')).
  { rewrite <- Z.pow_add_r by lia. f_equal. lia. }
  apply binary_round_aux_within; try lia.
  rewrite Hm, Hsplit. rewrite <- He. split.
  - rewrite Z.mul_assoc. apply Z.mul_le_mono_nonneg_r; lia.
  - rewrite Z.mul_assoc. apply Z.mul_le_mono_nonneg_r; lia.
Qed.

Lemma num_of_Z_within (s : Z) : 0 <= s < 2 ^ 53 -> magnitude_within false s s (num_of_Z s).
Proof.
  intros Hs. destruct (Z.eq_dec s 0) as [->|Hnz]; [cbn; lia|].
  rewrite (num_of_Z_pos s) by lia. cbn.
  pose proof (mant_bounds s ltac:(lia)) as Hm.
  pose proof (Zdigits2_le_53 s ltac:(lia)) as Hd.
  rewrite Z2Pos.id by lia. unfold expo, mant.
  replace (- (Zdigits2 s - 53)) with (53 - Zdigits2 s) by lia.
  repeat split; lia.
Qed.

Lemma num_of_Z_1 : num_of_Z 1 = S754_finite false 4503599627370496 (-52).
Proof. vm_compute. reflexivity. Qed.

(** The canonical form of an intensity between 0 and 1. *)
Lemma unit_intensity_cases (intensity : spec_float) :
  unit_intensity intensity ->
  (exists s, intensity = S754_zero s)
  \/ exists (m : positive) (e : Z),
       intensity = S754_finite false m e /\ e <= 0 /\ Zpos m <= 2 ^ (- e).
Proof.
  intros (Hvalid & H0 & H1). rewrite num_of_Z_1 in H1.
  destruct intensity as [s|s| |s m e].
  - left. exists s. reflexivity.
  - destruct s; discriminate.
  - discriminate.
  - right. exists m, e. destruct s; [discriminate|]. split; [reflexivity|].
    cbn [valid_binary bounded] in Hvalid. apply andb_prop in Hvalid as [Hcanon _].
    unfold canonical_mantissa in Hcanon. apply Z.eqb_eq in Hcanon.
    change (Zpos (digits2_pos m)) with (Zdigits2 (Zpos m)) in Hcanon.
    assert (Hdig : Zdigits2 (Zpos m) <= 53) by (unfold fexp, emin in Hcanon; lia).
    pose proof (Zdigits2_spec (Zpos m) ltac:(lia)) as [_ Hlt].
    assert (Zpos m < 2 ^ 53).
    { eapply Z.lt_le_trans; [exact Hlt|]. apply Z.pow_le_mono_r; lia. }
    unfold SFleb, SFcompare in H1. change (Pos.compare_cont Eq) with Pos.compare in H1.
    revert H1. destruct (Z.compare_spec e (-52)) as [He|He|He]; intros H1.
    + subst e. split; [lia|]. change (2 ^ (- -52)) with 4503599627370496.
      rewrite Pos2Z.inj_compare in H1.
      revert H1. destruct (Z.compare_spec (Zpos m) 4503599627370496) as [Hm|Hm|Hm];
        intros H1; [lia|lia|discriminate H1].
    + split; [lia|]. apply Z.le_trans with (2 ^ 53); [lia|].
      apply Z.pow_le_mono_r; lia.
    + discriminate H1.
Qed.

(** The product [(matched - src) * intensity] has the sign of the
    difference and at most its magnitude. *)
Lemma SFmul_within (d : Z) (intensity : spec_float) :
  Z.abs d < 2 ^ 53 -> unit_intensity intensity ->
  magnitude_within (d <? 0) 0 (Z.abs d) (SFmul 53 1024 (num_of_Z d) intensity).
Proof.
  intros Hd Hi.
  destruct (unit_intensity_cases intensity Hi) as [[s ->]|(mi & ei & -> & Hei & Hmi)].
  - destruct (Z.eq_dec d 0) as [->|Hnz]; [cbn; lia|].
    rewrite (num_of_Z_nonzero d Hnz Hd). cbn. lia.
  - destruct (Z.eq_dec d 0) as [->|Hnz]; [cbn; lia|].
    rewrite (num_of_Z_nonzero d Hnz Hd).
    pose proof (mant_bounds (Z.abs d) ltac:(lia)) as Hm.
    pose proof (Zdigits2_le_53 (Z.abs d) ltac:(lia)) as Hdig.
    unfold SFmul. rewrite xorb_false_r.
    rewrite Pos2Z.inj_mul, Z2Pos.id by lia.
    pose proof (pow2_pos (- ei) ltac:(lia)) as Pei.
    assert (Hexpo : expo (Z.abs d) <= 0) by (unfold expo; lia).
    pose proof (pow2_pos (- expo (Z.abs d)) ltac:(lia)) as Ped.
    apply binary_round_aux_within; try lia.
    replace (- (expo (Z.abs d) + ei)) with (- expo (Z.abs d) + - ei) by lia.
    rewrite Z.pow_add_r by lia.
    assert (Hmant : mant (Z.abs d) = Z.abs d * 2 ^ (- expo (Z.abs d))).
    { unfold mant, expo. f_equal. f_equal. lia. }
    rewrite Hmant. split; [lia|].
    rewrite Z.mul_assoc. apply Z.mul_le_mono_nonneg_l; [nia|exact Hmi].
Qed.

(** Adding the product to the sample gives a value between the sample and
    the matched value. *)
Lemma SFadd_within (s d : Z) (p : spec_float) :
  0 <= s < 256 -> 0 <= s + d < 256 ->
  magnitude_within (d <? 0) 0 (Z.abs d) p ->
  magnitude_within false (Z.min s (s + d)) (Z.max s (s + d)) (SFadd 53 1024 (num_of_Z s) p).
Proof.
  intros Hs Hm Hp.
  destruct p as [sp|sp| |sp mp ep]; try contradiction.
  - rewrite SFadd_zero by lia.
    apply (magnitude_within_weaken false s s); [lia|lia|]. apply num_of_Z_within. lia.
  - destruct Hp as (-> & Hep & _ & Hmp).
    pose proof (pow2_pos (- ep) ltac:(lia)) as Pep.
    assert (Hd : d <> 0) by nia.
    destruct (Z.eq_dec s 0) as [->|Hnz].
    + rewrite num_of_Z_0. cbn [SFadd].
      assert (Hpos : 0 < d) by lia.
      replace (d <? 0) with false by (symmetry; apply Z.ltb_ge; lia).
      cbn. rewrite Z.min_l, Z.max_r by lia. rewrite Z.abs_eq in Hmp by lia.
      repeat split; lia.
    + pose proof (expo_nonpos s Hnz ltac:(lia)) as Hes.
      pose proof (aligned_mantissa s (Z.min (expo (Z.abs s)) ep) Hnz ltac:(lia) ltac:(lia))
        as Hal.
      rewrite (num_of_Z_nonzero s Hnz) in * by lia.
      replace (s <? 0) with false in * by (symmetry; apply Z.ltb_ge; lia).
      unfold SFadd. cbv zeta.
      set (ez := Z.min (expo (Z.abs s)) ep) in *.
      rewrite Hal.
      rewrite (shl_align_fst mp ep ez) by lia.
      pose proof (pow2_pos (- ez) ltac:(lia)) as Pez.
      pose proof (pow2_pos (ep - ez) ltac:(lia)) as Pd.
      assert (Hsplit : 2 ^ (- ez) = 2 ^ (- ep) * 2 ^ (ep - ez)).
      { rewrite <- Z.pow_add_r by lia. f_equal. lia. }
      assert (Hscaled : Zpos mp * 2 ^ (ep - ez) <= Z.abs d * 2 ^ (- ez)).
      { rewrite Hsplit, Z.mul_assoc. apply Z.mul_le_mono_nonneg_r; lia. }
      assert (Hscaled0 : 0 < Zpos mp * 2 ^ (ep - ez)) by (apply Z.mul_pos_pos; lia).
      apply binary_normalize_within; try lia.
      unfold cond_Zopp. destruct (Z.ltb_spec d 0) as [Hneg|Hpos].
      * rewrite Z.min_r, Z.max_l by lia. rewrite Z.abs_neq in Hscaled by lia. nia.
      * rewrite Z.min_l, Z.max_r by lia. rewrite Z.abs_eq in Hscaled by lia. nia.
Qed.

(** Storing a number between two byte values stores a byte between them. *)
Lemma to_uint8_clamp_within (lo hi : Z) (x : spec_float) :
  0 <= lo -> lo <= hi -> hi <= 255 -> magnitude_within false lo hi x ->
  lo <= Z.of_nat (to_uint8_clamp x) <= hi.
Proof.
  intros Hlo Hle Hhi Hx.
  destruct x as [s|s| |s m e]; try contradiction.
  - cbn in *. lia.
  - destruct Hx as (-> & He & Hm1 & Hm2). unfold to_uint8_clamp.
    destruct e as [|k|k]; try lia.
    change (- Zneg k) with (Zpos k) in *.
    pose proof (pow2_pos (Zpos k) ltac:(lia)) as Pk.
    set (den := 2 ^ Zpos k) in *.
    pose proof (Z.div_mod (Zpos m) den ltac:(lia)) as E.
    pose proof (Z.mod_pos_bound (Zpos m) den Pk) as B.
    set (q := Zpos m / den) in *. set (r := Zpos m mod den) in *.
    assert (Hq : lo <= q <= hi) by nia.
    assert (Hup : 0 < r -> q + 1 <= hi) by nia.
    cbv zeta.
    destruct (Z.compare_spec (2 * r) den) as [Hc|Hc|Hc]; try destruct (Z.even q); lia.
Qed.

(** The blend of one sample stays between the sample and the matched
    value. *)
Lemma mix_between (m s : nat) (intensity : spec_float) :
  (m < 256)%nat -> (s < 256)%nat -> unit_intensity intensity ->
  between s m (mix (num_of_nat m) intensity s).
Proof.
  intros Hm Hs Hi. unfold mix, num_of_nat.
  rewrite SFsub_integers by lia.
  set (d := Z.of_nat m - Z.of_nat s).
  pose proof (SFmul_within d intensity ltac:(lia) Hi) as Hp.
  pose proof (SFadd_within (Z.of_nat s) d _ ltac:(lia) ltac:(lia) Hp) as Hsum.
  apply to_uint8_clamp_within in Hsum; try lia.
  unfold between. lia.
Qed.

Lemma blend_between (mapping : list nat) (intensity : spec_float) (src : nat) :
  is_mapping mapping -> (src < 256)%nat -> unit_intensity intensity ->
  between src (mapped mapping src) (blend mapping intensity src).
Proof.
  intros [Hlen Hbytes] Hsrc Hi. unfold blend, mapped.
  destruct (lookup_lt_is_Some_2 mapping src) as [m Hm]; [lia|].
  rewrite Hm. change (to_number (Z.of_nat <$> Some m)) with (num_of_nat m).
  change (default 0%nat (Some m)) with m.
  apply mix_between; [|exact Hsrc|exact Hi].
  rewrite Forall_forall in Hbytes. apply Hbytes.
  eapply list_elem_of_lookup_2. exact Hm.
Qed.

Lemma between_same (a : nat) : between a a a.
Proof. unfold between. lia. Qed.

(** Sample by sample, the graded buffer lies between the buffer at
    intensity 0 and the buffer at intensity 1. *)
Lemma applyMappings_within (mappings : Mappings) (intensity : spec_float) (data : list nat) :
  is_mapping (mappings_r mappings) -> is_mapping (mappings_g mappings) ->
  is_mapping (mappings_b mappings) ->
  Forall (fun v => (v < 256)%nat) data ->
  unit_intensity intensity ->
  forall k o : nat,
    applyMappings mappings intensity data !! k = Some o ->
    exists a b : nat,
      set_alpha 255 data !! k = Some a
      /\ fullyMapped mappings data !! k = Some b
      /\ between a b o.
Proof.
  intros Hr Hg Hb Hbytes Hi. revert Hbytes.
  induction data as [|r|r g|r g b0|r g b0 a0 rest IH] using pixel_ind;
    intros Hbytes k o Ho; bytes Hbytes;
    cbn [set_alpha fullyMapped applyMappings] in *.
  - destruct k; discriminate.
  - destruct k as [|k]; [|destruct k; discriminate].
    injection Ho as <-. eexists _, _. split; [reflexivity|]. split; [reflexivity|]. apply blend_between; assumption.
  - destruct k as [|[|k]]; try (destruct k; discriminate);
      injection Ho as <-; eexists _, _; (split; [reflexivity|]); (split; [reflexivity|]);
        apply blend_between; assumption.
  - destruct k as [|[|[|k]]]; try (destruct k; discriminate);
      injection Ho as <-; eexists _, _; (split; [reflexivity|]); (split; [reflexivity|]);
        apply blend_between; assumption.
  - destruct k as [|[|[|[|k]]]].
    1-3: injection Ho as <-; eexists _, _; (split; [reflexivity|]); (split; [reflexivity|]);
        apply blend_between; assumption.
    + injection Ho as <-. eexists _, _. split; [reflexivity|]. split; [reflexivity|]. apply between_same.
    + apply (IH Hbytes k o Ho).
Qed.

(** X8. At an intensity between 0 and 1 every sample of the graded buffer
    lies between the sample the buffer has at intensity 0 (the source, alpha
    255) and the one it has at intensity 1 (the fully matched buffer): the
    blend never overshoots either end. *)
Theorem applyMappings_between
    (mappings : Mappings) (intensity : spec_float) (data : list nat) (k a b o : nat) :
  is_mapping (mappings_r mappings) -> is_mapping (mappings_g mappings) ->
  is_mapping (mappings_b mappings) ->
  Forall (fun v => (v < 256)%nat) data ->
  unit_intensity intensity ->
  set_alpha 255 data !! k = Some a ->
  fullyMapped mappings data !! k = Some b ->
  applyMappings mappings intensity data !! k = Some o ->
  between a b o.
Proof.
  intros Hr Hg Hb Hbytes Hi Ha Hfull Ho.
  destruct (applyMappings_within mappings intensity data Hr Hg Hb Hbytes Hi k o Ho)
    as (a' & b' & Ha' & Hb' & Hbetween).
  congruence.
Qed.

(** ** Distinct counts give distinct entries *)

(** Rounding to nearest moves a fraction by at most one half. *)
Lemma rnd_half (N D : Z) : 0 <= N -> 0 < D -> - D <= 2 * (rnd N D * D - N) <= D.
Proof.
  intros HN HD.
  pose proof (Z.div_mod N D ltac:(lia)) as E. pose proof (Z.mod_pos_bound N D HD) as B.
  unfold rnd, round_nearest_even, loc_of.
  set (q := N / D) in *. set (r := N mod D) in *. clearbody q r. subst N.
  destruct (Z.eqb_spec r 0) as [H0|H0]; [nia|].
  destruct (Z.compare_spec (2 * r) D) as [Hc|Hc|Hc]; try destruct (Z.even q); nia.
Qed.

Lemma Zdigits2_mono (c t : Z) : 0 < c -> c <= t -> Zdigits2 c <= Zdigits2 t.
Proof.
  intros Hc Hle. rewrite !Zdigits2_log2 by lia.
  pose proof (Z.log2_le_mono c t Hle). lia.
Qed.

Lemma pow2_le_inv (a b : Z) : 0 <= a -> 0 <= b -> 2 ^ a <= 2 ^ b -> a <= b.
Proof. intros Ha Hb Hle. apply (Z.pow_le_mono_r_iff 2); lia. Qed.

(** The binary64 quotient [c / t] of two integers with [c <= t]: it is at
    most 1 and within half a unit of its last digit of the fraction. *)
Lemma div64_error (c t : Z) :
  0 < c -> c <= t -> t < 2 ^ 53 ->
  2 ^ 52 <= fst (div64 c t) < 2 ^ 53
  /\ - (53 + Zdigits2 t) <= snd (div64 c t) <= -52
  /\ - t <= 2 * (fst (div64 c t) * t - c * 2 ^ (- snd (div64 c t))) <= t
  /\ (snd (div64 c t) = -52 -> fst (div64 c t) = 2 ^ 52).
Proof.
  intros Hc Hle Ht.
  destruct (SFdiv_num_of_Z c t ltac:(lia) ltac:(lia)) as [_ Hfl].
  pose proof (rnd_bounds (quot_num c) (quot_den c t)) as R.
  pose proof (quot_digits c t ltac:(lia) ltac:(lia)) as [Hdq _].
  pose proof (Zdigits2_le_53 c ltac:(lia)) as Hdc.
  pose proof (Zdigits2_le_53 t ltac:(lia)) as Hdt.
  pose proof (Zdigits2_mono c t Hc Hle) as Hdct.
  set (dq := Zdigits2 (quot_num c / mant t)) in *.
  set (a := 106 + Zdigits2 t - Zdigits2 c - dq).
  assert (Ha : 52 <= a <= 52 + Zdigits2 t) by (unfold a; lia).
  assert (Hqe : quot_exp c t = - a) by (unfold quot_exp, expo, a; fold dq; lia).
  pose proof (pow2_pos (dq - Zdigits2 t) ltac:(lia)) as HP.
  pose proof (pow2_pos a ltac:(lia)) as HA.
  assert (HN : quot_num c = c * 2 ^ a * 2 ^ (dq - Zdigits2 t)).
  { unfold quot_num, mant. rewrite <- !Z.mul_assoc, <- !Z.pow_add_r by lia.
    f_equal. f_equal. unfold a. lia. }
  assert (HD : quot_den c t = t * 2 ^ (dq - Zdigits2 t)).
  { unfold quot_den. fold dq. unfold mant.
    rewrite <- !Z.mul_assoc, <- !Z.pow_add_r by lia. f_equal. f_equal. lia. }
  pose proof (rnd_half (quot_num c) (quot_den c t)
                ltac:(rewrite HN; nia) ltac:(rewrite HD; nia)) as Hhalf.
  unfold div64. rewrite Hqe.
  set (r := rnd (quot_num c) (quot_den c t)) in *.
  rewrite HN, HD in Hhalf. clearbody r.
  set (A := 2 ^ a) in *. set (P := 2 ^ (dq - Zdigits2 t)) in *.
  assert (Herr : - t <= 2 * (r * t - c * A) <= t).
  { clear - Hhalf HP Hc Ht Hle. clearbody A P. nia. }
  assert (HrA : r <= A) by (clear - Herr Hc Hle HA; nia).
  assert (HA52 : A = 2 ^ 52 -> a = 52).
  { intros HAe. apply Z.le_antisymm; [|lia].
    apply pow2_le_inv; lia. }
  unfold carry. destruct (Z.eqb_spec r (2 ^ 53)) as [Hr|Hr]; cbn [fst snd].
  - assert (53 <= a).
    { apply pow2_le_inv; lia. }
    assert (HA2 : A = 2 * 2 ^ (a - 1)).
    { unfold A. replace a with (Z.succ (a - 1)) at 1 by lia. apply Z.pow_succ_r. lia. }
    replace (- (- a + 1)) with (a - 1) by lia.
    change (2 ^ (53 - 1)) with (2 ^ 52).
    split; [lia|]. split; [lia|]. split; [|reflexivity].
    subst r. change (2 ^ 53) with (2 * 2 ^ 52) in Herr. lia.
  - replace (- - a) with a by lia. fold A.
    split; [lia|]. split; [lia|]. split; [exact Herr|].
    intros Hae. assert (a = 52) by lia.
    assert (A = 2 ^ 52) by (unfold A; f_equal; assumption). lia.
Qed.

Lemma scale_bound (z q k : Z) : 1 <= q -> 0 <= k -> - k <= 2 * (z * q) <= k -> - k <= z <= k.
Proof. intros Hq Hk H. nia. Qed.

(** The binary32 entry for [c] of [t] pixels, [t] below [2^24], is within
    [2^-25 + 2^-54] of [c / t]: half a unit of the last binary32 digit of a
    fraction plus half a unit of the last binary64 digit. *)
Lemma entry32_error (c t : Z) :
  0 < c -> c <= t -> t < 2 ^ 24 ->
  0 <= snd (entry32 c t) + 54
  /\ - (t * (2 ^ 29 + 1))
     <= fst (entry32 c t) * 2 ^ (snd (entry32 c t) + 54) * t - c * 2 ^ 54
     <= t * (2 ^ 29 + 1).
Proof.
  intros Hc Hle Ht.
  destruct (div64_error c t Hc Hle ltac:(lia)) as (Hm & He & Herr & Hone).
  pose proof (Zdigits2_le t 24 ltac:(lia) ltac:(lia) Ht) as Hdt.
  unfold entry32, round32.
  set (m := fst (div64 c t)) in *. set (e := snd (div64 c t)) in *. clearbody m e.
  pose proof (rnd_half m (2 ^ 29) ltac:(lia) ltac:(lia)) as Hhalf.
  pose proof (rnd_bounds m (2 ^ 29)) as Hr.
  assert (Hfl : 2 ^ 23 <= m / 2 ^ 29 < 2 ^ 24).
  { split; [apply Z.div_le_lower_bound; lia|apply Z.div_lt_upper_bound; lia]. }
  set (r := rnd m (2 ^ 29)) in *.
  set (b := - e). assert (Hb : 52 <= b <= 77) by (unfold b; lia).
  assert (He' : e = - b) by (unfold b; lia).
  assert (HG : snd (carry 24 r (e + 29)) + 54 = snd (carry 24 r (e + 29)) + 54
               /\ 0 <= snd (carry 24 r (e + 29)) + 54
               /\ fst (carry 24 r (e + 29)) * 2 ^ (snd (carry 24 r (e + 29)) + 54)
                  = r * 2 ^ (83 - b)).
  { split; [reflexivity|]. unfold carry.
    destruct (Z.eqb_spec r (2 ^ 24)) as [Hr24|Hr24]; cbn [fst snd].
    - split; [lia|]. rewrite Hr24.
      replace (e + 29 + 1 + 54) with (Z.succ (83 - b)) by lia.
      rewrite Z.pow_succ_r by lia. change (2 ^ (24 - 1)) with (2 ^ 23).
      change (2 ^ 24) with (2 * 2 ^ 23). ring.
    - split; [lia|]. f_equal. f_equal. lia. }
  destruct HG as (_ & HE & HG). split; [exact HE|]. rewrite HG.
  clear HG. clearbody r b. subst e.
  replace (- - b) with b in * by lia.
  assert (Hprod : - (2 ^ 29 * t) <= 2 * (r * 2 ^ 29 * t - m * t) <= 2 ^ 29 * t).
  { clear - Hhalf Hc Hle. nia. }
  destruct (Z.le_gt_cases 55 b) as [Hbig|Hsmall].
  - set (q := 2 ^ (b - 54)).
    assert (Hq : 1 <= q) by (pose proof (pow2_pos (b - 54) ltac:(lia)); unfold q; lia).
    assert (Hq29 : 2 ^ (83 - b) * q = 2 ^ 29).
    { unfold q. rewrite <- Z.pow_add_r by lia. f_equal. lia. }
    assert (Hqb : 2 ^ b = 2 ^ 54 * q).
    { unfold q. rewrite <- Z.pow_add_r by lia. f_equal. lia. }
    rewrite Hqb in Herr.
    apply (scale_bound _ q); [exact Hq|lia|].
    replace ((r * 2 ^ (83 - b) * t - c * 2 ^ 54) * q)
      with (r * (2 ^ (83 - b) * q) * t - c * (2 ^ 54 * q)) by ring.
    rewrite Hq29. clearbody q. lia.
  - assert (Hcases : b = 52 \/ b = 53 \/ b = 54) by lia.
    destruct Hcases as [->|[->| ->]].
    + specialize (Hone eq_refl). subst m.
      assert (Hr23 : r = 2 ^ 23) by lia. subst r.
      change (2 ^ (83 - 52)) with (2 ^ 31). lia.
    + change (2 ^ (83 - 53)) with (2 ^ 30). lia.
    + change (2 ^ (83 - 54)) with (2 ^ 29). lia.
Qed.

Lemma entry32_injective (c c' t : Z) :
  0 < c -> c < c' -> c' <= t -> t < 2 ^ 24 -> entry32 c t <> entry32 c' t.
Proof.
  intros Hc Hlt Hle Ht Heq.
  destruct (entry32_error c t Hc ltac:(lia) Ht) as [_ H1].
  destruct (entry32_error c' t ltac:(lia) Hle Ht) as [_ H2].
  rewrite <- Heq in H2.
  set (G := fst (entry32 c t) * 2 ^ (snd (entry32 c t) + 54)) in *. clearbody G.
  lia.
Qed.

Lemma lexlt_SFltb (m e m' e' : Z) :
  0 < m -> 0 < m' -> lexle (m, e) (m', e') -> (m, e) <> (m', e') ->
  SFltb (S754_finite false (Z.to_pos m) e) (S754_finite false (Z.to_pos m') e') = true.
Proof.
  intros Hm Hm' Hle Hne. unfold SFltb, SFcompare, lexle in *. simpl in Hle.
  change (Pos.compare_cont Eq) with Pos.compare.
  destruct (Z.compare_spec e e') as [He|He|He]; try lia; try reflexivity.
  destruct (Pos.compare_spec (Z.to_pos m) (Z.to_pos m')) as [Hc|Hc|Hc]; try reflexivity.
  - exfalso. apply Hne. f_equal; lia.
  - lia.
Qed.

Lemma cdf_entry_zero (t : Z) : 0 < t < 2 ^ 53 -> cdf_entry 0 t = S754_zero false.
Proof.
  intros Ht. unfold cdf_entry. rewrite num_of_Z_0, (num_of_Z_pos t Ht). reflexivity.
Qed.

(** With fewer than [2^24] pixels, a larger count gives a larger entry:
    binary32 keeps the fractions [c / t] apart. *)
Lemma cdf_entry_strict (c c' t : Z) :
  0 <= c -> c < c' -> c' <= t -> t < 2 ^ 24 ->
  SFltb (cdf_entry c t) (cdf_entry c' t) = true.
Proof.
  intros Hc Hlt Hle Ht.
  destruct (cdf_entry_pos c' t ltac:(lia) ltac:(lia)) as [E' P'].
  destruct (Z.eq_dec c 0) as [->|Hc0].
  - rewrite E', cdf_entry_zero by lia. reflexivity.
  - destruct (cdf_entry_pos c t ltac:(lia) ltac:(lia)) as [E P].
    rewrite E, E'.
    apply lexlt_SFltb; try assumption.
    + rewrite <- !surjective_pairing. unfold entry32.
      destruct (div64_bounds c t ltac:(lia) ltac:(lia)) as [B _].
      destruct (div64_bounds c' t ltac:(lia) ltac:(lia)) as [B' _].
      apply round32_mono; try assumption.
      rewrite <- !surjective_pairing. apply div64_mono; lia.
    + rewrite <- !surjective_pairing. apply entry32_injective; lia.
Qed.

(** The entry of a non-empty bucket is above every earlier entry. *)
Lemma getCDF_rises (hist : list Z) (t : Z) (i : nat) (n : Z) :
  is_histogram hist -> bucket_sum hist = t -> 0 < t < 2 ^ 24 ->
  hist !! i = Some n -> 0 < n ->
  getCDF hist (num_of_Z t) !! i = Some (cdf_entry (prefix hist (S i)) t)
  /\ 0 < prefix hist (S i) <= t
  /\ forall (j : nat) (x : spec_float),
       (j < i)%nat -> getCDF hist (num_of_Z t) !! j = Some x ->
       SFltb x (cdf_entry (prefix hist (S i)) t) = true.
Proof.
  intros Hh Hsum Ht Hn Hpos.
  assert (Hi : (i < 256)%nat).
  { apply lookup_lt_Some in Hn. destruct Hh as [Hlen _]. lia. }
  pose proof (prefix_S hist i n Hn) as HS.
  assert (Hall : forall k, (k <= 256)%nat -> 0 <= prefix hist k <= t).
  { intros k Hk. destruct Hh as [Hlen Hrange].
    pose proof (prefix_bounds hist k Hrange).
    pose proof (prefix_mono hist k 256 Hrange Hk) as Hmono.
    rewrite (prefix_all hist 256) in Hmono by lia. lia. }
  pose proof (Hall i ltac:(lia)) as Hpi. pose proof (Hall (S i) ltac:(lia)) as HpS.
  split; [apply (getCDF_lookup hist _ Hh); exact Hi|]. split; [lia|].
  intros j x Hj Hx. rewrite (getCDF_lookup hist _ Hh) in Hx by lia. injection Hx as <-.
  apply cdf_entry_strict; try lia.
  - apply (Hall (S j)). lia.
  - destruct Hh as [_ Hrange]. pose proof (prefix_mono hist (S j) i Hrange ltac:(lia)). lia.
Qed.

(** X9. For an image of fewer than [2^24] pixels the CDF rises strictly
    at every value that occurs: the entry of a non-empty bucket is above 0
    and above every earlier entry. *)
Theorem getCDF_strict (hist : list Z) (t : Z) (i : nat) (n : Z) :
  is_histogram hist -> bucket_sum hist = t -> 0 < t < 2 ^ 24 ->
  hist !! i = Some n -> 0 < n ->
  exists y : spec_float,
    getCDF hist (num_of_Z t) !! i = Some y
    /\ SFltb (S754_zero false) y = true
    /\ forall (j : nat) (x : spec_float),
         (j < i)%nat -> getCDF hist (num_of_Z t) !! j = Some x -> SFltb x y = true.
Proof.
  intros Hh Hsum Ht Hn Hpos.
  destruct (getCDF_rises hist t i n Hh Hsum Ht Hn Hpos) as (Hy & Hp & Hrise).
  exists (cdf_entry (prefix hist (S i)) t).
  split; [exact Hy|]. split; [|exact Hrise].
  rewrite <- (cdf_entry_zero t) by lia. apply cdf_entry_strict; lia.
Qed.

(** Above [2^24] pixels two counts can share an entry: [2^25 - 1] of
    [2^25] pixels is stored as 1. *)
Example cdf_entry_merge : cdf_entry 33554431 33554432 = float32_one.
Proof. vm_compute. reflexivity. Qed.

(** ** An image graded against itself *)

Lemma channels_length (data : list nat) :
  (length (reds data) <= length data)%nat
  /\ (length (greens data) <= length data)%nat
  /\ (length (blues data) <= length data)%nat.
Proof.
  induction data as [|r|r g|r g b|r g b a rest IH] using pixel_ind;
    cbn [reds greens blues length]; lia.
Qed.

Lemma occurrences_In (l : list nat) (v : nat) :
  In v l -> 0 < occurrences l v <= Z.of_nat (length l).
Proof.
  intros Hin. unfold occurrences.
  pose proof (proj1 (count_occ_In Nat.eq_dec l v) Hin).
  pose proof (count_occ_bound Nat.eq_dec v l). lia.
Qed.

(** A value that occurs in a channel is sent to itself when the CDF of the
    channel is matched against itself. *)
Lemma channel_self_fixed (l : list nat) (t : Z) (v : nat) :
  let hist := fold_left (fun hist s => increment hist (Some s)) l (replicate 256 0) in
  bucket_sum hist = t -> 0 < t < 2 ^ 24 -> Z.of_nat (length l) < 2 ^ 32 ->
  In v l -> (v < 256)%nat ->
  createMapping (getCDF hist (num_of_Z t)) (getCDF hist (num_of_Z t)) !! v = Some v.
Proof.
  intros hist Hsum Ht Hlen Hin Hv.
  pose proof (increments_is_histogram l) as Hh. fold hist in Hh.
  pose proof (bucket_occurrences l v Hv) as Hbucket. fold hist in Hbucket.
  pose proof (occurrences_In l v Hin) as Hocc.
  unfold to_uint32 in Hbucket. rewrite Z.mod_small in Hbucket by lia.
  destruct (getCDF_rises hist t v _ Hh Hsum Ht Hbucket ltac:(lia)) as (Hy & _ & Hrise).
  rewrite createMapping_lookup by exact Hv. f_equal.
  apply (cursor_self_fixed _ (getCDF_nondecreasing hist t Hh ltac:(lia))
           (getCDF_length hist _) v _ Hv Hy Hrise).
Qed.

Lemma channels_bytes (data : list nat) :
  Forall (fun v => (v < 256)%nat) data ->
  Forall (fun v => (v < 256)%nat) (reds data)
  /\ Forall (fun v => (v < 256)%nat) (greens data)
  /\ Forall (fun v => (v < 256)%nat) (blues data).
Proof.
  induction data as [|r|r g|r g b|r g b a rest IH] using pixel_ind; intros Hbytes;
    bytes Hbytes; cbn [reds greens blues]; try (destruct (IH Hbytes) as (Ir & Ig & Ib));
    repeat split;
    repeat first [assumption | apply Forall_nil; exact I | apply Forall_cons; split].
Qed.

(** X10. An image of fewer than [2^24] pixels graded against itself comes
    back unchanged at every finite intensity, but for the alpha samples set
    to 255: every value that occurs in a channel is mapped to itself. *)
Theorem processImages_self (pixels : ImageData) (intensity : spec_float) :
  is_image pixels -> Z.of_nat (width pixels * height pixels) < 2 ^ 24 ->
  finite intensity = true ->
  processImages pixels pixels intensity = set_alpha 255 (data pixels).
Proof.
  intros (Hlen & Hbytes & Hpos & Hsmall) Hfew Hfin.
  set (n := (width pixels * height pixels)%nat) in *.
  destruct (getHistogram_loop_holds n (data pixels)
              {| rHist := replicate 256 0; gHist := replicate 256 0; bHist := replicate 256 0 |}
              0 0 0 Hlen Hbytes holds_replicate holds_replicate holds_replicate)
    as ((_ & _ & Hr) & (_ & _ & Hg) & (_ & _ & Hb)); try lia.
  rewrite Z.add_0_l in Hr, Hg, Hb.
  fold (getHistogram (data pixels)) in Hr, Hg, Hb.
  destruct (channels_length (data pixels)) as (Lr & Lg & Lb).
  destruct (channels_bytes (data pixels) Hbytes) as (Br & Bg & Bb).
  unfold processImages. apply applyMappings_fixed; try assumption.
  all: unfold matchMappings, imageCDFs; cbn [mappings_r mappings_g mappings_b cdf_r cdf_g cdf_b];
    fold n; rewrite (total_exact _ _ Hpos) by (fold n; lia); fold n.
  - intros r Hin. revert Hr. unfold getHistogram. rewrite rHist_reds. cbn [rHist]. intros Hr.
    apply (channel_self_fixed (reds (data pixels)) (Z.of_nat n) r Hr); try lia; try assumption.
    apply (byte_in (reds (data pixels))); assumption.
  - intros g Hin. revert Hg. unfold getHistogram. rewrite gHist_greens. cbn [gHist]. intros Hg.
    apply (channel_self_fixed (greens (data pixels)) (Z.of_nat n) g Hg); try lia; try assumption.
    apply (byte_in (greens (data pixels))); assumption.
  - intros b Hin. revert Hb. unfold getHistogram. rewrite bHist_blues. cbn [bHist]. intros Hb.
    apply (channel_self_fixed (blues (data pixels)) (Z.of_nat n) b Hb); try lia; try assumption.
    apply (byte_in (blues (data pixels))); assumption.
Qed.

(** ** The statistics of an image *)

(** X11. For an image as [getImageData] returns it, each of the three CDFs
    that [processImages] computes is a valid CDF of 256 entries, every entry
    between 0 and 1: the histograms sum to [width * height], the total the
    CDFs are normalized by. *)
Theorem imageCDFs_valid (pixels : ImageData) :
  is_image pixels ->
  forall cdf : list spec_float,
    cdf = cdf_r (imageCDFs pixels) \/ cdf = cdf_g (imageCDFs pixels)
    \/ cdf = cdf_b (imageCDFs pixels) ->
    length cdf = 256%nat
    /\ is_cdf cdf
    /\ forall (i : nat) (x : spec_float),
         cdf !! i = Some x ->
         SFleb (S754_zero false) x = true /\ SFleb x float32_one = true.
Proof.
  intros Himg cdf Hcdf.
  destruct (imageCDFs_are_cdfs pixels Himg) as (Hr & Hg & Hb).
  assert (Hlen : length cdf = 256%nat).
  { destruct Hcdf as [->|[->| ->]]; apply getCDF_length. }
  assert (Hvalid : is_cdf cdf) by (destruct Hcdf as [->|[->| ->]]; assumption).
  split; [exact Hlen|]. split; [exact Hvalid|].
  intros i x Hx.
  assert (Hi : (i < 256)%nat) by (apply lookup_lt_Some in Hx; lia).
  destruct (is_cdf_lookup cdf i Hvalid Hi) as (x' & Hx' & Hle1).
  rewrite Hx in Hx'. injection Hx' as <-. split; [|exact Hle1].
  destruct Hvalid as (Hmono & (x0 & Hx0 & H0) & _).
  apply SFleb_trans with (y := x0); [exact H0|].
  apply (Hmono 0%nat i x0 x); [lia|exact Hx0|exact Hx].
Qed.

(** ** Images of one colour *)

Lemma occurrences_replicate (n v i : nat) :
  occurrences (replicate n v) i = if (i =? v)%nat then Z.of_nat n else 0.
Proof.
  unfold occurrences. induction n as [|n IH].
  - cbn. destruct (i =? v)%nat; reflexivity.
  - cbn [replicate count_occ].
    destruct (Nat.eq_dec v i) as [->|Hne].
    + rewrite Nat.eqb_refl in *. lia.
    + rewrite (proj2 (Nat.eqb_neq i v)) in * by congruence. exact IH.
Qed.

(** The running sum of a histogram whose counts are all in bucket [v]. *)
Lemma uniform_prefix (hist : list Z) (v : nat) (n : Z) (k : nat) :
  (forall i, (i < 256)%nat -> hist !! i = Some (if (i =? v)%nat then n else 0)) ->
  (k <= 256)%nat -> prefix hist k = if (v <? k)%nat then n else 0.
Proof.
  intros Hhist. induction k as [|k IH]; intros Hk.
  - reflexivity.
  - rewrite (prefix_S hist k _ (Hhist k ltac:(lia))), IH by lia.
    destruct (Nat.eqb_spec k v) as [->|Hne].
    + rewrite (proj2 (Nat.ltb_ge v v)) by lia. rewrite (proj2 (Nat.ltb_lt v (S v))) by lia. lia.
    + destruct (Nat.ltb_spec v k), (Nat.ltb_spec v (S k)); lia.
Qed.

(** The CDF of a channel whose [n] samples all have the value [v] is a
    step: 0 below [v], 1 from [v] on. *)
Lemma uniform_cdf (n v : nat) :
  (0 < n)%nat -> Z.of_nat n < 2 ^ 32 -> (v < 256)%nat ->
  let hist :=
    fold_left (fun hist s => increment hist (Some s)) (replicate n v) (replicate 256 0) in
  is_cdf (getCDF hist (num_of_Z (Z.of_nat n)))
  /\ forall i, (i < 256)%nat ->
       getCDF hist (num_of_Z (Z.of_nat n)) !! i
       = Some (if (i <? v)%nat then S754_zero false else float32_one).
Proof.
  intros Hn Hsmall Hv hist.
  pose proof (increments_is_histogram (replicate n v)) as Hh. fold hist in Hh.
  assert (Hbuckets : forall i, (i < 256)%nat ->
            hist !! i = Some (if (i =? v)%nat then Z.of_nat n else 0)).
  { intros i Hi. unfold hist. rewrite bucket_occurrences by exact Hi.
    rewrite occurrences_replicate. unfold to_uint32.
    destruct (i =? v)%nat; rewrite Z.mod_small; try reflexivity; lia. }
  assert (Hsum : bucket_sum hist = Z.of_nat n).
  { rewrite <- (prefix_all hist 256) by (destruct Hh as [-> _]; lia).
    rewrite (uniform_prefix hist v (Z.of_nat n) 256 Hbuckets) by lia.
    rewrite (proj2 (Nat.ltb_lt v 256)) by lia. reflexivity. }
  split.
  - repeat split.
    + apply getCDF_nondecreasing; [exact Hh|lia].
    + apply getCDF_first_nonneg; [exact Hh|lia].
    + apply getCDF_last_one; [exact Hh|lia|exact Hsum].
  - intros i Hi. rewrite (getCDF_lookup hist _ Hh) by exact Hi. f_equal.
    rewrite (uniform_prefix hist v (Z.of_nat n) (S i) Hbuckets) by lia.
    change (fround (SFdiv 53 1024 (num_of_Z ?c) (num_of_Z ?t))) with (cdf_entry c t).
    destruct (Nat.ltb_spec v (S i)), (Nat.ltb_spec i v); try lia.
    + fold (cdf_entry (Z.of_nat n) (Z.of_nat n)).
      rewrite cdf_entry_one by lia. symmetry. apply float32_one_eq.
    + fold (cdf_entry 0 (Z.of_nat n)). apply cdf_entry_zero. lia.
Qed.

(** Between two step CDFs the mapping is a step as well. *)
Lemma createMapping_steps (sourceCdf refCdf : list spec_float) (v w s : nat) :
  is_cdf sourceCdf -> is_cdf refCdf ->
  (forall i, (i < 256)%nat ->
     sourceCdf !! i = Some (if (i <? v)%nat then S754_zero false else float32_one)) ->
  (forall i, (i < 256)%nat ->
     refCdf !! i = Some (if (i <? w)%nat then S754_zero false else float32_one)) ->
  (w < 256)%nat -> (s < 256)%nat ->
  createMapping sourceCdf refCdf !! s = Some (if (s <? v)%nat then 0%nat else w).
Proof.
  intros Hsrc Href Hstep Hstep' Hw Hs.
  destruct (createMapping_first_reaching sourceCdf refCdf s Hsrc Href Hs)
    as (k & x & y & Hk & Hx & Hy & Hle & Hbelow).
  assert (Hk256 : (k < 256)%nat).
  { destruct (createMapping_is_mapping sourceCdf refCdf) as [_ Hall].
    rewrite Forall_lookup in Hall. exact (Hall s k Hk). }
  rewrite Hk. f_equal.
  rewrite (Hstep s Hs) in Hx. injection Hx as <-.
  rewrite (Hstep' k Hk256) in Hy. injection Hy as <-.
  destruct (Nat.ltb_spec s v) as [Hsv|Hsv].
  - destruct (Nat.eq_dec k 0%nat) as [|Hk0]; [assumption|exfalso].
    pose proof (Hbelow 0%nat _ ltac:(lia) (Hstep' 0%nat ltac:(lia))) as Hlt.
    destruct (0 <? w)%nat; vm_compute in Hlt; discriminate Hlt.
  - destruct (Nat.ltb_spec k w) as [Hkw|Hkw].
    + vm_compute in Hle. discriminate Hle.
    + destruct (Nat.eq_dec k w) as [|Hne]; [assumption|exfalso].
      pose proof (Hbelow w _ ltac:(lia) (Hstep' w Hw)) as Hlt.
      rewrite (proj2 (Nat.ltb_ge w w)) in Hlt by lia.
      vm_compute in Hlt. discriminate Hlt.
Qed.

(** X12. When every source pixel has the red value [v] and every reference
    pixel the red value [w], whatever the sizes of the two images, the red
    mapping sends the values below [v] to 0 and the values from [v] on to
    [w]. *)
Theorem matchMappings_uniform (sourcePixels refPixels : ImageData) (v w s : nat) :
  (0 < width sourcePixels * height sourcePixels)%nat ->
  Z.of_nat (width sourcePixels * height sourcePixels) < 2 ^ 32 ->
  reds (data sourcePixels) = replicate (width sourcePixels * height sourcePixels) v ->
  (0 < width refPixels * height refPixels)%nat ->
  Z.of_nat (width refPixels * height refPixels) < 2 ^ 32 ->
  reds (data refPixels) = replicate (width refPixels * height refPixels) w ->
  (v < 256)%nat -> (w < 256)%nat -> (s < 256)%nat ->
  mappings_r (matchMappings sourcePixels refPixels) !! s
  = Some (if (s <? v)%nat then 0%nat else w).
Proof.
  intros Hn Hsmall Hreds Hn' Hsmall' Hreds' Hv Hw Hs.
  unfold matchMappings, imageCDFs. cbn [mappings_r cdf_r].
  rewrite !total_exact by lia.
  unfold getHistogram. rewrite !rHist_reds, Hreds, Hreds'. cbn [rHist].
  destruct (uniform_cdf _ v Hn Hsmall Hv) as [Hsrc Hstep].
  destruct (uniform_cdf _ w Hn' Hsmall' Hw) as [Href Hstep'].
  cbv zeta in Hsrc, Hstep, Href, Hstep'.
  apply createMapping_steps; assumption.
Qed.

(** ** The preview at the positions of the slider *)

Lemma applyMappings_at_0 (mappings : Mappings) (data : list nat) :
  is_mapping (mappings_r mappings) -> is_mapping (mappings_g mappings) ->
  is_mapping (mappings_b mappings) ->
  Forall (fun v => (v < 256)%nat) data ->
  applyMappings mappings intensity_0 data = set_alpha 255 data.
Proof.
  intros Hr Hg Hb.
  induction data as [|r|r g|r g b|r g b a rest IH] using pixel_ind; intros Hbytes;
    bytes Hbytes; cbn [applyMappings set_alpha];
    rewrite ?blend_intensity_0 by assumption; rewrite ?IH by assumption; reflexivity.
Qed.

Lemma applyMappings_at_1 (mappings : Mappings) (data : list nat) :
  is_mapping (mappings_r mappings) -> is_mapping (mappings_g mappings) ->
  is_mapping (mappings_b mappings) ->
  Forall (fun v => (v < 256)%nat) data ->
  applyMappings mappings intensity_1 data = fullyMapped mappings data.
Proof.
  intros Hr Hg Hb.
  induction data as [|r|r g|r g b|r g b a rest IH] using pixel_ind; intros Hbytes;
    bytes Hbytes; cbn [applyMappings fullyMapped];
    rewrite ?blend_intensity_1 by assumption; rewrite ?IH by assumption; reflexivity.
Qed.

Lemma unit_intensityb_sound (intensity : spec_float) :
  unit_intensityb intensity = true -> unit_intensity intensity.
Proof.
  unfold unit_intensityb, unit_intensity. intros H.
  apply andb_prop in H as [H H1]. apply andb_prop in H as [Hv H0]. auto.
Qed.

(** Every position of the slider gives an intensity between 0 and 1. *)
Lemma sliderIntensity_all :
  forallb (fun p => unit_intensityb (sliderIntensity (Z.of_nat p))) (seq 0 101) = true.
Proof. vm_compute. reflexivity. Qed.

Lemma sliderIntensity_unit (position : Z) :
  0 <= position <= 100 -> unit_intensity (sliderIntensity position).
Proof.
  intros Hp. apply unit_intensityb_sound.
  pose proof sliderIntensity_all as Hall. rewrite forallb_forall in Hall.
  rewrite <- (Z2Nat.id position) by lia. apply Hall. apply in_seq. lia.
Qed.

Lemma sliderIntensity_ends :
  sliderIntensity 0 = intensity_0 /\ sliderIntensity 100 = intensity_1.
Proof. split; vm_compute; reflexivity. Qed.

Lemma matchMappings_are_mappings (sourcePixels refPixels : ImageData) :
  is_mapping (mappings_r (matchMappings sourcePixels refPixels))
  /\ is_mapping (mappings_g (matchMappings sourcePixels refPixels))
  /\ is_mapping (mappings_b (matchMappings sourcePixels refPixels)).
Proof. repeat split; apply createMapping_is_mapping. Qed.

(** X13. For every source buffer of byte samples and every reference, the
    preview computed at slider position 0 is the source with every alpha
    255, the one at position 100 is the fully matched buffer, and at every
    position from 0 to 100 each sample lies between those two. *)
Theorem runGrading_slider
    (sourcePixels refPixels : ImageData) (position : Z) (k a b o : nat) :
  Forall (fun v => (v < 256)%nat) (data sourcePixels) ->
  0 <= position <= 100 ->
  runGrading sourcePixels refPixels 0 = set_alpha 255 (data sourcePixels)
  /\ runGrading sourcePixels refPixels 100
     = fullyMapped (matchMappings sourcePixels refPixels) (data sourcePixels)
  /\ (runGrading sourcePixels refPixels 0 !! k = Some a ->
      runGrading sourcePixels refPixels 100 !! k = Some b ->
      runGrading sourcePixels refPixels position !! k = Some o ->
      between a b o).
Proof.
  intros Hbytes Hp.
  destruct (matchMappings_are_mappings sourcePixels refPixels) as (Hr & Hg & Hb).
  destruct sliderIntensity_ends as [E0 E1].
  assert (H0 : runGrading sourcePixels refPixels 0 = set_alpha 255 (data sourcePixels)).
  { unfold runGrading, processImages. rewrite E0. apply applyMappings_at_0; assumption. }
  assert (H1 : runGrading sourcePixels refPixels 100
               = fullyMapped (matchMappings sourcePixels refPixels) (data sourcePixels)).
  { unfold runGrading, processImages. rewrite E1. apply applyMappings_at_1; assumption. }
  split; [exact H0|]. split; [exact H1|].
  rewrite H0, H1. intros Ha Hfull Ho.
  destruct (applyMappings_within (matchMappings sourcePixels refPixels)
              (sliderIntensity position) (data sourcePixels) Hr Hg Hb Hbytes
              (sliderIntensity_unit position Hp) k o Ho)
    as (a' & b' & Ha' & Hb' & Hbetween).
  congruence.
Qed.

(** ** Transparency *)

Lemma imageCDFs_withAlpha (a : nat) (pixels : ImageData) :
  imageCDFs (withAlpha a pixels) = imageCDFs pixels.
Proof.
  unfold imageCDFs, withAlpha. cbn [width height data].
  unfold getHistogram. rewrite getHistogram_loop_set_alpha. reflexivity.
Qed.

Lemma applyMappings_set_alpha (mappings : Mappings) (intensity : spec_float) (a : nat)
    (data : list nat) :
  applyMappings mappings intensity (set_alpha a data) = applyMappings mappings intensity data.
Proof.
  induction data as [|r|r g|r g b|r g b a' rest IH] using pixel_ind; try reflexivity.
  cbn [set_alpha applyMappings]. rewrite IH. reflexivity.
Qed.

(** X14. The alpha samples of the two images have no effect on the graded
    buffer: replacing every alpha sample of the source by one value and
    every alpha sample of the reference by another gives the same result, at
    every intensity. *)
Theorem processImages_ignores_alpha
    (sourcePixels refPixels : ImageData) (intensity : spec_float) (a a' : nat) :
  processImages (withAlpha a sourcePixels) (withAlpha a' refPixels) intensity
  = processImages sourcePixels refPixels intensity.
Proof.
  unfold processImages, matchMappings. rewrite !imageCDFs_withAlpha.
  apply applyMappings_set_alpha.
Qed.

(** ** Proportional counts give the same entry *)

Lemma rnd_same (N D N' D' : Z) :
  0 <= N -> 0 < D -> 0 <= N' -> 0 < D' -> N * D' = N' * D -> rnd N D = rnd N' D'.
Proof.
  intros HN HD HN' HD' Heq. apply Z.le_antisymm; apply rnd_mono; lia.
Qed.

(** The binary64 quotient depends on the ratio of the two integers only. *)
Lemma div64_scale (c t k : Z) :
  0 < c -> 0 < t -> 0 < k -> k * c < 2 ^ 53 -> k * t < 2 ^ 53 ->
  div64 (k * c) (k * t) = div64 c t.
Proof.
  intros Hc Ht Hk Hkc Hkt.
  assert (Hc53 : 0 < c < 2 ^ 53) by nia. assert (Ht53 : 0 < t < 2 ^ 53) by nia.
  assert (Hkc53 : 0 < k * c < 2 ^ 53) by nia. assert (Hkt53 : 0 < k * t < 2 ^ 53) by nia.
  destruct (SFdiv_num_of_Z c t Hc53 Ht53) as [_ Hfl].
  destruct (SFdiv_num_of_Z (k * c) (k * t) Hkc53 Hkt53) as [_ Hfl'].
  pose proof (quot_den_pos c t Hc53 Ht53) as HD.
  pose proof (quot_den_pos (k * c) (k * t) Hkc53 Hkt53) as HD'.
  pose proof (quot_digits c t Hc53 Ht53) as [Hdq _].
  pose proof (quot_digits (k * c) (k * t) Hkc53 Hkt53) as [Hdq' _].
  pose proof (Zdigits2_le_53 c Hc53) as Hdc. pose proof (Zdigits2_le_53 t Ht53) as Hdt.
  pose proof (Zdigits2_le_53 (k * c) Hkc53) as Hdkc.
  pose proof (Zdigits2_le_53 (k * t) Hkt53) as Hdkt.
  set (dq := Zdigits2 (quot_num c / mant t)) in *.
  set (dq' := Zdigits2 (quot_num (k * c) / mant (k * t))) in *.
  set (al := 106 - Zdigits2 c). set (be := dq - Zdigits2 t).
  set (al' := 106 - Zdigits2 (k * c)). set (be' := dq' - Zdigits2 (k * t)).
  assert (HN : quot_num c = c * 2 ^ al).
  { unfold quot_num, mant, al. rewrite <- Z.mul_assoc, <- Z.pow_add_r by lia.
    f_equal. f_equal. lia. }
  assert (HDe : quot_den c t = t * 2 ^ be).
  { unfold quot_den. fold dq. unfold mant, be.
    rewrite <- Z.mul_assoc, <- Z.pow_add_r by lia. f_equal. f_equal. lia. }
  assert (HN' : quot_num (k * c) = k * c * 2 ^ al').
  { unfold quot_num, mant, al'. rewrite <- Z.mul_assoc, <- Z.pow_add_r by lia.
    f_equal. f_equal. lia. }
  assert (HDe' : quot_den (k * c) (k * t) = k * t * 2 ^ be').
  { unfold quot_den. fold dq'. unfold mant, be'.
    rewrite <- Z.mul_assoc, <- Z.pow_add_r by lia. f_equal. f_equal. lia. }
  assert (Hqe : quot_exp c t = be - al) by (unfold quot_exp, expo, al, be; fold dq; lia).
  assert (Hqe' : quot_exp (k * c) (k * t) = be' - al')
    by (unfold quot_exp, expo, al', be'; fold dq'; lia).
  assert (Hal : 0 <= al /\ 0 <= be /\ 0 <= al' /\ 0 <= be') by (unfold al, be, al', be'; lia).
  clearbody al be al' be' dq dq'.
  set (N := quot_num c) in *. set (D := quot_den c t) in *.
  set (N' := quot_num (k * c)) in *. set (D' := quot_den (k * c) (k * t)) in *.
  assert (HNlo : 2 ^ 52 * D <= N /\ N < 2 ^ 53 * D).
  { split.
    - apply Z.le_trans with (D * (N / D)); [nia|apply Z.mul_div_le; lia].
    - apply Z.lt_le_trans with (D * Z.succ (N / D)); [apply Z.mul_succ_div_gt; lia|nia]. }
  assert (HNlo' : 2 ^ 52 * D' <= N' /\ N' < 2 ^ 53 * D').
  { split.
    - apply Z.le_trans with (D' * (N' / D')); [nia|apply Z.mul_div_le; lia].
    - apply Z.lt_le_trans with (D' * Z.succ (N' / D')); [apply Z.mul_succ_div_gt; lia|nia]. }
  assert (Hcross : N * D' * 2 ^ (al' + be) = N' * D * 2 ^ (al + be')).
  { rewrite HN, HDe, HN', HDe'. rewrite !Z.pow_add_r by lia. ring. }
  assert (Hgap : forall (n d n' d' x y : Z),
            0 < d -> 0 < d' -> 0 < x -> 2 <= y ->
            2 ^ 52 * d <= n -> n' < 2 ^ 53 * d' ->
            n' * d * x = n * d' * (x * y) -> False).
  { intros n d n' d' x y Hd Hd' Hx Hy Hn Hn' Heq.
    assert (Hc1 : n' * d = n * d' * y).
    { apply (Z.mul_reg_r _ _ x); [lia|]. rewrite Heq. ring. }
    assert (H1 : 2 ^ 52 * d * d' <= n * d') by (apply Z.mul_le_mono_nonneg_r; lia).
    assert (H2 : n * d' * 2 <= n * d' * y) by (apply Z.mul_le_mono_nonneg_l; nia).
    assert (H3 : n' * d < 2 ^ 53 * d' * d) by (apply Z.mul_lt_mono_pos_r; lia).
    lia. }
  assert (Hpow : forall a b : Z, 0 <= a -> a < b ->
            2 ^ b = 2 ^ a * 2 ^ (b - a) /\ 0 < 2 ^ a /\ 2 <= 2 ^ (b - a)).
  { intros a b Ha Hab. split; [|split].
    - rewrite <- Z.pow_add_r by lia. f_equal. lia.
    - apply pow2_pos. lia.
    - replace (b - a) with (Z.succ (b - a - 1)) by lia. rewrite Z.pow_succ_r by lia.
      pose proof (pow2_pos (b - a - 1) ltac:(lia)). lia. }
  assert (Hexp : al' + be = al + be').
  { destruct (Z.lt_trichotomy (al' + be) (al + be')) as [Hlt|[Heq|Hgt]];
      [exfalso|exact Heq|exfalso].
    - destruct (Hpow (al' + be) (al + be') ltac:(lia) Hlt) as (E & P1 & P2).
      rewrite E in Hcross.
      apply (Hgap N' D' N D (2 ^ (al' + be)) (2 ^ (al + be' - (al' + be)))); try lia.
    - destruct (Hpow (al + be') (al' + be) ltac:(lia) Hgt) as (E & P1 & P2).
      rewrite E in Hcross.
      apply (Hgap N D N' D' (2 ^ (al + be')) (2 ^ (al' + be - (al + be')))); try lia. }
  assert (Hsame : N' * D = N * D').
  { rewrite Hexp in Hcross. pose proof (pow2_pos (al + be') ltac:(lia)) as P.
    apply (Z.mul_reg_r _ _ (2 ^ (al + be'))); [lia|]. symmetry. exact Hcross. }
  unfold div64. fold N D N' D'. rewrite Hqe, Hqe'.
  replace (be' - al') with (be - al) by lia.
  rewrite (rnd_same N' D' N D) by lia. reflexivity.
Qed.

Lemma cdf_entry_scale (c t k : Z) :
  0 <= c -> 0 < t -> 0 < k -> k * c < 2 ^ 53 -> k * t < 2 ^ 53 ->
  cdf_entry (k * c) (k * t) = cdf_entry c t.
Proof.
  intros Hc Ht Hk Hkc Hkt.
  destruct (Z.eq_dec c 0) as [->|Hc0].
  - rewrite Z.mul_0_r, !cdf_entry_zero by nia. reflexivity.
  - destruct (cdf_entry_pos c t ltac:(nia) ltac:(nia)) as [E _].
    destruct (cdf_entry_pos (k * c) (k * t) ltac:(nia) ltac:(nia)) as [E' _].
    rewrite E, E'. unfold entry32. rewrite div64_scale by lia. reflexivity.
Qed.

Lemma bucket_sum_scale (k : Z) (hist : list Z) :
  bucket_sum (Z.mul k <$> hist) = k * bucket_sum hist.
Proof.
  unfold bucket_sum. induction hist as [|c hist IH]; [cbn; lia|].
  cbn [fmap list_fmap foldr]. change (list_fmap Z Z (Z.mul k) hist) with (Z.mul k <$> hist).
  rewrite IH. lia.
Qed.

Lemma prefix_scale (k : Z) (hist : list Z) (n : nat) :
  prefix (Z.mul k <$> hist) n = k * prefix hist n.
Proof. unfold prefix. rewrite <- fmap_take. apply bucket_sum_scale. Qed.

(** The CDF of a histogram does not change when every count and the total
    are multiplied by the same number. *)
Lemma getCDF_scale (hist : list Z) (t k : Z) :
  is_histogram hist -> is_histogram (Z.mul k <$> hist) ->
  0 < t -> 0 < k -> k * t < 2 ^ 53 ->
  getCDF (Z.mul k <$> hist) (num_of_Z (k * t)) = getCDF hist (num_of_Z t).
Proof.
  intros Hh Hh' Ht Hk Hkt. apply list_eq. intros i.
  destruct (decide (i < 256)%nat) as [Hi|Hi].
  - rewrite (getCDF_lookup _ _ Hh'), (getCDF_lookup _ _ Hh) by exact Hi. f_equal.
    pose proof (prefix_small _ Hh' (S i) ltac:(lia)) as Hp'.
    pose proof (prefix_small _ Hh (S i) ltac:(lia)) as Hp.
    rewrite prefix_scale in *.
    apply (cdf_entry_scale (prefix hist (S i)) t k); lia.
  - rewrite !lookup_ge_None_2; [reflexivity| |]; rewrite getCDF_length; lia.
Qed.

(** X15. The grading depends on the reference only through the proportions
    of its colours: a reference with [k] times the pixels and [k] times the
    count in every bucket of every channel gives the same graded buffer. *)
Theorem processImages_proportional_reference
    (sourcePixels refPixels refPixels' : ImageData) (intensity : spec_float) (k : nat) :
  (0 < k)%nat -> (0 < width refPixels * height refPixels)%nat ->
  (width refPixels' * height refPixels' = k * (width refPixels * height refPixels))%nat ->
  Z.of_nat (width refPixels' * height refPixels') < 2 ^ 53 ->
  rHist (getHistogram (data refPixels'))
  = Z.mul (Z.of_nat k) <$> rHist (getHistogram (data refPixels)) ->
  gHist (getHistogram (data refPixels'))
  = Z.mul (Z.of_nat k) <$> gHist (getHistogram (data refPixels)) ->
  bHist (getHistogram (data refPixels'))
  = Z.mul (Z.of_nat k) <$> bHist (getHistogram (data refPixels)) ->
  processImages sourcePixels refPixels' intensity
  = processImages sourcePixels refPixels intensity.
Proof.
  intros Hk Hn Hn' Hsmall Hr Hg Hb.
  assert (Hist : forall d : list nat,
            is_histogram (rHist (getHistogram d)) /\ is_histogram (gHist (getHistogram d))
            /\ is_histogram (bHist (getHistogram d))).
  { intros d. unfold getHistogram. rewrite rHist_reds, gHist_greens, bHist_blues.
    cbn [rHist gHist bHist]. repeat split; apply increments_is_histogram. }
  destruct (Hist (data refPixels)) as (Ir & Ig & Ib).
  destruct (Hist (data refPixels')) as (Ir' & Ig' & Ib').
  rewrite Hr in Ir'. rewrite Hg in Ig'. rewrite Hb in Ib'.
  assert (Hcdfs : imageCDFs refPixels' = imageCDFs refPixels).
  { unfold imageCDFs. rewrite Hr, Hg, Hb.
    rewrite (total_exact (width refPixels') (height refPixels')) by lia.
    rewrite (total_exact (width refPixels) (height refPixels)) by lia.
    rewrite Hn', Nat2Z.inj_mul.
    rewrite !getCDF_scale by (try assumption; lia). reflexivity. }
  unfold processImages, matchMappings. rewrite Hcdfs. reflexivity.
Qed.

(** ** The values a mapping selects *)

(** A value that occurs in the source channel is sent to a value that
    occurs in the reference channel: the cursor stops where the reference
    CDF rises, and it rises only at a non-empty bucket. *)
Lemma channel_into_reference (ls lr : list nat) (ts tr : Z) (v : nat) :
  let hs := fold_left (fun hist s => increment hist (Some s)) ls (replicate 256 0) in
  let hr := fold_left (fun hist s => increment hist (Some s)) lr (replicate 256 0) in
  bucket_sum hs = ts -> bucket_sum hr = tr -> 0 < ts < 2 ^ 53 -> 0 < tr < 2 ^ 53 ->
  Z.of_nat (length ls) < 2 ^ 32 -> In v ls -> (v < 256)%nat ->
  exists k : nat,
    createMapping (getCDF hs (num_of_Z ts)) (getCDF hr (num_of_Z tr)) !! v = Some k
    /\ In k lr.
Proof.
  intros hs hr Hss Hsr Hts Htr Hlen Hin Hv.
  pose proof (increments_is_histogram ls) as Hhs. fold hs in Hhs.
  pose proof (increments_is_histogram lr) as Hhr. fold hr in Hhr.
  assert (Hcs : is_cdf (getCDF hs (num_of_Z ts))).
  { repeat split; [apply getCDF_nondecreasing|apply getCDF_first_nonneg|apply getCDF_last_one];
      assumption. }
  assert (Hcr : is_cdf (getCDF hr (num_of_Z tr))).
  { repeat split; [apply getCDF_nondecreasing|apply getCDF_first_nonneg|apply getCDF_last_one];
      assumption. }
  destruct (createMapping_first_reaching _ _ v Hcs Hcr Hv)
    as (k & x & y & Hk & Hx & Hy & Hle & Hbelow).
  exists k. split; [exact Hk|].
  assert (Hk256 : (k < 256)%nat).
  { destruct (createMapping_is_mapping (getCDF hs (num_of_Z ts)) (getCDF hr (num_of_Z tr)))
      as [_ Hall].
    rewrite Forall_lookup in Hall. exact (Hall v k Hk). }
  rewrite (getCDF_lookup hs _ Hhs) in Hx by exact Hv. injection Hx as <-.
  rewrite (getCDF_lookup hr _ Hhr) in Hy by exact Hk256. injection Hy as <-.
  change (fround (SFdiv 53 1024 (num_of_Z ?c) (num_of_Z ?t))) with (cdf_entry c t) in *.
  (* the source entry is positive *)
  pose proof (bucket_occurrences ls v Hv) as Hbv. fold hs in Hbv.
  pose proof (occurrences_In ls v Hin) as Hocc.
  unfold to_uint32 in Hbv. rewrite Z.mod_small in Hbv by lia.
  pose proof (prefix_S hs v _ Hbv) as HSv.
  destruct Hhs as [Hlens Hranges]. destruct Hhr as [Hlenr Hranger].
  pose proof (prefix_bounds hs v Hranges) as Hpv.
  pose proof (prefix_mono hs (S v) 256 Hranges ltac:(lia)) as Hpv'.
  rewrite (prefix_all hs 256) in Hpv' by lia.
  destruct (cdf_entry_pos (prefix hs (S v)) ts ltac:(lia) Hts) as [Ex _].
  (* the reference bucket at [k] is not empty *)
  pose proof (bucket_occurrences lr k Hk256) as Hbk. fold hr in Hbk.
  apply (count_occ_In Nat.eq_dec).
  destruct (Nat.eq_dec (count_occ Nat.eq_dec lr k) 0%nat) as [H0|H0]; [exfalso|lia].
  unfold occurrences in Hbk. rewrite H0 in Hbk. change (to_uint32 (Z.of_nat 0)) with 0 in Hbk.
  pose proof (prefix_S hr k _ Hbk) as HSk. rewrite Z.add_0_r in HSk.
  rewrite HSk in Hle.
  destruct k as [|k].
  - change (prefix hr 0) with 0 in Hle. rewrite cdf_entry_zero in Hle by lia.
    rewrite Ex in Hle. discriminate Hle.
  - assert (Hprev : getCDF hr (num_of_Z tr) !! k = Some (cdf_entry (prefix hr (S k)) tr)).
    { apply (getCDF_lookup hr _ (conj Hlenr Hranger)). lia. }
    pose proof (Hbelow k _ ltac:(lia) Hprev) as Hlt.
    pose proof (SFltb_SFleb_trans _ _ _ Hlt Hle) as Habs.
    rewrite SFltb_irrefl in Habs. discriminate Habs.
Qed.

Lemma channels_length_whole (n : nat) :
  forall data : list nat,
    length data = (4 * n)%nat ->
    length (reds data) = n /\ length (greens data) = n /\ length (blues data) = n.
Proof.
  induction n as [|n IH]; intros data Hlen.
  - destruct data; [|discriminate]. repeat split.
  - destruct data as [|r [|g [|b [|a rest]]]]; simpl in Hlen; try lia.
    destruct (IH rest ltac:(lia)) as (Hr & Hg & Hb).
    cbn [reds greens blues length]. rewrite Hr, Hg, Hb. repeat split.
Qed.

(** X16. For two images as [getImageData] returns them, every channel
    mapping sends each value that occurs in that channel of the source to a
    value that occurs in that channel of the reference: fully matched, the
    image holds reference values only. *)
Theorem matchMappings_into_reference (sourcePixels refPixels : ImageData) (v : nat) :
  is_image sourcePixels -> is_image refPixels ->
  (In v (reds (data sourcePixels)) ->
   exists k : nat,
     mappings_r (matchMappings sourcePixels refPixels) !! v = Some k
     /\ In k (reds (data refPixels)))
  /\ (In v (greens (data sourcePixels)) ->
      exists k : nat,
        mappings_g (matchMappings sourcePixels refPixels) !! v = Some k
        /\ In k (greens (data refPixels)))
  /\ (In v (blues (data sourcePixels)) ->
      exists k : nat,
        mappings_b (matchMappings sourcePixels refPixels) !! v = Some k
        /\ In k (blues (data refPixels))).
Proof.
  intros (Hlen & Hbytes & Hpos & Hsmall) (Hlen' & Hbytes' & Hpos' & Hsmall').
  set (n := (width sourcePixels * height sourcePixels)%nat) in *.
  set (n' := (width refPixels * height refPixels)%nat) in *.
  destruct (getHistogram_loop_holds n (data sourcePixels)
              {| rHist := replicate 256 0; gHist := replicate 256 0; bHist := replicate 256 0 |}
              0 0 0 Hlen Hbytes holds_replicate holds_replicate holds_replicate)
    as ((_ & _ & Hr) & (_ & _ & Hg) & (_ & _ & Hb)); try lia.
  destruct (getHistogram_loop_holds n' (data refPixels)
              {| rHist := replicate 256 0; gHist := replicate 256 0; bHist := replicate 256 0 |}
              0 0 0 Hlen' Hbytes' holds_replicate holds_replicate holds_replicate)
    as ((_ & _ & Hr') & (_ & _ & Hg') & (_ & _ & Hb')); try lia.
  rewrite Z.add_0_l in Hr, Hg, Hb, Hr', Hg', Hb'.
  rewrite rHist_reds in Hr, Hr'. rewrite gHist_greens in Hg, Hg'.
  rewrite bHist_blues in Hb, Hb'. cbn [rHist gHist bHist] in Hr, Hg, Hb, Hr', Hg', Hb'.
  destruct (channels_length_whole n (data sourcePixels) Hlen) as (Lr & Lg & Lb).
  destruct (channels_bytes (data sourcePixels) Hbytes) as (Br & Bg & Bb).
  unfold matchMappings, imageCDFs. cbn [mappings_r mappings_g mappings_b cdf_r cdf_g cdf_b].
  fold n n'. rewrite !total_exact by (fold n; fold n'; lia). fold n n'.
  unfold getHistogram. rewrite !rHist_reds, !gHist_greens, !bHist_blues.
  cbn [rHist gHist bHist].
  split; [|split]; intros Hin.
  - apply (channel_into_reference _ _ _ _ v Hr Hr'); try lia; try assumption.
    apply (byte_in (reds (data sourcePixels))); assumption.
  - apply (channel_into_reference _ _ _ _ v Hg Hg'); try lia; try assumption.
    apply (byte_in (greens (data sourcePixels))); assumption.
  - apply (channel_into_reference _ _ _ _ v Hb Hb'); try lia; try assumption.
    apply (byte_in (blues (data sourcePixels))); assumption.
Qed.

(** ** What a CDF entry is *)

Lemma at_most_0 (l : list nat) : at_most l 0 = occurrences l 0.
Proof.
  unfold at_most, occurrences. induction l as [|v l IH]; [reflexivity|].
  cbn [List.filter count_occ].
  destruct (Nat.eq_dec v 0%nat) as [->|Hne].
  - cbn [Nat.leb length]. lia.
  - destruct (Nat.leb_spec v 0%nat); [lia|exact IH].
Qed.

Lemma at_most_S (l : list nat) (i : nat) :
  at_most l (S i) = at_most l i + occurrences l (S i).
Proof.
  unfold at_most, occurrences. induction l as [|v l IH]; [reflexivity|].
  cbn [List.filter count_occ].
  destruct (Nat.eq_dec v (S i)) as [->|Hne].
  - rewrite (proj2 (Nat.leb_le (S i) (S i))) by lia.
    rewrite (proj2 (Nat.leb_gt (S i) i)) by lia. cbn [length]. lia.
  - destruct (Nat.leb_spec v (S i)), (Nat.leb_spec v i); cbn [length]; lia.
Qed.

(** The running sum through bucket [i] counts the samples of value at most
    [i]. *)
Lemma prefix_at_most (l : list nat) (i : nat) :
  Z.of_nat (length l) < 2 ^ 32 -> (i < 256)%nat ->
  prefix (fold_left (fun hist s => increment hist (Some s)) l (replicate 256 0)) (S i)
  = at_most l i.
Proof.
  intros Hlen. set (hist := fold_left _ l _).
  assert (Hbucket : forall v, (v < 256)%nat -> hist !! v = Some (occurrences l v)).
  { intros v Hv. unfold hist. rewrite bucket_occurrences by exact Hv.
    unfold to_uint32. rewrite Z.mod_small; [reflexivity|].
    unfold occurrences. pose proof (count_occ_bound Nat.eq_dec v l). lia. }
  induction i as [|i IH]; intros Hi.
  - rewrite (prefix_S hist 0%nat _ (Hbucket 0%nat Hi)), at_most_0. reflexivity.
  - rewrite (prefix_S hist (S i) _ (Hbucket (S i) Hi)), IH, at_most_S by lia. reflexivity.
Qed.

(** X17. For an image as [getImageData] returns it, entry [i] of each CDF
    that [processImages] computes is the fraction of the pixels whose sample
    of that channel is at most [i], divided in binary64 and rounded to
    binary32: the running sum carries no rounding error. *)
Theorem imageCDFs_entries (pixels : ImageData) (i : nat) :
  is_image pixels -> (i < 256)%nat ->
  cdf_r (imageCDFs pixels) !! i
  = Some (cdf_entry (at_most (reds (data pixels)) i)
            (Z.of_nat (width pixels * height pixels)))
  /\ cdf_g (imageCDFs pixels) !! i
     = Some (cdf_entry (at_most (greens (data pixels)) i)
               (Z.of_nat (width pixels * height pixels)))
  /\ cdf_b (imageCDFs pixels) !! i
     = Some (cdf_entry (at_most (blues (data pixels)) i)
               (Z.of_nat (width pixels * height pixels))).
Proof.
  intros (Hlen & Hbytes & Hpos & Hsmall) Hi.
  set (n := (width pixels * height pixels)%nat) in *.
  destruct (channels_length_whole n (data pixels) Hlen) as (Lr & Lg & Lb).
  unfold imageCDFs. cbn [cdf_r cdf_g cdf_b]. fold n.
  rewrite (total_exact _ _ Hpos) by (fold n; lia). fold n.
  unfold getHistogram. rewrite rHist_reds, gHist_greens, bHist_blues. cbn [rHist gHist bHist].
  repeat split.
  - rewrite (getCDF_lookup _ _ (increments_is_histogram _)) by exact Hi.
    rewrite prefix_at_most by lia. reflexivity.
  - rewrite (getCDF_lookup _ _ (increments_is_histogram _)) by exact Hi.
    rewrite prefix_at_most by lia. reflexivity.
  - rewrite (getCDF_lookup _ _ (increments_is_histogram _)) by exact Hi.
    rewrite prefix_at_most by lia. reflexivity.
Qed.

(** ** The blend grows with the intensity *)

(** Comparing [N * 2 ^ X] with [N' * 2 ^ Y] after a change of scale. *)
Lemma scaled_le (N N' X Y T K : Z) :
  0 <= X -> 0 <= Y -> 0 <= T -> 0 <= K -> X + K = T + Y ->
  N * 2 ^ X <= N' * 2 ^ Y -> N * 2 ^ T <= N' * 2 ^ K.
Proof.
  intros HX HY HT HK Heq H.
  pose proof (pow2_pos Y HY) as PY. pose proof (pow2_pos K HK) as PK.
  apply (Z.mul_le_mono_pos_r _ _ (2 ^ Y)); [lia|].
  rewrite <- !Z.mul_assoc, <- !Z.pow_add_r by lia.
  rewrite <- Heq, (Z.add_comm K Y), !Z.pow_add_r, !Z.mul_assoc by lia.
  apply Z.mul_le_mono_nonneg_r; lia.
Qed.

Lemma round53_floor (N : Z) :
  0 < N ->
  2 ^ 52 <= N * 2 ^ Z.max (53 - Zdigits2 N) 0 / 2 ^ Z.max (Zdigits2 N - 53) 0 < 2 ^ 53.
Proof.
  intros HN. pose proof (Zdigits2_spec N HN) as [Hlo Hhi].
  pose proof (Zdigits2_pos N HN) as Hd.
  destruct (Z.le_gt_cases (Zdigits2 N) 53) as [Hle|Hgt].
  - rewrite (Z.max_l (53 - Zdigits2 N)), (Z.max_r (Zdigits2 N - 53)) by lia.
    rewrite Z.pow_0_r, Z.div_1_r.
    pose proof (pow2_pos (53 - Zdigits2 N) ltac:(lia)) as P.
    assert (E1 : 2 ^ 52 = 2 ^ (Zdigits2 N - 1) * 2 ^ (53 - Zdigits2 N)).
    { rewrite <- Z.pow_add_r by lia. f_equal. lia. }
    assert (E2 : 2 ^ 53 = 2 ^ Zdigits2 N * 2 ^ (53 - Zdigits2 N)).
    { rewrite <- Z.pow_add_r by lia. f_equal. lia. }
    rewrite E1, E2. split.
    + apply Z.mul_le_mono_nonneg_r; lia.
    + apply Z.mul_lt_mono_pos_r; lia.
  - rewrite (Z.max_r (53 - Zdigits2 N)), (Z.max_l (Zdigits2 N - 53)) by lia.
    rewrite Z.pow_0_r, Z.mul_1_r.
    pose proof (pow2_pos (Zdigits2 N - 53) ltac:(lia)) as P.
    assert (E1 : 2 ^ (Zdigits2 N - 1) = 2 ^ 52 * 2 ^ (Zdigits2 N - 53)).
    { rewrite <- Z.pow_add_r by lia. f_equal. lia. }
    assert (E2 : 2 ^ Zdigits2 N = 2 ^ 53 * 2 ^ (Zdigits2 N - 53)).
    { rewrite <- Z.pow_add_r by lia. f_equal. lia. }
    split.
    + apply Z.div_le_lower_bound; lia.
    + apply Z.div_lt_upper_bound; lia.
Qed.

Lemma round53_bounds (N ex : Z) :
  0 < N ->
  2 ^ 52 <= fst (round53 N ex) < 2 ^ 53
  /\ ex + Zdigits2 N - 53 <= snd (round53 N ex) <= ex + Zdigits2 N - 53 + 1.
Proof.
  intros HN. pose proof (round53_floor N HN) as Hf.
  pose proof (rnd_bounds (N * 2 ^ Z.max (53 - Zdigits2 N) 0) (2 ^ Z.max (Zdigits2 N - 53) 0)) as R.
  unfold round53.
  apply (carry_bounds 53 (rnd (N * 2 ^ Z.max (53 - Zdigits2 N) 0) (2 ^ Z.max (Zdigits2 N - 53) 0))
           (ex + Zdigits2 N - 53)); [lia|].
  change (53 - 1) with 52. change (2 ^ 53) with (2 ^ 52 * 2) in *. lia.
Qed.

(** A product or a sum in the normal range is rounded to [round53]. *)
Lemma binary_round_aux_round53 (sx : bool) (N ex : Z) :
  0 < N -> 53 <= Zdigits2 N -> -1074 <= ex + Zdigits2 N - 53 <= 969 ->
  binary_round_aux 53 1024 sx N ex loc_Exact
  = S754_finite sx (Z.to_pos (fst (round53 N ex))) (snd (round53 N ex)).
Proof.
  intros HN Hd He.
  rewrite binary_round_aux_exact_form.
  pose proof (binary_round_aux_normal 53 1024 ltac:(lia) sx N 1 ex) as Hn.
  rewrite Z.div_1_r in Hn. cbv zeta in Hn. rewrite Z.mul_1_l in Hn.
  unfold round53. rewrite (Z.max_r (53 - Zdigits2 N)), (Z.max_l (Zdigits2 N - 53)) by lia.
  rewrite Z.pow_0_r, Z.mul_1_r.
  replace (ex + Zdigits2 N - 53) with (ex + (Zdigits2 N - 53)) by lia.
  rewrite Z.div_1_r. apply Hn; try lia.
  - unfold emin. lia.
  - unfold carry. destruct (_ =? _); simpl; lia.
Qed.

Lemma binary_round_round53 (sx : bool) (mx : positive) (ex : Z) :
  -1074 <= ex + Zdigits2 (Zpos mx) - 53 <= 969 ->
  binary_round 53 1024 sx mx ex
  = S754_finite sx (Z.to_pos (fst (round53 (Zpos mx) ex))) (snd (round53 (Zpos mx) ex)).
Proof.
  intros He. pose proof (Zdigits2_pos (Zpos mx) ltac:(lia)) as Hd.
  destruct (Z.le_gt_cases (Zdigits2 (Zpos mx)) 53) as [Hle|Hgt].
  - pose proof (round53_floor (Zpos mx) ltac:(lia)) as Hf.
    unfold round53.
    rewrite (Z.max_l (53 - Zdigits2 (Zpos mx))), (Z.max_r (Zdigits2 (Zpos mx) - 53)) in * by lia.
    rewrite Z.pow_0_r in *. rewrite Z.div_1_r in Hf.
    rewrite <- (Z.mul_1_r (Zpos mx * 2 ^ (53 - Zdigits2 (Zpos mx)))) at 1 2.
    rewrite rnd_exact by lia.
    unfold carry.
    destruct (Z.eqb_spec (Zpos mx * 2 ^ (53 - Zdigits2 (Zpos mx))) (2 ^ 53)) as [Hc|Hc]; [lia|].
    cbn [fst snd].
    apply binary_round_canonical; try lia.
    + unfold emin. lia.
    + right. split; [lia|]. f_equal. f_equal. lia.
  - unfold binary_round.
    change (Zpos (digits2_pos mx)) with (Zdigits2 (Zpos mx)).
    assert (Hf : fexp 53 1024 (Zdigits2 (Zpos mx) + ex) = ex + (Zdigits2 (Zpos mx) - 53))
      by (unfold fexp, emin; lia).
    rewrite Hf. unfold shl_align.
    destruct (ex + (Zdigits2 (Zpos mx) - 53) - ex) as [|k|k] eqn:Hk; try lia.
    apply binary_round_aux_round53; lia.
Qed.

(** Rounding to binary64 is monotone: the value [N * 2 ^ ex] is at most
    [N' * 2 ^ ex'], both written over the scale [2 ^ L]. *)
Lemma round53_mono (N ex N' ex' L : Z) :
  0 < N -> 0 < N' -> L <= ex -> L <= ex' ->
  N * 2 ^ (ex - L) <= N' * 2 ^ (ex' - L) ->
  lexle (round53 N ex) (round53 N' ex').
Proof.
  intros HN HN' HL HL' Hle.
  pose proof (Zdigits2_pos N HN) as Hd. pose proof (Zdigits2_pos N' HN') as Hd'.
  unfold round53.
  set (a := Z.max (53 - Zdigits2 N) 0). set (b := Z.max (Zdigits2 N - 53) 0).
  set (a' := Z.max (53 - Zdigits2 N') 0). set (b' := Z.max (Zdigits2 N' - 53) 0).
  pose proof (pow2_pos a ltac:(lia)) as Pa. pose proof (pow2_pos b ltac:(lia)) as Pb.
  pose proof (pow2_pos a' ltac:(lia)) as Pa'. pose proof (pow2_pos b' ltac:(lia)) as Pb'.
  apply carry_rnd_mono; try lia.
  - exact (round53_floor N HN).
  - exact (round53_floor N' HN').
  - intros Hee.
    rewrite <- !Z.mul_assoc, <- !Z.pow_add_r by lia.
    apply (scaled_le N N' (ex - L) (ex' - L)); lia.
Qed.

(** The order of mantissa-exponent pairs is the order of the values. *)
Lemma lexle_value (M E M' E' L : Z) :
  2 ^ 52 <= M < 2 ^ 53 -> 2 ^ 52 <= M' < 2 ^ 53 -> L <= E -> L <= E' ->
  lexle (M, E) (M', E') -> M * 2 ^ (E - L) <= M' * 2 ^ (E' - L).
Proof.
  intros HM HM' HL HL' [Hlt|[Heq Hle]]; cbn [fst snd] in *.
  - pose proof (pow2_pos (E - L) ltac:(lia)) as P.
    assert (Hs : 2 ^ (E' - L) = 2 ^ (E' - E - 1) * 2 * 2 ^ (E - L)).
    { rewrite <- (Z.pow_1_r 2) at 3. rewrite <- !Z.pow_add_r by lia. f_equal. lia. }
    pose proof (pow2_pos (E' - E - 1) ltac:(lia)) as P'.
    rewrite Hs. change (2 ^ 53) with (2 ^ 52 * 2) in HM. nia.
  - subst E'. apply Z.mul_le_mono_nonneg_r; [apply Z.lt_le_incl, pow2_pos|]; lia.
Qed.

Lemma product_digits (a b : Z) :
  2 ^ 52 <= a < 2 ^ 53 -> 2 ^ 52 <= b < 2 ^ 53 -> 105 <= Zdigits2 (a * b) <= 106.
Proof.
  intros Ha Hb.
  assert (Hlo : 2 ^ 104 <= a * b).
  { change (2 ^ 104) with (2 ^ 52 * 2 ^ 52). apply Z.mul_le_mono_nonneg; lia. }
  assert (Hhi : a * b < 2 ^ 106).
  { change (2 ^ 106) with (2 ^ 53 * 2 ^ 53). apply Z.mul_lt_mono_nonneg; lia. }
  assert (Hpos : 0 < a * b) by lia.
  pose proof (Zdigits2_spec (a * b) Hpos) as [_ Hd].
  pose proof (Zdigits2_pos (a * b) Hpos) as Hp.
  split.
  - destruct (Z.le_gt_cases 105 (Zdigits2 (a * b))) as [|Hlt]; [assumption|exfalso].
    assert (2 ^ Zdigits2 (a * b) <= 2 ^ 104) by (apply Z.pow_le_mono_r; lia). lia.
  - apply Zdigits2_le; lia.
Qed.

(** The product [(matched - src) * intensity] at a normal intensity. *)
Lemma SFmul_round53 (d : Z) (mi : positive) (ei : Z) :
  d <> 0 -> Z.abs d < 256 -> 2 ^ 52 <= Zpos mi < 2 ^ 53 -> -1000 <= ei <= 0 ->
  SFmul 53 1024 (num_of_Z d) (S754_finite false mi ei)
  = S754_finite (d <? 0)
      (Z.to_pos (fst (round53 (mant (Z.abs d) * Zpos mi) (expo (Z.abs d) + ei))))
      (snd (round53 (mant (Z.abs d) * Zpos mi) (expo (Z.abs d) + ei))).
Proof.
  intros Hnz Hd Hmi Hei.
  rewrite (num_of_Z_nonzero d Hnz) by lia.
  pose proof (mant_bounds (Z.abs d) ltac:(lia)) as Hm.
  pose proof (Zdigits2_le_53 (Z.abs d) ltac:(lia)) as Hdig.
  pose proof (product_digits _ _ Hm Hmi) as Hpd.
  unfold SFmul. rewrite xorb_false_r.
  rewrite Pos2Z.inj_mul, Z2Pos.id by lia.
  apply binary_round_aux_round53; unfold expo; lia.
Qed.

(** The sum of a sample and a number: the two mantissas are aligned and
    the exact sum is normalised. *)
Lemma SFadd_aligned (s : Z) (sp : bool) (mp : positive) (ep : Z) :
  0 < s < 2 ^ 53 ->
  SFadd 53 1024 (num_of_Z s) (S754_finite sp mp ep)
  = binary_normalize 53 1024
      (s * 2 ^ (- Z.min (expo s) ep)
       + cond_Zopp sp (Zpos mp * 2 ^ (ep - Z.min (expo s) ep)))
      (Z.min (expo s) ep) false.
Proof.
  intros Hs.
  pose proof (aligned_mantissa s (Z.min (expo (Z.abs s)) ep) ltac:(lia) ltac:(lia) ltac:(lia))
    as Hal.
  rewrite (num_of_Z_nonzero s) by lia.
  replace (s <? 0) with false in * by (symmetry; apply Z.ltb_ge; lia).
  rewrite Z.abs_eq in * by lia.
  unfold SFadd. cbv zeta. rewrite Hal, (shl_align_fst mp ep) by lia. reflexivity.
Qed.

Lemma SFadd_round53 (s : Z) (sp : bool) (mp : positive) (ep : Z) :
  0 < s < 256 -> 2 ^ 52 <= Zpos mp < 2 ^ 53 -> -1000 <= ep <= -45 ->
  0 < s * 2 ^ (- Z.min (expo s) ep) + cond_Zopp sp (Zpos mp * 2 ^ (ep - Z.min (expo s) ep)) ->
  SFadd 53 1024 (num_of_Z s) (S754_finite sp mp ep)
  = S754_finite false
      (Z.to_pos (fst (round53 (s * 2 ^ (- Z.min (expo s) ep)
                               + cond_Zopp sp (Zpos mp * 2 ^ (ep - Z.min (expo s) ep)))
                        (Z.min (expo s) ep))))
      (snd (round53 (s * 2 ^ (- Z.min (expo s) ep)
                     + cond_Zopp sp (Zpos mp * 2 ^ (ep - Z.min (expo s) ep)))
              (Z.min (expo s) ep))).
Proof.
  intros Hs Hmp Hep Hpos.
  rewrite SFadd_aligned by lia.
  pose proof (Zdigits2_le_53 s ltac:(lia)) as Hds.
  set (ez := Z.min (expo s) ep) in *.
  assert (Hez : -1000 <= ez <= -45) by (unfold ez, expo; lia).
  pose proof (pow2_pos (- ez) ltac:(lia)) as Pez.
  pose proof (pow2_pos (ep - ez) ltac:(lia)) as Pd.
  set (S := s * 2 ^ (- ez) + cond_Zopp sp (Zpos mp * 2 ^ (ep - ez))) in *.
  assert (Hhi : S < 2 ^ (9 - ez)).
  { assert (H1 : s * 2 ^ (- ez) < 2 ^ 8 * 2 ^ (- ez)) by (apply Z.mul_lt_mono_pos_r; lia).
    assert (H2 : Zpos mp * 2 ^ (ep - ez) < 2 ^ 53 * 2 ^ (ep - ez))
      by (apply Z.mul_lt_mono_pos_r; lia).
    assert (H3 : 2 ^ 53 * 2 ^ (ep - ez) <= 2 ^ 8 * 2 ^ (- ez)).
    { rewrite <- !Z.pow_add_r by lia. apply Z.pow_le_mono_r; lia. }
    assert (H4 : 2 ^ (9 - ez) = 2 * (2 ^ 8 * 2 ^ (- ez))).
    { replace (9 - ez) with (1 + (8 + - ez)) by lia.
      rewrite !Z.pow_add_r, Z.pow_1_r by lia. reflexivity. }
    rewrite H4. unfold S, cond_Zopp. destruct sp; lia. }
  pose proof (Zdigits2_le S (9 - ez) Hpos ltac:(lia) Hhi) as Hdig.
  pose proof (Zdigits2_pos S Hpos) as Hdp.
  destruct S as [|p|p] eqn:HS; try lia.
  unfold binary_normalize. apply binary_round_round53. lia.
Qed.

(** The store conversion of a positive number below 1 in its exponent:
    rounding to the nearest integer, capped at 255. *)
Lemma to_uint8_clamp_rnd (m : positive) (e : Z) :
  e < 0 ->
  to_uint8_clamp (S754_finite false m e) = Z.to_nat (Z.min (rnd (Zpos m) (2 ^ (- e))) 255).
Proof.
  intros He. destruct e as [|k|k]; try lia.
  unfold to_uint8_clamp. change (- Zneg k) with (Zpos k).
  pose proof (pow2_pos (Zpos k) ltac:(lia)) as Pk.
  unfold rnd, round_nearest_even, loc_of. cbv zeta.
  destruct (Z.eqb_spec (Zpos m mod 2 ^ Zpos k) 0) as [Hr|Hr].
  - rewrite Hr. replace (2 * 0 ?= 2 ^ Zpos k) with Lt by (symmetry; apply Z.compare_lt_iff; lia).
    reflexivity.
  - destruct (2 * (Zpos m mod 2 ^ Zpos k) ?= 2 ^ Zpos k); reflexivity.
Qed.

(** The store conversion is monotone on normal numbers. *)
Lemma to_uint8_clamp_mono (M E M' E' : Z) :
  2 ^ 52 <= M < 2 ^ 53 -> 2 ^ 52 <= M' < 2 ^ 53 ->
  lexle (M, E) (M', E') ->
  (to_uint8_clamp (S754_finite false (Z.to_pos M) E)
   <= to_uint8_clamp (S754_finite false (Z.to_pos M') E'))%nat.
Proof.
  intros HM HM' Hle.
  destruct (Z.lt_ge_cases E' 0) as [Hneg|Hnonneg].
  - assert (HE : E <= E') by (destruct Hle as [Hl|[Hl _]]; cbn [fst snd] in Hl; lia).
    rewrite !to_uint8_clamp_rnd, !Z2Pos.id by lia.
    pose proof (pow2_pos (- E) ltac:(lia)) as PE. pose proof (pow2_pos (- E') ltac:(lia)) as PE'.
    apply Z2Nat.inj_le.
    + pose proof (rnd_bounds M (2 ^ (- E))). pose proof (Z.div_pos M (2 ^ (- E))). lia.
    + pose proof (rnd_bounds M' (2 ^ (- E'))). pose proof (Z.div_pos M' (2 ^ (- E'))). lia.
    + apply Z.min_le_compat_r. apply rnd_mono; try lia.
      pose proof (lexle_value M E M' E' (E + E') HM HM' ltac:(lia) ltac:(lia) Hle) as Hv.
      replace (E - (E + E')) with (- E') in Hv by lia.
      replace (E' - (E + E')) with (- E) in Hv by lia. exact Hv.
  - pose proof (to_uint8_clamp_lt (S754_finite false (Z.to_pos M) E)) as Hlt.
    assert (Hr : to_uint8_clamp (S754_finite false (Z.to_pos M') E') = 255%nat).
    { unfold to_uint8_clamp. rewrite Z2Pos.id by lia.
      pose proof (pow2_pos E' ltac:(lia)) as PE'.
      assert (Hbig : 255 <= M' * 2 ^ E') by nia.
      destruct E' as [|k|k]; try lia; rewrite Z.min_r by lia; reflexivity. }
    rewrite Hr. lia.
Qed.

(** The rounded product at a normal intensity of at most 1: a normal
    number of at most the magnitude of the difference. *)
Lemma product_normal (d : Z) (mi : positive) (ei : Z) :
  d <> 0 -> Z.abs d < 256 ->
  unit_intensity (S754_finite false mi ei) ->
  2 ^ 52 <= Zpos mi < 2 ^ 53 -> -1000 <= ei ->
  SFmul 53 1024 (num_of_Z d) (S754_finite false mi ei)
  = S754_finite (d <? 0)
      (Z.to_pos (fst (round53 (mant (Z.abs d) * Zpos mi) (expo (Z.abs d) + ei))))
      (snd (round53 (mant (Z.abs d) * Zpos mi) (expo (Z.abs d) + ei)))
  /\ 2 ^ 52 <= fst (round53 (mant (Z.abs d) * Zpos mi) (expo (Z.abs d) + ei)) < 2 ^ 53
  /\ -1000 <= snd (round53 (mant (Z.abs d) * Zpos mi) (expo (Z.abs d) + ei)) <= -45
  /\ fst (round53 (mant (Z.abs d) * Zpos mi) (expo (Z.abs d) + ei))
     <= Z.abs d * 2 ^ (- snd (round53 (mant (Z.abs d) * Zpos mi) (expo (Z.abs d) + ei))).
Proof.
  intros Hnz Hd Hi Hmi Hei.
  destruct (unit_intensity_cases _ Hi) as [[s Hs]|(m0 & e0 & Heq & He0 & _)]; [discriminate|].
  injection Heq as <- <-.
  pose proof (mant_bounds (Z.abs d) ltac:(lia)) as Hm.
  pose proof (Zdigits2_le_53 (Z.abs d) ltac:(lia)) as Hdig.
  pose proof (product_digits _ _ Hm Hmi) as Hpd.
  pose proof (SFmul_within d (S754_finite false mi ei) ltac:(lia) Hi) as Hw.
  rewrite SFmul_round53 in * by lia.
  set (P := round53 (mant (Z.abs d) * Zpos mi) (expo (Z.abs d) + ei)) in *.
  destruct (round53_bounds (mant (Z.abs d) * Zpos mi) (expo (Z.abs d) + ei) ltac:(lia))
    as [Hf Hs]. fold P in Hf, Hs.
  cbn [magnitude_within] in Hw. destruct Hw as (_ & HeP & _ & HmP).
  rewrite Z2Pos.id in HmP by lia.
  split; [reflexivity|]. split; [exact Hf|]. split; [|exact HmP].
  split; [unfold expo in Hs; lia|].
  destruct (Z.le_gt_cases (snd P) (-45)) as [|Hgt]; [assumption|exfalso].
  assert (H1 : 2 ^ (- snd P) <= 2 ^ 44) by (apply Z.pow_le_mono_r; lia).
  pose proof (pow2_pos (- snd P) ltac:(lia)) as PP.
  change (2 ^ 52) with (256 * 2 ^ 44) in Hf. nia.
Qed.

(** The rounded product grows with the intensity. *)
Lemma product_mono (d : Z) (mi mi' : positive) (ei ei' : Z) :
  d <> 0 -> Z.abs d < 256 ->
  2 ^ 52 <= Zpos mi < 2 ^ 53 -> 2 ^ 52 <= Zpos mi' < 2 ^ 53 ->
  -1000 <= ei -> -1000 <= ei' ->
  lexle (Zpos mi, ei) (Zpos mi', ei') ->
  lexle (round53 (mant (Z.abs d) * Zpos mi) (expo (Z.abs d) + ei))
        (round53 (mant (Z.abs d) * Zpos mi') (expo (Z.abs d) + ei')).
Proof.
  intros Hnz Hd Hmi Hmi' Hei Hei' Hle.
  pose proof (mant_bounds (Z.abs d) ltac:(lia)) as Hm.
  pose proof (Zdigits2_le_53 (Z.abs d) ltac:(lia)) as Hdig.
  apply (round53_mono _ _ _ _ (-2000)); try (unfold expo; lia).
  pose proof (lexle_value (Zpos mi) ei (Zpos mi') ei' (-2000 - expo (Z.abs d)) Hmi Hmi'
                ltac:(unfold expo; lia) ltac:(unfold expo; lia) Hle) as Hv.
  replace (expo (Z.abs d) + ei - -2000) with (ei - (-2000 - expo (Z.abs d))) by lia.
  replace (expo (Z.abs d) + ei' - -2000) with (ei' - (-2000 - expo (Z.abs d))) by lia.
  rewrite <- !Z.mul_assoc. apply Z.mul_le_mono_nonneg_l; lia.
Qed.

(** The value of the aligned sum, over the scale [2 ^ L]. *)
Lemma sum_value (s M E L : Z) (sp : bool) :
  expo s <= 0 -> L <= expo s -> L <= E ->
  (s * 2 ^ (- Z.min (expo s) E) + cond_Zopp sp (M * 2 ^ (E - Z.min (expo s) E)))
  * 2 ^ (Z.min (expo s) E - L)
  = s * 2 ^ (- L) + cond_Zopp sp (M * 2 ^ (E - L)).
Proof.
  intros Hes HLs HLE. set (ez := Z.min (expo s) E).
  assert (Hez : L <= ez <= 0) by (unfold ez; lia).
  assert (Hez' : ez <= E) by (unfold ez; lia).
  assert (E1 : 2 ^ (- L) = 2 ^ (- ez) * 2 ^ (ez - L)).
  { rewrite <- Z.pow_add_r by lia. f_equal. lia. }
  assert (E2 : 2 ^ (E - L) = 2 ^ (E - ez) * 2 ^ (ez - L)).
  { rewrite <- Z.pow_add_r by lia. f_equal. lia. }
  rewrite E1, E2. unfold cond_Zopp. destruct sp; ring.
Qed.

(** Between two normal intensities of at most 1 the blend of one sample
    moves away from the sample, toward the matched value, or stays. *)
Lemma mix_normal_mono (m s : nat) (mi mi' : positive) (ei ei' : Z) :
  (m < 256)%nat -> (s < 256)%nat ->
  unit_intensity (S754_finite false mi ei) -> unit_intensity (S754_finite false mi' ei') ->
  2 ^ 52 <= Zpos mi < 2 ^ 53 -> 2 ^ 52 <= Zpos mi' < 2 ^ 53 ->
  -1000 <= ei -> -1000 <= ei' ->
  lexle (Zpos mi, ei) (Zpos mi', ei') ->
  between s (mix (num_of_nat m) (S754_finite false mi' ei') s)
            (mix (num_of_nat m) (S754_finite false mi ei) s).
Proof.
  intros Hm Hs Hi Hi' Hmi Hmi' Hei Hei' Hle.
  pose proof (mix_between m s _ Hm Hs Hi) as Hb.
  pose proof (mix_between m s _ Hm Hs Hi') as Hb'.
  destruct (Z.eq_dec (Z.of_nat m - Z.of_nat s) 0) as [Hz|Hnz].
  { assert (m = s) by lia. subst m. unfold between in *. lia. }
  revert Hb Hb'. unfold mix, num_of_nat. rewrite SFsub_integers by lia.
  set (d := Z.of_nat m - Z.of_nat s) in *.
  destruct (product_normal d mi ei Hnz ltac:(lia) Hi Hmi Hei) as (-> & Hf & He & Hmag).
  destruct (product_normal d mi' ei' Hnz ltac:(lia) Hi' Hmi' Hei') as (-> & Hf' & He' & Hmag').
  pose proof (product_mono d mi mi' ei ei' Hnz ltac:(lia) Hmi Hmi' Hei Hei' Hle) as HP.
  set (P := round53 (mant (Z.abs d) * Zpos mi) (expo (Z.abs d) + ei)) in *.
  set (P' := round53 (mant (Z.abs d) * Zpos mi') (expo (Z.abs d) + ei')) in *.
  clearbody P P'. destruct P as [M E], P' as [M' E']. cbn [fst snd] in *.
  pose (L := -2000). assert (HL : L <= -1100) by (unfold L; lia). clearbody L.
  pose proof (lexle_value M E M' E' L Hf Hf' ltac:(lia) ltac:(lia) HP) as Hv.
  pose proof (pow2_pos (E - L) ltac:(lia)) as PE.
  pose proof (pow2_pos (E' - L) ltac:(lia)) as PE'.
  pose proof (pow2_pos (- L) ltac:(lia)) as PL.
  destruct (Nat.eq_dec s 0%nat) as [Hs0|Hs0].
  - subst s. change (Z.of_nat 0) with 0 in *. rewrite num_of_Z_0.
    replace (d <? 0) with false by (symmetry; apply Z.ltb_ge; lia).
    cbn [SFadd]. intros Hb Hb'.
    pose proof (to_uint8_clamp_mono M E M' E' Hf Hf' HP). unfold between in *. lia.
  - set (z := Z.of_nat s) in *. assert (Hz : 0 < z < 256) by lia.
    pose proof (Zdigits2_le_53 z ltac:(lia)) as Hdz.
    assert (Hez : -52 <= expo z <= 0) by (unfold expo; lia).
    pose proof (sum_value z M E L (d <? 0) ltac:(lia) ltac:(lia) ltac:(lia)) as HS.
    pose proof (sum_value z M' E' L (d <? 0) ltac:(lia) ltac:(lia) ltac:(lia)) as HS'.
    pose proof (SFadd_round53 z (d <? 0) (Z.to_pos M) E Hz) as HA.
    pose proof (SFadd_round53 z (d <? 0) (Z.to_pos M') E' Hz) as HA'.
    pose proof (SFadd_aligned z (d <? 0) (Z.to_pos M') E' ltac:(lia)) as HZ'.
    rewrite Z2Pos.id in HA, HA', HZ' by lia.
    set (ez := Z.min (expo z) E) in *. set (ez' := Z.min (expo z) E') in *.
    assert (Hezb : -1000 <= ez <= 0) by (unfold ez; lia).
    assert (Hezb' : -1000 <= ez' <= 0) by (unfold ez'; lia).
    pose proof (pow2_pos (ez - L) ltac:(lia)) as Pz.
    pose proof (pow2_pos (ez' - L) ltac:(lia)) as Pz'.
    set (S := z * 2 ^ (- ez) + cond_Zopp (d <? 0) (M * 2 ^ (E - ez))) in *.
    set (S' := z * 2 ^ (- ez') + cond_Zopp (d <? 0) (M' * 2 ^ (E' - ez'))) in *.
    clearbody S S'.
    assert (Hmono :
      forall N N' ex ex' : Z, 0 < N -> 0 < N' -> -1000 <= ex -> -1000 <= ex' ->
        N * 2 ^ (ex - L) <= N' * 2 ^ (ex' - L) ->
        (to_uint8_clamp (S754_finite false (Z.to_pos (fst (round53 N ex))) (snd (round53 N ex)))
         <= to_uint8_clamp
              (S754_finite false (Z.to_pos (fst (round53 N' ex'))) (snd (round53 N' ex'))))%nat).
    { intros N N' ex ex' HN HN' Hex Hex' HNN.
      pose proof (round53_mono N ex N' ex' L HN HN' ltac:(lia) ltac:(lia) HNN) as HQ.
      destruct (round53_bounds N ex HN) as [HfQ _].
      destruct (round53_bounds N' ex' HN') as [HfQ' _].
      destruct (round53 N ex) as [Mq Eq], (round53 N' ex') as [Mq' Eq'].
      apply to_uint8_clamp_mono; assumption. }
    destruct (Z.ltb_spec d 0) as [Hneg|Hpos]; unfold cond_Zopp in HS, HS'.
    + rewrite Z.abs_neq in Hmag, Hmag' by lia.
      assert (Hsplit : 2 ^ (- L) = 2 ^ (- E) * 2 ^ (E - L)).
      { rewrite <- Z.pow_add_r by lia. f_equal. lia. }
      assert (Hsplit' : 2 ^ (- L) = 2 ^ (- E') * 2 ^ (E' - L)).
      { rewrite <- Z.pow_add_r by lia. f_equal. lia. }
      assert (Hle1 : M * 2 ^ (E - L) <= z * 2 ^ (- L)).
      { apply Z.le_trans with (- d * 2 ^ (- L)); [|apply Z.mul_le_mono_nonneg_r; lia].
        rewrite Hsplit, Z.mul_assoc. apply Z.mul_le_mono_nonneg_r; lia. }
      assert (Hle1' : M' * 2 ^ (E' - L) <= z * 2 ^ (- L)).
      { apply Z.le_trans with (- d * 2 ^ (- L)); [|apply Z.mul_le_mono_nonneg_r; lia].
        rewrite Hsplit', Z.mul_assoc. apply Z.mul_le_mono_nonneg_r; lia. }
      assert (HS0 : 0 <= S) by nia.
      assert (HS0' : 0 <= S') by nia.
      destruct (Z.eq_dec S' 0) as [Hzero|Hnzero].
      * rewrite HZ', Hzero. cbn [binary_normalize to_uint8_clamp].
        intros Hb Hb'. unfold between in *. lia.
      * assert (HSpos' : 0 < S') by lia.
        assert (HSS : S' * 2 ^ (ez' - L) <= S * 2 ^ (ez - L)) by lia.
        assert (HSpos : 0 < S) by nia.
        rewrite HA, HA' by lia. intros Hb Hb'.
        pose proof (Hmono S' S ez' ez HSpos' HSpos ltac:(lia) ltac:(lia) HSS).
        unfold between in *. lia.
    + assert (Hd : 0 < d) by lia.
      assert (HSpos : 0 < S) by nia.
      assert (HSpos' : 0 < S') by nia.
      assert (HSS : S * 2 ^ (ez - L) <= S' * 2 ^ (ez' - L)) by lia.
      rewrite HA, HA' by lia. intros Hb Hb'.
      pose proof (Hmono S S' ez ez' HSpos HSpos' ltac:(lia) ltac:(lia) HSS).
      unfold between in *. lia.
Qed.

(** Rounding a value that lies between two binary64 numbers [lo * 2 ^ g]
    and [hi * 2 ^ g] gives a value between them. *)
Lemma binary_round_aux_scaled (sx : bool) (N ex g lo hi : Z) :
  0 < N -> ex <= g -> -1074 <= g <= 0 -> 0 <= lo -> lo <= hi -> hi < 2 ^ 53 ->
  lo * 2 ^ (g - ex) <= N <= hi * 2 ^ (g - ex) ->
  scaled_within sx g lo hi (binary_round_aux 53 1024 sx N ex loc_Exact).
Proof.
  intros HN Hex Hg Hlo Hhi H53 [HloN HhiN].
  rewrite binary_round_aux_exact_form, binary_round_aux_rec_of by lia. cbv zeta.
  rewrite Z.div_1_r, Z.mul_1_l.
  pose proof (pow2_pos (g - ex) ltac:(lia)) as Pex.
  assert (Hdig : Zdigits2 N + ex <= 53 + g).
  { assert (N < 2 ^ (53 + g - ex)).
    { replace (53 + g - ex) with (53 + (g - ex)) by lia. rewrite Z.pow_add_r by lia. nia. }
    pose proof (Zdigits2_le N (53 + g - ex) HN ltac:(lia) H). lia. }
  set (n1 := Z.max (fexp 53 1024 (Zdigits2 N + ex) - ex) 0).
  assert (Hn1 : 0 <= n1 /\ ex + n1 <= g) by (unfold n1, fexp, emin; lia).
  set (e1 := ex + n1) in *.
  pose proof (pow2_pos n1 ltac:(lia)) as Pn1.
  pose proof (pow2_pos (g - e1) ltac:(lia)) as Pe1.
  assert (Hsplit : 2 ^ (g - ex) = 2 ^ (g - e1) * 2 ^ n1).
  { rewrite <- Z.pow_add_r by lia. f_equal. lia. }
  set (m1 := rnd N (2 ^ n1)).
  assert (Hm1 : lo * 2 ^ (g - e1) <= m1 <= hi * 2 ^ (g - e1)).
  { split.
    - rewrite <- (rnd_exact (lo * 2 ^ (g - e1)) (2 ^ n1) Pn1).
      apply rnd_mono; try lia; nia.
    - rewrite <- (rnd_exact (hi * 2 ^ (g - e1)) (2 ^ n1) Pn1).
      apply rnd_mono; try lia; nia. }
  assert (Hm1pos : 0 <= m1) by nia.
  assert (Hdig1 : Zdigits2 m1 + e1 <= 53 + g).
  { destruct (Z.eq_dec m1 0) as [->|Hnz]; [simpl; lia|].
    assert (m1 < 2 ^ (53 + g - e1)).
    { replace (53 + g - e1) with (53 + (g - e1)) by lia. rewrite Z.pow_add_r by lia. nia. }
    pose proof (Zdigits2_le m1 (53 + g - e1) ltac:(lia) ltac:(lia) H). lia. }
  set (n2 := Z.max (fexp 53 1024 (Zdigits2 m1 + e1) - e1) 0).
  assert (Hn2 : 0 <= n2 /\ e1 + n2 <= g) by (unfold n2, fexp, emin; lia).
  set (e2 := e1 + n2) in *.
  pose proof (pow2_pos n2 ltac:(lia)) as Pn2.
  pose proof (pow2_pos (g - e2) ltac:(lia)) as Pe2.
  assert (Hsplit2 : 2 ^ (g - e1) = 2 ^ (g - e2) * 2 ^ n2).
  { rewrite <- Z.pow_add_r by lia. f_equal. lia. }
  assert (Hm2 : lo * 2 ^ (g - e2) <= m1 / 2 ^ n2 <= hi * 2 ^ (g - e2)).
  { split.
    - apply Z.div_le_lower_bound; [lia|]. nia.
    - apply Z.div_le_upper_bound; [lia|]. nia. }
  destruct (m1 / 2 ^ n2) as [|m|m] eqn:Hm.
  - cbn. nia.
  - replace (e2 <=? 1024 - 53) with true by (symmetry; apply Z.leb_le; lia).
    cbn. repeat split; lia.
  - lia.
Qed.

Lemma binary_normalize_scaled (S ez g lo hi : Z) :
  ez <= g -> -1074 <= g <= 0 -> 0 <= lo -> lo <= hi -> hi < 2 ^ 53 ->
  lo * 2 ^ (g - ez) <= S <= hi * 2 ^ (g - ez) ->
  scaled_within false g lo hi (binary_normalize 53 1024 S ez false).
Proof.
  intros Hez Hg Hlo Hhi H53 [HloS HhiS].
  pose proof (pow2_pos (g - ez) ltac:(lia)) as Pez.
  destruct S as [|p|p]; [cbn; nia| |nia].
  unfold binary_normalize, binary_round.
  destruct (shl_align_spec p ez (fexp 53 1024 (Zpos (digits2_pos p) + ez))) as [He Hm].
  destruct (shl_align p ez _) as [mz ez']. cbn [fst snd] in He, Hm.
  assert (Hle : ez' <= ez) by lia.
  pose proof (pow2_pos (ez - ez') ltac:(lia)) as Pd.
  assert (Hsplit : 2 ^ (g - ez') = 2 ^ (g - ez) * 2 ^ (ez - ez')).
  { rewrite <- Z.pow_add_r by lia. f_equal. lia. }
  apply binary_round_aux_scaled; try lia.
  rewrite Hm, Hsplit. rewrite <- He. split.
  - rewrite Z.mul_assoc. apply Z.mul_le_mono_nonneg_r; lia.
  - rewrite Z.mul_assoc. apply Z.mul_le_mono_nonneg_r; lia.
Qed.

(** A fraction less than one half away from the integer [k] is rounded to
    [k]. *)
Lemma rnd_near (N D k : Z) :
  0 <= N -> 0 < D -> - D < 2 * (N - k * D) < D -> rnd N D = k.
Proof.
  intros HN HD Hk. pose proof (rnd_half N D HN HD) as Hh.
  destruct (Z.lt_trichotomy (rnd N D) k) as [Hlt|[Heq|Hgt]]; [exfalso|exact Heq|exfalso].
  - assert ((rnd N D + 1) * D <= k * D) by (apply Z.mul_le_mono_nonneg_r; lia). lia.
  - assert ((k + 1) * D <= rnd N D * D) by (apply Z.mul_le_mono_nonneg_r; lia). lia.
Qed.

(** At an intensity below [2 ^ -10] the blend returns the sample: the
    product is less than a quarter and is lost in the store conversion. *)
Lemma mix_small (m s : nat) (mi : positive) (ei : Z) :
  (m < 256)%nat -> (s < 256)%nat -> Zpos mi < 2 ^ 53 -> ei <= -63 ->
  mix (num_of_nat m) (S754_finite false mi ei) s = s.
Proof.
  intros Hm Hs Hmi Hei. unfold mix, num_of_nat. rewrite SFsub_integers by lia.
  set (d := Z.of_nat m - Z.of_nat s).
  destruct (Z.eq_dec d 0) as [Hz|Hnz].
  { rewrite Hz, num_of_Z_0. cbn [SFmul xorb]. rewrite SFadd_zero by lia.
    apply to_uint8_clamp_byte. exact Hs. }
  rewrite (num_of_Z_nonzero d Hnz) by lia.
  pose proof (mant_bounds (Z.abs d) ltac:(lia)) as Hmd.
  pose proof (Zdigits2_le_53 (Z.abs d) ltac:(lia)) as Hdig.
  unfold SFmul. rewrite xorb_false_r. rewrite Pos2Z.inj_mul, Z2Pos.id by lia.
  assert (Hexpo : -52 <= expo (Z.abs d) <= 0) by (unfold expo; lia).
  pose proof (pow2_pos (- expo (Z.abs d)) ltac:(lia)) as Ped.
  assert (Hmant : mant (Z.abs d) = Z.abs d * 2 ^ (- expo (Z.abs d))).
  { unfold mant, expo. f_equal. f_equal. lia. }
  assert (Hprod : mant (Z.abs d) * Zpos mi <= 1 * 2 ^ (-2 - (expo (Z.abs d) + ei))).
  { replace (-2 - (expo (Z.abs d) + ei)) with (- expo (Z.abs d) + (-2 - ei)) by lia.
    rewrite Z.pow_add_r, Hmant by lia.
    assert (H61 : 2 ^ 61 <= 2 ^ (-2 - ei)) by (apply Z.pow_le_mono_r; lia).
    assert (Hdm : Z.abs d * Zpos mi <= 2 ^ 8 * 2 ^ 53) by (apply Z.mul_le_mono_nonneg; lia).
    change (2 ^ 8 * 2 ^ 53) with (2 ^ 61) in Hdm.
    replace (Z.abs d * 2 ^ (- expo (Z.abs d)) * Zpos mi)
      with (2 ^ (- expo (Z.abs d)) * (Z.abs d * Zpos mi)) by ring.
    rewrite Z.mul_1_l. apply Z.mul_le_mono_nonneg_l; lia. }
  pose proof (binary_round_aux_scaled (d <? 0) (mant (Z.abs d) * Zpos mi)
                (expo (Z.abs d) + ei) (-2) 0 1 ltac:(lia) ltac:(lia) ltac:(lia) ltac:(lia)
                ltac:(lia) ltac:(lia) ltac:(lia)) as Hp.
  destruct (binary_round_aux 53 1024 (d <? 0) (mant (Z.abs d) * Zpos mi)
              (expo (Z.abs d) + ei) loc_Exact) as [sp|sp| |sp mp ep]; try contradiction.
  { rewrite SFadd_zero by lia. apply to_uint8_clamp_byte. exact Hs. }
  destruct Hp as (-> & Hep & _ & Hmp). rewrite Z.mul_1_l in Hmp.
  pose proof (pow2_pos (-2 - ep) ltac:(lia)) as Pu.
  assert (Hden : forall e : Z, e <= -2 -> 2 ^ (- e) = 4 * 2 ^ (-2 - e)).
  { intros e He. change 4 with (2 ^ 2). rewrite <- Z.pow_add_r by lia. f_equal. lia. }
  destruct (Nat.eq_dec s 0%nat) as [Hs0|Hs0].
  - subst s. change (Z.of_nat 0) with 0 in *. rewrite num_of_Z_0.
    replace (d <? 0) with false by (symmetry; apply Z.ltb_ge; lia).
    cbn [SFadd]. rewrite to_uint8_clamp_rnd by lia.
    rewrite (rnd_near (Zpos mp) (2 ^ (- ep)) 0); [reflexivity|lia| |]; rewrite Hden by lia; lia.
  - set (z := Z.of_nat s) in *. assert (Hz : 0 < z < 256) by lia.
    pose proof (Zdigits2_le_53 z ltac:(lia)) as Hdz.
    rewrite SFadd_aligned by lia.
    set (ez := Z.min (expo z) ep).
    assert (Hez : ez <= -2) by (unfold ez; lia).
    assert (Hez' : ez <= expo z <= 0) by (unfold ez, expo; lia).
    pose proof (pow2_pos (-2 - ez) ltac:(lia)) as Pz.
    pose proof (pow2_pos (ep - ez) ltac:(unfold ez; lia)) as Pd.
    assert (Hlow : Zpos mp * 2 ^ (ep - ez) <= 2 ^ (-2 - ez)).
    { replace (-2 - ez) with ((-2 - ep) + (ep - ez)) by lia.
      rewrite Z.pow_add_r by (unfold ez; lia). apply Z.mul_le_mono_nonneg_r; lia. }
    pose proof (binary_normalize_scaled
                  (z * 2 ^ (- ez) + cond_Zopp (d <? 0) (Zpos mp * 2 ^ (ep - ez)))
                  ez (-2) (4 * z - 1) (4 * z + 1) Hez ltac:(lia) ltac:(lia) ltac:(lia)
                  ltac:(lia)) as Hx.
    assert (Hprem : (4 * z - 1) * 2 ^ (-2 - ez)
                    <= z * 2 ^ (- ez) + cond_Zopp (d <? 0) (Zpos mp * 2 ^ (ep - ez))
                    <= (4 * z + 1) * 2 ^ (-2 - ez)).
    { rewrite (Hden ez Hez). unfold cond_Zopp. destruct (d <? 0); lia. }
    specialize (Hx Hprem).
    destruct (binary_normalize 53 1024 _ ez false) as [sx|sx| |sx mx ex]; try contradiction.
    { cbn in Hx. lia. }
    destruct Hx as (-> & Hex & Hlo & Hhi).
    pose proof (pow2_pos (-2 - ex) ltac:(lia)) as Px.
    rewrite to_uint8_clamp_rnd by lia.
    rewrite (rnd_near (Zpos mx) (2 ^ (- ex)) z); [|lia| |]; rewrite ?Hden by lia; lia.
Qed.

(** An intensity between 0 and 1 is a zero, a number below [2 ^ -10], or a
    normal number. *)
Lemma unit_intensity_classes (intensity : spec_float) :
  unit_intensity intensity ->
  (exists s, intensity = S754_zero s)
  \/ exists (m : positive) (e : Z),
       intensity = S754_finite false m e /\ Zpos m < 2 ^ 53 /\ e <= 0
       /\ (-63 < e -> 2 ^ 52 <= Zpos m).
Proof.
  intros Hi. destruct (unit_intensity_cases intensity Hi) as [Hz|(m & e & -> & He & Hm)];
    [left; exact Hz|right].
  exists m, e. split; [reflexivity|].
  destruct Hi as (Hvalid & _ & _).
  cbn [valid_binary bounded] in Hvalid. apply andb_prop in Hvalid as [Hcanon _].
  unfold canonical_mantissa in Hcanon. apply Z.eqb_eq in Hcanon.
  change (Zpos (digits2_pos m)) with (Zdigits2 (Zpos m)) in Hcanon.
  pose proof (Zdigits2_spec (Zpos m) ltac:(lia)) as [Hlo Hhi].
  assert (Hdig : Zdigits2 (Zpos m) <= 53) by (unfold fexp, emin in Hcanon; lia).
  split; [|split; [exact He|]].
  - eapply Z.lt_le_trans; [exact Hhi|]. apply Z.pow_le_mono_r; lia.
  - intros Hbig.
    assert (Hd : Zdigits2 (Zpos m) = 53) by (unfold fexp, emin in Hcanon; lia).
    rewrite Hd in Hlo. exact Hlo.
Qed.

Lemma SFleb_lexle (m m' : positive) (e e' : Z) :
  SFleb (S754_finite false m e) (S754_finite false m' e') = true ->
  lexle (Zpos m, e) (Zpos m', e').
Proof.
  unfold SFleb, SFcompare, lexle. cbn [fst snd].
  change (Pos.compare_cont Eq) with Pos.compare.
  destruct (Z.compare_spec e e') as [He|He|He]; intros H; try discriminate H.
  - right. split; [exact He|].
    rewrite Pos2Z.inj_compare in H.
    destruct (Z.compare_spec (Zpos m) (Zpos m')) as [Hc|Hc|Hc]; try discriminate H; lia.
  - left. exact He.
Qed.

(** At a zero intensity the blend returns the sample. *)
Lemma mix_zero (m s : nat) (sg : bool) :
  (m < 256)%nat -> (s < 256)%nat -> mix (num_of_nat m) (S754_zero sg) s = s.
Proof.
  intros Hm Hs. unfold mix, num_of_nat. rewrite SFsub_integers by lia.
  set (d := Z.of_nat m - Z.of_nat s).
  assert (Hp : exists s', SFmul 53 1024 (num_of_Z d) (S754_zero sg) = S754_zero s').
  { destruct (Z.eq_dec d 0) as [->|Hnz].
    - rewrite num_of_Z_0. eexists. reflexivity.
    - rewrite (num_of_Z_nonzero d Hnz) by lia. eexists. reflexivity. }
  destruct Hp as [s' ->]. rewrite SFadd_zero by lia. apply to_uint8_clamp_byte. exact Hs.
Qed.

(** The blend of one sample at two intensities between 0 and 1: at the
    smaller intensity the result lies between the sample and the result at
    the larger one. *)
Lemma mix_monotone (m s : nat) (i i' : spec_float) :
  (m < 256)%nat -> (s < 256)%nat ->
  unit_intensity i -> unit_intensity i' -> SFleb i i' = true ->
  between s (mix (num_of_nat m) i' s) (mix (num_of_nat m) i s).
Proof.
  intros Hm Hs Hi Hi' Hle.
  assert (Hsame : forall x : nat, between s x s) by (intros x; unfold between; lia).
  destruct (unit_intensity_classes i Hi) as [[sg Hz]|(mi & ei & Heq & Hmi & Hei & Hn)].
  { subst i. rewrite (mix_zero m s sg Hm Hs). apply Hsame. }
  destruct (Z.le_gt_cases ei (-63)) as [Hsmall|Hbig].
  { subst i. rewrite (mix_small m s mi ei Hm Hs Hmi Hsmall). apply Hsame. }
  destruct (unit_intensity_classes i' Hi') as [[sg Hz]|(mi' & ei' & Heq' & Hmi' & Hei' & Hn')].
  { subst i i'. discriminate Hle. }
  subst i i'. pose proof (SFleb_lexle mi mi' ei ei' Hle) as Hlex.
  assert (Hbig' : -63 < ei').
  { destruct Hlex as [Hl|[Hl _]]; cbn [fst snd] in Hl; lia. }
  apply mix_normal_mono; try assumption; lia.
Qed.

Lemma blend_monotone (mapping : list nat) (i i' : spec_float) (src : nat) :
  is_mapping mapping -> (src < 256)%nat ->
  unit_intensity i -> unit_intensity i' -> SFleb i i' = true ->
  between src (blend mapping i' src) (blend mapping i src).
Proof.
  intros [Hlen Hbytes] Hsrc Hi Hi' Hle. unfold blend.
  destruct (lookup_lt_is_Some_2 mapping src) as [m Hm]; [lia|].
  rewrite Hm. change (to_number (Z.of_nat <$> Some m)) with (num_of_nat m).
  apply mix_monotone; try assumption.
  rewrite Forall_forall in Hbytes. apply Hbytes.
  eapply list_elem_of_lookup_2. exact Hm.
Qed.

(** Sample by sample, the buffer graded at the smaller of two intensities
    lies between the source and the buffer graded at the larger one. *)
Lemma applyMappings_toward (mappings : Mappings) (i i' : spec_float) (data : list nat) :
  is_mapping (mappings_r mappings) -> is_mapping (mappings_g mappings) ->
  is_mapping (mappings_b mappings) ->
  Forall (fun v => (v < 256)%nat) data ->
  unit_intensity i -> unit_intensity i' -> SFleb i i' = true ->
  forall k a b : nat,
    applyMappings mappings i data !! k = Some a ->
    applyMappings mappings i' data !! k = Some b ->
    exists s : nat, set_alpha 255 data !! k = Some s /\ between s b a.
Proof.
  intros Hr Hg Hb Hbytes Hi Hi' Hle. revert Hbytes.
  induction data as [|r|r g|r g b0|r g b0 a0 rest IH] using pixel_ind;
    intros Hbytes k a b Ha Hb'; bytes Hbytes;
    cbn [set_alpha applyMappings] in *.
  - destruct k; discriminate.
  - destruct k as [|k]; [|destruct k; discriminate].
    injection Ha as <-. injection Hb' as <-. eexists. split; [reflexivity|].
    apply blend_monotone; assumption.
  - destruct k as [|[|k]]; try (destruct k; discriminate);
      injection Ha as <-; injection Hb' as <-; eexists; (split; [reflexivity|]);
        apply blend_monotone; assumption.
  - destruct k as [|[|[|k]]]; try (destruct k; discriminate);
      injection Ha as <-; injection Hb' as <-; eexists; (split; [reflexivity|]);
        apply blend_monotone; assumption.
  - destruct k as [|[|[|[|k]]]].
    1-3: injection Ha as <-; injection Hb' as <-; eexists; (split; [reflexivity|]);
        apply blend_monotone; assumption.
    + injection Ha as <-. injection Hb' as <-. eexists. split; [reflexivity|].
      apply between_same.
    + apply (IH Hbytes k a b Ha Hb').
Qed.

(** X18. Raising the intensity never moves a sample back toward the source:
    for two intensities [i <= i'] between 0 and 1, every sample graded at
    [i] lies between the source sample and the sample graded at [i'], with
    all the roundings of the blend and of the store taken into account. *)
Theorem applyMappings_monotone
    (mappings : Mappings) (i i' : spec_float) (data : list nat) (k s a b : nat) :
  is_mapping (mappings_r mappings) -> is_mapping (mappings_g mappings) ->
  is_mapping (mappings_b mappings) ->
  Forall (fun v => (v < 256)%nat) data ->
  unit_intensity i -> unit_intensity i' -> SFleb i i' = true ->
  set_alpha 255 data !! k = Some s ->
  applyMappings mappings i data !! k = Some a ->
  applyMappings mappings i' data !! k = Some b ->
  between s b a.
Proof.
  intros Hr Hg Hb Hbytes Hi Hi' Hle Hs Ha Hb'.
  destruct (applyMappings_toward mappings i i' data Hr Hg Hb Hbytes Hi Hi' Hle k a b Ha Hb')
    as (s' & Hs' & Hbetween).
  congruence.
Qed.

(** The quotient [position / 100] grows with the position. *)
Lemma sliderIntensity_mono (p q : Z) :
  0 <= p -> p <= q -> q <= 100 ->
  SFleb (sliderIntensity p) (sliderIntensity q) = true.
Proof.
  intros Hp Hpq Hq.
  destruct (Z.eq_dec p 0) as [->|Hp0].
  - destruct (sliderIntensity_unit q ltac:(lia)) as (_ & H0 & _). exact H0.
  - unfold sliderIntensity, ratio.
    destruct (SFdiv_num_of_Z p 100 ltac:(lia) ltac:(lia)) as [-> _].
    destruct (SFdiv_num_of_Z q 100 ltac:(lia) ltac:(lia)) as [-> _].
    destruct (div64_bounds p 100 ltac:(lia) ltac:(lia)) as [Hb _].
    destruct (div64_bounds q 100 ltac:(lia) ltac:(lia)) as [Hb' _].
    pose proof (div64_mono p q 100 ltac:(lia) Hpq ltac:(lia) ltac:(lia)) as Hm.
    destruct (div64 p 100) as [M E], (div64 q 100) as [M' E']. cbn [fst snd] in *.
    apply lexle_SFleb; try lia. exact Hm.
Qed.

(** X19. Moving the slider to the right never moves a sample of the preview
    back toward the source: for two positions [p <= q] from 0 to 100, every
    sample of the preview at [p] lies between the source sample and the
    sample of the preview at [q]. *)
Theorem runGrading_monotone
    (sourcePixels refPixels : ImageData) (p q : Z) (k s a b : nat) :
  Forall (fun v => (v < 256)%nat) (data sourcePixels) ->
  0 <= p -> p <= q -> q <= 100 ->
  set_alpha 255 (data sourcePixels) !! k = Some s ->
  runGrading sourcePixels refPixels p !! k = Some a ->
  runGrading sourcePixels refPixels q !! k = Some b ->
  between s b a.
Proof.
  intros Hbytes Hp Hpq Hq Hs Ha Hb'.
  destruct (matchMappings_are_mappings sourcePixels refPixels) as (Hr & Hg & Hb).
  destruct (applyMappings_toward (matchMappings sourcePixels refPixels)
              (sliderIntensity p) (sliderIntensity q) (data sourcePixels) Hr Hg Hb Hbytes
              (sliderIntensity_unit p ltac:(lia)) (sliderIntensity_unit q ltac:(lia))
              (sliderIntensity_mono p q Hp Hpq Hq) k a b Ha Hb')
    as (s' & Hs' & Hbetween).
  congruence.
Qed.

(** ** The further properties on given images *)

Lemma is_imageb_sound (pixels : ImageData) : is_imageb pixels = true -> is_image pixels.
Proof.
  unfold is_imageb, is_image. intros H.
  apply andb_prop in H as [H Hsmall]. apply andb_prop in H as [H Hpos].
  apply andb_prop in H as [Hlen Hbytes].
  apply Nat.eqb_eq in Hlen. apply Nat.ltb_lt in Hpos. apply Z.ltb_lt in Hsmall.
  repeat split; try assumption.
  rewrite Forall_forall. intros v Hv. rewrite forallb_forall in Hbytes.
  apply Nat.ltb_lt, Hbytes, list_elem_of_In, Hv.
Qed.

Lemma matchMappings_first_reaching_witness :
  first_reaching (cdf_r (imageCDFs (tenPixels 50 3 4 255)))
    (cdf_r (imageCDFs (tenPixels 200 7 9 128)))
    (mappings_r (matchMappings (tenPixels 50 3 4 255) (tenPixels 200 7 9 128))) 50
  /\ first_reaching (cdf_g (imageCDFs (tenPixels 50 3 4 255)))
       (cdf_g (imageCDFs (tenPixels 200 7 9 128)))
       (mappings_g (matchMappings (tenPixels 50 3 4 255) (tenPixels 200 7 9 128))) 50
  /\ first_reaching (cdf_b (imageCDFs (tenPixels 50 3 4 255)))
       (cdf_b (imageCDFs (tenPixels 200 7 9 128)))
       (mappings_b (matchMappings (tenPixels 50 3 4 255) (tenPixels 200 7 9 128))) 50.
Proof.
  apply (matchMappings_first_reaching (tenPixels 50 3 4 255) (tenPixels 200 7 9 128) 50).
  - apply is_imageb_sound. vm_compute. reflexivity.
  - apply is_imageb_sound. vm_compute. reflexivity.
  - lia.
Defined.


Lemma getCDF_strict_witness :
  exists y : spec_float,
    getCDF (redHist (tenPixels 50 3 4 255)) (num_of_Z 10) !! 50%nat = Some y
    /\ SFltb (S754_zero false) y = true
    /\ forall (j : nat) (x : spec_float),
         (j < 50)%nat ->
         getCDF (redHist (tenPixels 50 3 4 255)) (num_of_Z 10) !! j = Some x ->
         SFltb x y = true.
Proof.
  apply (getCDF_strict (redHist (tenPixels 50 3 4 255)) 10 50 10).
  - apply is_histogramb_sound. vm_compute. reflexivity.
  - vm_compute. reflexivity.
  - lia.
  - vm_compute. reflexivity.
  - lia.
Defined.

Lemma imageCDFs_valid_witness :
  length (cdf_r (imageCDFs (tenPixels 50 3 4 255))) = 256%nat
  /\ is_cdf (cdf_r (imageCDFs (tenPixels 50 3 4 255)))
  /\ forall (i : nat) (x : spec_float),
       cdf_r (imageCDFs (tenPixels 50 3 4 255)) !! i = Some x ->
       SFleb (S754_zero false) x = true /\ SFleb x float32_one = true.
Proof.
  apply (imageCDFs_valid (tenPixels 50 3 4 255)).
  - apply is_imageb_sound. vm_compute. reflexivity.
  - left. reflexivity.
Defined.

Lemma matchMappings_uniform_witness :
  mappings_r (matchMappings (tenPixels 50 3 4 255) (tenPixels 200 7 9 128)) !! 120%nat
  = Some (if (120 <? 50)%nat then 0%nat else 200%nat).
Proof.
  apply (matchMappings_uniform (tenPixels 50 3 4 255) (tenPixels 200 7 9 128) 50 200 120);
    try reflexivity; cbn; lia.
Defined.

Lemma applyMappings_between_witness : between 10 245 128.
Proof.
  apply (applyMappings_between inverted (ratio 1 2) [10; 20; 30; 40; 250; 0; 128; 7]%nat
           0 10 245 128).
  - apply is_mappingb_sound. vm_compute. reflexivity.
  - apply is_mappingb_sound. vm_compute. reflexivity.
  - apply is_mappingb_sound. vm_compute. reflexivity.
  - repeat constructor.
  - apply unit_intensityb_sound. vm_compute. reflexivity.
  - reflexivity.
  - reflexivity.
  - vm_compute. reflexivity.
Defined.

Lemma processImages_self_witness :
  processImages (tenPixels 50 3 4 128) (tenPixels 50 3 4 128) (ratio 1 3)
  = set_alpha 255 (data (tenPixels 50 3 4 128)).
Proof.
  apply (processImages_self (tenPixels 50 3 4 128) (ratio 1 3)).
  - apply is_imageb_sound. vm_compute. reflexivity.
  - vm_compute. reflexivity.
  - vm_compute. reflexivity.
Defined.

Lemma runGrading_slider_witness :
  runGrading (tenPixels 50 3 4 255) (tenPixels 200 7 9 128) 0
  = set_alpha 255 (data (tenPixels 50 3 4 255))
  /\ runGrading (tenPixels 50 3 4 255) (tenPixels 200 7 9 128) 100
     = fullyMapped (matchMappings (tenPixels 50 3 4 255) (tenPixels 200 7 9 128))
         (data (tenPixels 50 3 4 255))
  /\ (runGrading (tenPixels 50 3 4 255) (tenPixels 200 7 9 128) 0 !! 0%nat = Some 50%nat ->
      runGrading (tenPixels 50 3 4 255) (tenPixels 200 7 9 128) 100 !! 0%nat = Some 200%nat ->
      runGrading (tenPixels 50 3 4 255) (tenPixels 200 7 9 128) 30 !! 0%nat = Some 95%nat ->
      between 50 200 95).
Proof.
  apply (runGrading_slider (tenPixels 50 3 4 255) (tenPixels 200 7 9 128) 30 0 50 200 95).
  - apply Forall_forall. intros v Hv. apply list_elem_of_In in Hv.
    assert (Hall : forallb (fun v => Nat.ltb v 256) (data (tenPixels 50 3 4 255)) = true)
      by (vm_compute; reflexivity).
    rewrite forallb_forall in Hall. apply Nat.ltb_lt, Hall, Hv.
  - lia.
Defined.

Lemma processImages_proportional_reference_witness :
  processImages (tenPixels 50 3 4 255) (twentyPixels 200 7 9 1) (ratio 1 2)
  = processImages (tenPixels 50 3 4 255) (tenPixels 200 7 9 128) (ratio 1 2).
Proof.
  apply (processImages_proportional_reference (tenPixels 50 3 4 255)
           (tenPixels 200 7 9 128) (twentyPixels 200 7 9 1) (ratio 1 2) 2).
  - lia.
  - cbn. lia.
  - reflexivity.
  - vm_compute. reflexivity.
  - vm_compute. reflexivity.
  - vm_compute. reflexivity.
  - vm_compute. reflexivity.
Defined.

Lemma matchMappings_into_reference_witness :
  (In 50%nat (reds (data (tenPixels 50 3 4 255))) ->
   exists k : nat,
     mappings_r (matchMappings (tenPixels 50 3 4 255) (tenPixels 200 7 9 128)) !! 50%nat
     = Some k
     /\ In k (reds (data (tenPixels 200 7 9 128))))
  /\ (In 50%nat (greens (data (tenPixels 50 3 4 255))) ->
      exists k : nat,
        mappings_g (matchMappings (tenPixels 50 3 4 255) (tenPixels 200 7 9 128)) !! 50%nat
        = Some k
        /\ In k (greens (data (tenPixels 200 7 9 128))))
  /\ (In 50%nat (blues (data (tenPixels 50 3 4 255))) ->
      exists k : nat,
        mappings_b (matchMappings (tenPixels 50 3 4 255) (tenPixels 200 7 9 128)) !! 50%nat
        = Some k
        /\ In k (blues (data (tenPixels 200 7 9 128)))).
Proof.
  apply (matchMappings_into_reference (tenPixels 50 3 4 255) (tenPixels 200 7 9 128) 50).
  - apply is_imageb_sound. vm_compute. reflexivity.
  - apply is_imageb_sound. vm_compute. reflexivity.
Defined.

Lemma imageCDFs_entries_witness :
  cdf_r (imageCDFs (tenPixels 50 3 4 255)) !! 50%nat
  = Some (cdf_entry (at_most (reds (data (tenPixels 50 3 4 255))) 50)
            (Z.of_nat (width (tenPixels 50 3 4 255) * height (tenPixels 50 3 4 255))))
  /\ cdf_g (imageCDFs (tenPixels 50 3 4 255)) !! 50%nat
     = Some (cdf_entry (at_most (greens (data (tenPixels 50 3 4 255))) 50)
               (Z.of_nat (width (tenPixels 50 3 4 255) * height (tenPixels 50 3 4 255))))
  /\ cdf_b (imageCDFs (tenPixels 50 3 4 255)) !! 50%nat
     = Some (cdf_entry (at_most (blues (data (tenPixels 50 3 4 255))) 50)
               (Z.of_nat (width (tenPixels 50 3 4 255) * height (tenPixels 50 3 4 255)))).
Proof.
  apply (imageCDFs_entries (tenPixels 50 3 4 255) 50).
  - apply is_imageb_sound. vm_compute. reflexivity.
  - lia.
Defined.

Lemma applyMappings_monotone_witness : between 10 128 69.
Proof.
  apply (applyMappings_monotone inverted (ratio 1 4) (ratio 1 2)
           [10; 20; 30; 40; 250; 0; 128; 7]%nat 0 10 69 128).
  - apply is_mappingb_sound. vm_compute. reflexivity.
  - apply is_mappingb_sound. vm_compute. reflexivity.
  - apply is_mappingb_sound. vm_compute. reflexivity.
  - repeat constructor.
  - apply unit_intensityb_sound. vm_compute. reflexivity.
  - apply unit_intensityb_sound. vm_compute. reflexivity.
  - vm_compute. reflexivity.
  - reflexivity.
  - vm_compute. reflexivity.
  - vm_compute. reflexivity.
Defined.

Lemma runGrading_monotone_witness : between 50 155 95.
Proof.
  apply (runGrading_monotone (tenPixels 50 3 4 255) (tenPixels 200 7 9 128) 30 70 0 50 95 155).
  - apply Forall_forall. intros v Hv. apply list_elem_of_In in Hv.
    assert (Hall : forallb (fun v => Nat.ltb v 256) (data (tenPixels 50 3 4 255)) = true)
      by (vm_compute; reflexivity).
    rewrite forallb_forall in Hall. apply Nat.ltb_lt, Hall, Hv.
  - lia.
  - lia.
  - lia.
  - reflexivity.
  - vm_compute. reflexivity.
  - vm_compute. reflexivity.
Defined.
